(** * core-builder: a shallow embedding of the IR construction library

    The development follows the layout of the Go repository:

    - [types]   : the type system of [types/types.go];
    - [ir]      : values, instructions, basic blocks, functions and modules
                  of [ir/ir.go], and the instruction definitions with
                  their printer;
    - [builder] : the IR builder of [builder/builder.go].

    Conventions of the embedding.

    - A Go pointer to a mutable object (instruction, basic block, function,
      module) is a handle into a store ([ir.Heap]); allocation returns a
      handle that is not in use.  A nil pointer and a nil interface value
      are [None].  A nil pointer wrapped in a non-nil interface value is
      not modelled.
    - Constants, globals and arguments are carried by value: the builder
      never mutates them after they have been handed out.
    - The slices [Instructions], [Predecessors], [Successors], [Blocks] and
      [Functions] hold handles: the methods that append to them fault on
      nil before or right after the append.
    - [int] and [int64] are [Z], with the wrap-around of the two increments
      of the builder ([nameCounter++], [insertPoint++]) written out.
    - A run-time panic is a result of its own ([Panic]); it ends the call,
      and the state it leaves behind is not observed.
    - The enumerations ([Opcode], predicates, linkage) are closed.
    - The repository carries the instruction definitions twice.  The
      printer embedded here is the one with [formatOp], which renders
      constants inline; of the other copy, which renders every operand by
      name, [ir.BinaryInst_String_by_name] is embedded for comparison. *)

From Stdlib Require Import ZArith Bool.
From stdpp Require Import gmap strings list pretty.
From Equations Require Import Equations.

Set Warnings "-register-all".
Open Scope Z_scope.
Open Scope string_scope.
Open Scope list_scope.

(** ** Results of Go code *)

(** The run-time panics this code base can raise. *)
Inductive panic :=
  | NoInsertionBlock      (* panic("no insertion block set") *)
  | NilDereference        (* invalid memory address or nil pointer dereference *)
  | IndexOutOfRange       (* index or slice bounds out of range *)
  | MakeSliceCap.         (* makeslice: cap out of range *)

(** [Ok a]: the call returns [a].  [Panic p]: the call panics.  [Invalid]:
    the store handed to the model is not a Go memory (a handle that denotes
    no object, or an object of another dynamic type than the Go static type
    of the handle); Go programs never reach it. *)
Inductive outcome (A : Type) :=
  | Ok (a : A)
  | Panic (p : panic)
  | Invalid.
Arguments Ok {A} a.
Arguments Panic {A} p.
Arguments Invalid {A}.

(** Sequencing: a panic ends the computation.  The instances give the
    notation [x ← m; k]. *)
#[global] Instance outcome_ret : MRet outcome := fun A a => Ok a.
#[global] Instance outcome_bind : MBind outcome := fun A B f m =>
  match m with
  | Ok a => f a
  | Panic p => Panic p
  | Invalid => Invalid
  end.

(** Dereferencing a possibly nil pointer. *)
Definition deref {A} (o : option A) : outcome A :=
  match o with
  | Some a => Ok a
  | None => Panic NilDereference
  end.

(** [strings.Join]. *)
Fixpoint Join (elems : list string) (sep : string) : string :=
  match elems with
  | [] => ""
  | [e] => e
  | e :: rest => e +:+ sep +:+ Join rest sep
  end.

(** A Go [int]/[int64] after an arithmetic operation: 64-bit two's
    complement wrap-around. *)
Definition wrap_int (z : Z) : Z := (z + 2 ^ 63) mod 2 ^ 64 - 2 ^ 63.

(** [fmt]'s rendering of a nil interface value under the verb [%s]. *)
Definition fmt_nil_s : string := "%!s(<nil>)".

(** [fmt]'s rendering, under [%s], of a value whose [String] method panics
    with a nil dereference: [fmt] recovers the panic and prints it. *)
Definition fmt_panic_s : string :=
  "%!s(PANIC=String method: runtime error: invalid memory address or nil pointer dereference)".

(** ** Package [types] *)

Module types.

Inductive TypeKind :=
  | VoidKind | IntegerKind | FloatKind | PointerKind | ArrayKind
  | StructKind | FunctionKind | VectorKind | LabelKind.

#[global] Instance TypeKind_eq_dec : EqDecision TypeKind.
Proof. solve_decision. Defined.

(** The implementations of the interface [Type].  A field of interface
    type [Type] is an [option Ty]: it can hold nil. *)
Inductive Ty :=
  | VoidType
  | IntType (BitWidth : Z) (Signed : bool)
  | FloatType (BitWidth : Z)
  | PointerType (ElementType : option Ty) (AddressSpace : Z)
  | ArrayType (ElementType : option Ty) (Length : Z)
  | StructType (Name : string) (Fields : list (option Ty)) (Packed : bool)
  | FunctionType (ReturnType : option Ty) (ParamTypes : list (option Ty))
                 (Variadic : bool)
  | VectorType (ElementType : option Ty) (Length : Z) (Scalable : bool)
  | LabelType.

Definition Kind (t : Ty) : TypeKind :=
  match t with
  | VoidType => VoidKind
  | IntType _ _ => IntegerKind
  | FloatType _ => FloatKind
  | PointerType _ _ => PointerKind
  | ArrayType _ _ => ArrayKind
  | StructType _ _ _ => StructKind
  | FunctionType _ _ _ => FunctionKind
  | VectorType _ _ _ => VectorKind
  | LabelType => LabelKind
  end.

(** [o.Kind()] on an interface value. *)
Definition Kind_of (o : option Ty) : outcome TypeKind :=
  t ← deref o; Ok (Kind t).

(** The loop shared by [StructType.Equal] and [FunctionType.Equal]:
<<
    for i := range t.Fields {
        if !t.Fields[i].Equal(ot.Fields[i]) { return false }
    }
>>
    [Ok true] is falling out of the loop, [Ok false] is the [return false]
    inside it. *)
Definition Equal_loop (Equal : Ty -> option Ty -> outcome bool)
  : list (option Ty) -> list (option Ty) -> outcome bool :=
  fix go (ts os : list (option Ty)) {struct ts} : outcome bool :=
    match ts with
    | [] => Ok true
    | t :: ts' =>
        match os with
        | [] => Panic IndexOutOfRange
        | o :: os' =>
            match t with
            | None => Panic NilDereference
            | Some t1 =>
                match Equal t1 o with
                | Ok true => go ts' os'
                | r => r
                end
            end
        end
    end.

(** The method [Equal] of each implementation; the receiver is not nil, the
    argument is any interface value. *)
Fixpoint Equal (t : Ty) (o : option Ty) {struct t} : outcome bool :=
  match t with
  | VoidType => k ← Kind_of o; Ok (bool_decide (k = VoidKind))
  | IntType w s =>
      match o with
      | Some (IntType w' s') => Ok (Z.eqb w w' && Bool.eqb s s')
      | _ => Ok false
      end
  | FloatType w =>
      match o with
      | Some (FloatType w') => Ok (Z.eqb w w')
      | _ => Ok false
      end
  | PointerType e a =>
      match o with
      | Some (PointerType e' a') =>
          match e with
          | None => Panic NilDereference
          | Some e1 =>
              match Equal e1 e' with
              | Ok true => Ok (Z.eqb a a')
              | r => r
              end
          end
      | _ => Ok false
      end
  | ArrayType e n =>
      match o with
      | Some (ArrayType e' n') =>
          if Z.eqb n n' then
            match e with
            | None => Panic NilDereference
            | Some e1 => Equal e1 e'
            end
          else Ok false
      | _ => Ok false
      end
  | StructType name fields packed =>
      match o with
      | Some (StructType name' fields' packed') =>
          if negb (String.eqb name "") && negb (String.eqb name' "") then
            Ok (String.eqb name name')
          else if negb (Nat.eqb (length fields) (length fields')) then Ok false
          else
            match Equal_loop Equal fields fields' with
            | Ok true => Ok (Bool.eqb packed packed')
            | r => r
            end
      | _ => Ok false
      end
  | FunctionType ret params variadic =>
      match o with
      | Some (FunctionType ret' params' variadic') =>
          match ret with
          | None => Panic NilDereference
          | Some r1 =>
              match Equal r1 ret' with
              | Ok b =>
                  if negb b || negb (Bool.eqb variadic variadic') then Ok false
                  else if negb (Nat.eqb (length params) (length params'))
                       then Ok false
                       else Equal_loop Equal params params'
              | r => r
              end
          end
      | _ => Ok false
      end
  | VectorType e n s =>
      match o with
      | Some (VectorType e' n' s') =>
          if Z.eqb n n' && Bool.eqb s s' then
            match e with
            | None => Panic NilDereference
            | Some e1 => Equal e1 e'
            end
          else Ok false
      | _ => Ok false
      end
  | LabelType => k ← Kind_of o; Ok (bool_decide (k = LabelKind))
  end.

(** The verb [%s] of [fmt.Sprintf] applied to an interface value of type
    [Type]: nil prints as [fmt_nil_s]; otherwise [fmt] calls the [String]
    method and recovers a panic inside it. *)
Definition verb_s (String : Ty -> outcome string) (o : option Ty) : string :=
  match o with
  | None => fmt_nil_s
  | Some t =>
      match String t with
      | Ok s => s
      | _ => fmt_panic_s
      end
  end.

(** The loops [for i, f := range t.Fields { fields[i] = f.String() }]. *)
Definition String_each (String : Ty -> outcome string)
  : list (option Ty) -> outcome (list string) :=
  fix go (ts : list (option Ty)) : outcome (list string) :=
    match ts with
    | [] => Ok []
    | t :: ts' =>
        match t with
        | None => Panic NilDereference
        | Some t1 =>
            match String t1 with
            | Ok s =>
                match go ts' with
                | Ok ss => Ok (s :: ss)
                | r => r
                end
            | Panic p => Panic p
            | Invalid => Invalid
            end
        end
    end.

(** The method [String] of each implementation. *)
Fixpoint String (t : Ty) : outcome string :=
  match t with
  | VoidType => Ok "void"
  | IntType w signed =>
      let prefix := if negb signed then "u" else "i" in
      Ok (prefix +:+ pretty w)
  | FloatType w =>
      if Z.eqb w 16 then Ok "f16"
      else if Z.eqb w 32 then Ok "f32"
      else if Z.eqb w 64 then Ok "f64"
      else if Z.eqb w 128 then Ok "f128"
      else Ok ("f" +:+ pretty w)
  | PointerType e a =>
      if negb (Z.eqb a 0)
      then Ok ("ptr<" +:+ verb_s String e +:+ ", " +:+ pretty a +:+ ">")
      else Ok ("ptr<" +:+ verb_s String e +:+ ">")
  | ArrayType e n =>
      Ok ("[" +:+ pretty n +:+ " x " +:+ verb_s String e +:+ "]")
  | StructType name fields packed =>
      if negb (String.eqb name "") then Ok ("%" +:+ name)
      else
        match String_each String fields with
        | Ok strs =>
            let prefix := if packed then "<{ " else "{ " in
            let suffix := if packed then " }>" else " }" in
            Ok (prefix +:+ Join strs ", " +:+ suffix)
        | Panic p => Panic p
        | Invalid => Invalid
        end
  | FunctionType ret params variadic =>
      match String_each String params with
      | Ok strs =>
          let strs := if variadic then app strs ["..."] else strs in
          Ok ("fn(" +:+ Join strs ", " +:+ ") -> " +:+ verb_s String ret)
      | Panic p => Panic p
      | Invalid => Invalid
      end
  | VectorType e n scalable =>
      if scalable
      then Ok ("<vscale x " +:+ pretty n +:+ " x " +:+ verb_s String e +:+ ">")
      else Ok ("<" +:+ pretty n +:+ " x " +:+ verb_s String e +:+ ">")
  | LabelType => Ok "label"
  end.

(** [fmt.Sprintf("%s", t)] for [t] of interface type [Type]. *)
Definition Sprint (o : option Ty) : string := verb_s String o.

(** Common type constructors. *)
Definition Void : Ty := VoidType.
Definition Label : Ty := LabelType.
Definition I1 : Ty := IntType 1 true.
Definition I8 : Ty := IntType 8 true.
Definition I16 : Ty := IntType 16 true.
Definition I32 : Ty := IntType 32 true.
Definition I64 : Ty := IntType 64 true.
Definition I128 : Ty := IntType 128 true.
Definition U8 : Ty := IntType 8 false.
Definition U16 : Ty := IntType 16 false.
Definition U32 : Ty := IntType 32 false.
Definition U64 : Ty := IntType 64 false.
Definition F16 : Ty := FloatType 16.
Definition F32 : Ty := FloatType 32.
Definition F64 : Ty := FloatType 64.
Definition F128 : Ty := FloatType 128.

Definition NewPointer (elem : option Ty) : Ty := PointerType elem 0.
Definition NewStruct (name : string) (fields : list (option Ty))
  (packed : bool) : Ty := StructType name fields packed.
Definition NewFunction (ret : option Ty) (params : list (option Ty))
  (variadic : bool) : Ty := FunctionType ret params variadic.

(** Predicates on type trees, for stating what [Equal] decides. *)

(** [P] holds of every entry of the list, none of which is nil. *)
Definition all_some (P : Ty -> Prop) : list (option Ty) -> Prop :=
  fix go (ts : list (option Ty)) : Prop :=
    match ts with
    | [] => Logic.True
    | Some t :: ts' => P t /\ go ts'
    | None :: _ => Logic.False
    end.

(** [P] holds of the type behind a non-nil interface value. *)
Definition is_some (P : Ty -> Prop) (o : option Ty) : Prop :=
  match o with
  | Some t => P t
  | None => Logic.False
  end.

(** No field of interface type [Type] inside the type is nil. *)
Fixpoint nil_free (t : Ty) : Prop :=
  match t with
  | VoidType | IntType _ _ | FloatType _ | LabelType => Logic.True
  | PointerType e _ | ArrayType e _ | VectorType e _ _ => is_some nil_free e
  | StructType _ fields _ => all_some nil_free fields
  | FunctionType ret params _ => is_some nil_free ret /\ all_some nil_free params
  end.

(** Every struct type inside the type (the type itself included) is
    anonymous, and no field of interface type is nil. *)
Fixpoint unnamed (t : Ty) : Prop :=
  match t with
  | VoidType | IntType _ _ | FloatType _ | LabelType => Logic.True
  | PointerType e _ | ArrayType e _ | VectorType e _ _ => is_some unnamed e
  | StructType name fields _ => name = "" /\ all_some unnamed fields
  | FunctionType ret params _ => is_some unnamed ret /\ all_some unnamed params
  end.

(** The statements about [Equal] that are proved by induction on the
    receiver. *)

(** The property of one type that symmetry is proved by induction on. *)
Definition symmetric_at (t : Ty) : Prop :=
  forall o, Equal t (Some o) = Ok true -> Equal o (Some t) = Ok true.

(** Reflexivity, one type at a time. *)
Definition reflexive_at (t : Ty) : Prop :=
  nil_free t -> Equal t (Some t) = Ok true.

(** [Equal] returns, one receiver at a time. *)
Definition total_at (t : Ty) : Prop :=
  nil_free t -> forall o, nil_free o -> exists b, Equal t (Some o) = Ok b.

(** Identity, one receiver at a time. *)
Definition identity_at (t : Ty) : Prop :=
  unnamed t -> forall o, unnamed o -> Equal t (Some o) = Ok true -> o = t.

End types.

(** ** Package [ir]: the data model *)

Module ir.
Import types.

(** Handles: the addresses of the heap-allocated objects. *)
Abbreviation inst_ref := nat.
Abbreviation block_ref := nat.
Abbreviation func_ref := nat.
Abbreviation module_ref := nat.

Inductive Opcode :=
  (* Terminator instructions *)
  | OpRet | OpBr | OpCondBr | OpSwitch | OpUnreachable
  (* Binary operations *)
  | OpAdd | OpSub | OpMul | OpUDiv | OpSDiv | OpURem | OpSRem
  | OpFAdd | OpFSub | OpFMul | OpFDiv | OpFRem
  (* Bitwise binary operations *)
  | OpShl | OpLShr | OpAShr | OpAnd | OpOr | OpXor
  (* Memory operations *)
  | OpAlloca | OpLoad | OpStore | OpGetElementPtr
  (* Cast operations *)
  | OpTrunc | OpZExt | OpSExt | OpFPTrunc | OpFPExt | OpFPToUI | OpFPToSI
  | OpUIToFP | OpSIToFP | OpPtrToInt | OpIntToPtr | OpBitcast
  (* Other operations *)
  | OpICmp | OpFCmp | OpPhi | OpSelect | OpCall | OpExtractValue
  | OpInsertValue.

#[global] Instance Opcode_eq_dec : EqDecision Opcode.
Proof. solve_decision. Defined.

Definition Opcode_String (op : Opcode) : string :=
  match op with
  | OpRet => "ret" | OpBr => "br" | OpCondBr => "br" | OpSwitch => "switch"
  | OpUnreachable => "unreachable"
  | OpAdd => "add" | OpSub => "sub" | OpMul => "mul" | OpUDiv => "udiv"
  | OpSDiv => "sdiv" | OpURem => "urem" | OpSRem => "srem"
  | OpFAdd => "fadd" | OpFSub => "fsub" | OpFMul => "fmul"
  | OpFDiv => "fdiv" | OpFRem => "frem"
  | OpShl => "shl" | OpLShr => "lshr" | OpAShr => "ashr" | OpAnd => "and"
  | OpOr => "or" | OpXor => "xor"
  | OpAlloca => "alloca" | OpLoad => "load" | OpStore => "store"
  | OpGetElementPtr => "getelementptr"
  | OpTrunc => "trunc" | OpZExt => "zext" | OpSExt => "sext"
  | OpFPTrunc => "fptrunc" | OpFPExt => "fpext" | OpFPToUI => "fptoui"
  | OpFPToSI => "fptosi" | OpUIToFP => "uitofp" | OpSIToFP => "sitofp"
  | OpPtrToInt => "ptrtoint" | OpIntToPtr => "inttoptr"
  | OpBitcast => "bitcast"
  | OpICmp => "icmp" | OpFCmp => "fcmp" | OpPhi => "phi"
  | OpSelect => "select" | OpCall => "call"
  | OpExtractValue => "extractvalue" | OpInsertValue => "insertvalue"
  end.

Inductive ICmpPredicate :=
  | ICmpEQ | ICmpNE | ICmpUGT | ICmpUGE | ICmpULT | ICmpULE
  | ICmpSGT | ICmpSGE | ICmpSLT | ICmpSLE.

Inductive FCmpPredicate :=
  | FCmpFalse | FCmpOEQ | FCmpOGT | FCmpOGE | FCmpOLT | FCmpOLE | FCmpONE
  | FCmpORD | FCmpUNO | FCmpUEQ | FCmpUGT | FCmpUGE | FCmpULT | FCmpULE
  | FCmpUNE | FCmpTrue.

Inductive Linkage :=
  | ExternalLinkage | InternalLinkage | PrivateLinkage | LinkOnceODRLinkage
  | WeakODRLinkage | CommonLinkage.

Inductive FuncAttribute :=
  | AttrNoReturn | AttrNoUnwind | AttrReadOnly | AttrReadNone
  | AttrAlwaysInline | AttrNoInline.

(** [BaseValue]: the fields every value embeds. *)
Record BaseValue := mkBaseValue {
  ValName : string;
  ValType : option Ty
}.

(** The zero value of [BaseValue]. *)
Definition BaseValue_zero : BaseValue := mkBaseValue "" None.

Record Argument := mkArgument {
  Arg_Base : BaseValue;
  Arg_Index : Z;
  Arg_Parent : option func_ref
}.

(** The dynamic types behind a non-nil interface value [Value].  Constants,
    globals and arguments are carried with their fields; instructions,
    basic blocks and functions, which the builder mutates after they have
    been handed out, are handles into the store.  A [float64] is its
    IEEE-754 bit pattern. *)
Inductive Value :=
  | ConstantInt (base : BaseValue) (val : Z)
  | ConstantFloat (base : BaseValue) (bits : Z)
  | ConstantNull (base : BaseValue)
  | ConstantUndef (base : BaseValue)
  | ConstantArray (base : BaseValue) (Elements : list (option Value))
  | ConstantStruct (base : BaseValue) (Fields : list (option Value))
  | ConstantZero (base : BaseValue)
  | Global (base : BaseValue) (Initializer : option Value)
           (IsConstant : bool) (linkage : Linkage) (AddressSpace : Z)
  | ArgumentV (a : Argument)
  | InstructionV (r : inst_ref)
  | BasicBlockV (r : block_ref)
  | FunctionV (r : func_ref).

Record SwitchCase := mkSwitchCase {
  Case_Value : option (BaseValue * Z);   (* *ConstantInt *)
  Case_Block : option block_ref
}.

Record PhiIncoming := mkPhiIncoming {
  Inc_Value : option Value;
  Inc_Block : option block_ref
}.

(** The struct types that embed [BaseInstruction], each with its own
    fields. *)
Inductive InstStruct :=
  | RetInst
  | BrInst (Target : option block_ref)
  | CondBrInst (Condition : option Value)
               (TrueBlock FalseBlock : option block_ref)
  | SwitchInst (Condition : option Value) (DefaultBlock : option block_ref)
               (Cases : list SwitchCase)
  | UnreachableInst
  | BinaryInst (NoSignedWrap NoUnsignedWrap Exact : bool)
  | AllocaInst (AllocatedType : option Ty) (NumElements : option Value)
               (Alignment : Z)
  | LoadInst (Volatile : bool) (Alignment : Z)
  | StoreInst (Volatile : bool) (Alignment : Z)
  | GetElementPtrInst (SourceElementType : option Ty) (InBounds : bool)
  | CastInst (DestType : option Ty)
  | ICmpInst (Predicate : ICmpPredicate)
  | FCmpInst (Predicate : FCmpPredicate)
  | PhiInst (Incoming : list PhiIncoming)
  | SelectInst
  | CallInst (Callee : option func_ref) (CalleeName : string)
             (IsTailCall : bool)
  | ExtractValueInst (Indices : list Z)
  | InsertValueInst (Indices : list Z).

Record BaseInstruction := mkBaseInstruction {
  Inst_Base : BaseValue;
  Ops : list (option Value);
  Parent_ : option block_ref;
  Op : Opcode
}.

(** An instruction object: the embedded [BaseInstruction] and the fields
    of its struct type. *)
Record Instruction := mkInstruction {
  Base : BaseInstruction;
  Struct : InstStruct
}.

(** The zero value of [BaseInstruction]; the zero [Opcode] is [OpRet]. *)
Definition BaseInstruction_zero : BaseInstruction :=
  mkBaseInstruction BaseValue_zero [] None OpRet.

Record BasicBlock := mkBasicBlock {
  Block_Base : BaseValue;
  Instructions : list inst_ref;
  Block_Parent : option func_ref;
  Predecessors : list block_ref;
  Successors : list block_ref
}.

Record Function := mkFunction {
  Func_Base : BaseValue;
  FuncType : option Ty;           (* *types.FunctionType *)
  Blocks : list block_ref;
  Arguments : list Argument;
  Func_Linkage : Linkage;
  Func_Parent : option module_ref;
  Attributes : list FuncAttribute
}.

Record Module := mkModule {
  Mod_Name : string;
  Functions : list func_ref;
  Globals : list Value;
  Types : gmap string Ty;
  DataLayout : string;
  TargetTriple : string
}.

(** The store: the objects behind the handles. *)
Record Heap := mkHeap {
  modules : gmap nat Module;
  funcs : gmap nat Function;
  blocks : gmap nat BasicBlock;
  insts : gmap nat Instruction
}.

Definition empty_heap : Heap := mkHeap ∅ ∅ ∅ ∅.

(** *** Reading and writing the store *)

Definition load_module (h : Heap) (r : module_ref) : outcome Module :=
  match modules h !! r with Some m => Ok m | None => Invalid end.
Definition load_func (h : Heap) (r : func_ref) : outcome Function :=
  match funcs h !! r with Some f => Ok f | None => Invalid end.
Definition load_block (h : Heap) (r : block_ref) : outcome BasicBlock :=
  match blocks h !! r with Some b => Ok b | None => Invalid end.
Definition load_inst (h : Heap) (r : inst_ref) : outcome Instruction :=
  match insts h !! r with Some i => Ok i | None => Invalid end.

Definition store_module (r : module_ref) (m : Module) (h : Heap) : Heap :=
  mkHeap (<[r := m]> (modules h)) (funcs h) (blocks h) (insts h).
Definition store_func (r : func_ref) (f : Function) (h : Heap) : Heap :=
  mkHeap (modules h) (<[r := f]> (funcs h)) (blocks h) (insts h).
Definition store_block (r : block_ref) (b : BasicBlock) (h : Heap) : Heap :=
  mkHeap (modules h) (funcs h) (<[r := b]> (blocks h)) (insts h).
Definition store_inst (r : inst_ref) (i : Instruction) (h : Heap) : Heap :=
  mkHeap (modules h) (funcs h) (blocks h) (<[r := i]> (insts h)).

(** Allocation returns an address that is not in use. *)
Definition new_ref {A} (m : gmap nat A) : nat := fresh (dom m).

(** *** [BaseValue] and [BaseInstruction] *)

Definition set_ValName (n : string) (v : BaseValue) : BaseValue :=
  mkBaseValue n (ValType v).
Definition set_ValType (t : option Ty) (v : BaseValue) : BaseValue :=
  mkBaseValue (ValName v) t.

Definition SetName (n : string) (i : BaseInstruction) : BaseInstruction :=
  mkBaseInstruction (set_ValName n (Inst_Base i)) (Ops i) (Parent_ i) (Op i).
Definition SetType (t : option Ty) (i : BaseInstruction) : BaseInstruction :=
  mkBaseInstruction (set_ValType t (Inst_Base i)) (Ops i) (Parent_ i) (Op i).
Definition SetParent (b : option block_ref) (i : BaseInstruction)
  : BaseInstruction :=
  mkBaseInstruction (Inst_Base i) (Ops i) b (Op i).
Definition set_Op (op : Opcode) (i : BaseInstruction) : BaseInstruction :=
  mkBaseInstruction (Inst_Base i) (Ops i) (Parent_ i) op.
Definition set_Ops (ops : list (option Value)) (i : BaseInstruction)
  : BaseInstruction :=
  mkBaseInstruction (Inst_Base i) ops (Parent_ i) (Op i).

Definition NumOperands (i : BaseInstruction) : Z := Z.of_nat (length (Ops i)).

(** The loop of [SetOperand]:
<<
    for len(i.Ops) <= idx { i.Ops = append(i.Ops, nil) }
>> *)
Equations? grow_Ops (ops : list (option Value)) (idx : Z)
  : list (option Value)
  by wf (Z.to_nat (idx + 1 - Z.of_nat (length ops))) lt :=
  grow_Ops ops idx with Z_le_dec (Z.of_nat (length ops)) idx => {
    | left _ := grow_Ops (ops ++ [None]) idx ;
    | right _ := ops }.
Proof. rewrite length_app. simpl. lia. Qed.

(** [SetOperand]: after the loop, [i.Ops[idx] = v] faults on a negative
    index. *)
Definition SetOperand (idx : Z) (v : option Value) (i : BaseInstruction)
  : outcome BaseInstruction :=
  let ops := grow_Ops (Ops i) idx in
  if Z_lt_dec idx 0 then Panic IndexOutOfRange
  else Ok (set_Ops (<[Z.to_nat idx := v]> ops) i).

Definition IsTerminator (i : BaseInstruction) : bool :=
  match Op i with
  | OpRet | OpBr | OpCondBr | OpSwitch | OpUnreachable => true
  | _ => false
  end.

(** *** Values: the methods [Type] and [Name] *)

Definition Value_Base (h : Heap) (v : Value) : outcome BaseValue :=
  match v with
  | ConstantInt b _ | ConstantFloat b _ | ConstantNull b | ConstantUndef b
  | ConstantArray b _ | ConstantStruct b _ | ConstantZero b
  | Global b _ _ _ _ => Ok b
  | ArgumentV a => Ok (Arg_Base a)
  | InstructionV r => i ← load_inst h r; Ok (Inst_Base (Base i))
  | BasicBlockV r => b ← load_block h r; Ok (Block_Base b)
  | FunctionV r => f ← load_func h r; Ok (Func_Base f)
  end.

(** [v.Type()] and [v.Name()] on an interface value: nil faults. *)
Definition Value_Type (h : Heap) (v : option Value) : outcome (option Ty) :=
  v ← deref v; b ← Value_Base h v; Ok (ValType b).
Definition Value_Name (h : Heap) (v : option Value) : outcome string :=
  v ← deref v; b ← Value_Base h v; Ok (ValName b).

(** *** Basic blocks *)

Definition set_Instructions (l : list inst_ref) (b : BasicBlock) : BasicBlock :=
  mkBasicBlock (Block_Base b) l (Block_Parent b) (Predecessors b) (Successors b).
Definition set_Block_Parent (f : option func_ref) (b : BasicBlock) : BasicBlock :=
  mkBasicBlock (Block_Base b) (Instructions b) f (Predecessors b) (Successors b).
Definition set_Predecessors (l : list block_ref) (b : BasicBlock) : BasicBlock :=
  mkBasicBlock (Block_Base b) (Instructions b) (Block_Parent b) l (Successors b).
Definition set_Successors (l : list block_ref) (b : BasicBlock) : BasicBlock :=
  mkBasicBlock (Block_Base b) (Instructions b) (Block_Parent b) (Predecessors b) l.

Definition NewBasicBlock (name : string) (h : Heap) : block_ref * Heap :=
  let r := new_ref (blocks h) in
  (r, store_block r (mkBasicBlock (mkBaseValue name (Some Label)) [] None [] []) h).

(** [inst.SetParent(b)] through a handle. *)
Definition Inst_SetParent (inst : inst_ref) (b : option block_ref) (h : Heap)
  : outcome Heap :=
  i ← load_inst h inst;
  Ok (store_inst inst (mkInstruction (SetParent b (Base i)) (Struct i)) h).

Definition AddInstruction (b : block_ref) (inst : inst_ref) (h : Heap)
  : outcome Heap :=
  h ← Inst_SetParent inst (Some b) h;
  blk ← load_block h b;
  Ok (store_block b (set_Instructions (Instructions blk ++ [inst]) blk) h).

Definition Terminator (b : block_ref) (h : Heap) : outcome (option inst_ref) :=
  blk ← load_block h b;
  if Nat.eqb (length (Instructions blk)) 0 then Ok None
  else
    match Instructions blk !! (length (Instructions blk) - 1)%nat with
    | None => Panic IndexOutOfRange
    | Some last =>
        i ← load_inst h last;
        if IsTerminator (Base i) then Ok (Some last) else Ok None
    end.

(** *** Functions and modules *)

Definition set_Blocks (l : list block_ref) (f : Function) : Function :=
  mkFunction (Func_Base f) (FuncType f) l (Arguments f) (Func_Linkage f)
    (Func_Parent f) (Attributes f).
Definition set_Func_Parent (m : option module_ref) (f : Function) : Function :=
  mkFunction (Func_Base f) (FuncType f) (Blocks f) (Arguments f)
    (Func_Linkage f) m (Attributes f).
Definition set_Func_Linkage (l : Linkage) (f : Function) : Function :=
  mkFunction (Func_Base f) (FuncType f) (Blocks f) (Arguments f) l
    (Func_Parent f) (Attributes f).
Definition set_Functions (l : list func_ref) (m : Module) : Module :=
  mkModule (Mod_Name m) l (Globals m) (Types m) (DataLayout m) (TargetTriple m).

(** The fields of a [*types.FunctionType]; another dynamic type behind the
    pointer is excluded by Go's typing. *)
Definition as_FunctionType (t : Ty)
  : outcome (option Ty * list (option Ty) * bool) :=
  match t with
  | FunctionType ret params variadic => Ok (ret, params, variadic)
  | _ => Invalid
  end.

Definition NewFunction (name : string) (fnType : option Ty) (h : Heap)
  : outcome (func_ref * Heap) :=
  let r := new_ref (funcs h) in
  t ← deref fnType;
  '(_, params, _) ← as_FunctionType t;
  let args := imap (fun i paramType =>
                      mkArgument (mkBaseValue "" paramType) (Z.of_nat i) (Some r))
                   params in
  Ok (r, store_func r
           (mkFunction (mkBaseValue name fnType) fnType [] args
                       ExternalLinkage None []) h).

Definition AddBlock (f : func_ref) (b : option block_ref) (h : Heap)
  : outcome Heap :=
  b ← deref b;
  blk ← load_block h b;
  let h := store_block b (set_Block_Parent (Some f) blk) h in
  fn ← load_func h f;
  Ok (store_func f (set_Blocks (Blocks fn ++ [b]) fn) h).

Definition NewModule (name : string) (h : Heap) : module_ref * Heap :=
  let r := new_ref (modules h) in
  (r, store_module r (mkModule name [] [] ∅ "" "") h).

Definition AddFunction (m : module_ref) (f : option func_ref) (h : Heap)
  : outcome Heap :=
  f ← deref f;
  fn ← load_func h f;
  let h := store_func f (set_Func_Parent (Some m) fn) h in
  md ← load_module h m;
  Ok (store_module m (set_Functions (Functions md ++ [f]) md) h).

(** *** Lookups in functions and modules *)

Definition set_Globals (l : list Value) (m : Module) : Module :=
  mkModule (Mod_Name m) (Functions m) l (Types m) (DataLayout m) (TargetTriple m).

(** [EntryBlock]: the first block, nil for a function without blocks. *)
Definition EntryBlock (f : func_ref) (h : Heap) : outcome (option block_ref) :=
  fn ← load_func h f;
  Ok (match Blocks fn with
      | b :: _ => Some b
      | [] => None
      end).

(** The loop of [GetFunction]. *)
Fixpoint GetFunction_loop (h : Heap) (name : string) (fs : list func_ref)
  : outcome (option func_ref) :=
  match fs with
  | [] => Ok None
  | f :: rest =>
      fn ← load_func h f;
      if String.eqb (ValName (Func_Base fn)) name then Ok (Some f)
      else GetFunction_loop h name rest
  end.

Definition GetFunction (m : module_ref) (name : string) (h : Heap)
  : outcome (option func_ref) :=
  md ← load_module h m; GetFunction_loop h name (Functions md).

(** [g.ValName] for an entry of [Module.Globals]; another dynamic type
    than [*Global] is excluded by Go's typing. *)
Definition Global_Name (g : Value) : outcome string :=
  match g with
  | Global b _ _ _ _ => Ok (ValName b)
  | _ => Invalid
  end.

(** [AddGlobal]; the builder passes the object it has just made. *)
Definition AddGlobal (m : module_ref) (g : Value) (h : Heap) : outcome Heap :=
  md ← load_module h m;
  Ok (store_module m (set_Globals (Globals md ++ [g]) md) h).

(** The loop of [GetGlobal]. *)
Fixpoint GetGlobal_loop (name : string) (gs : list Value)
  : outcome (option Value) :=
  match gs with
  | [] => Ok None
  | g :: rest =>
      n ← Global_Name g;
      if String.eqb n name then Ok (Some g) else GetGlobal_loop name rest
  end.

Definition GetGlobal (m : module_ref) (name : string) (h : Heap)
  : outcome (option Value) :=
  md ← load_module h m; GetGlobal_loop name (Globals md).

(** The fixed set of terminator opcodes. *)
Definition terminator_opcodes : list Opcode :=
  [OpRet; OpBr; OpCondBr; OpSwitch; OpUnreachable].

(** The adjacency lists and the instruction sequence of the block behind a
    handle. *)
Definition Successors_of (h : Heap) (b : block_ref) : list block_ref :=
  match blocks h !! b with Some blk => Successors blk | None => [] end.
Definition Predecessors_of (h : Heap) (b : block_ref) : list block_ref :=
  match blocks h !! b with Some blk => Predecessors blk | None => [] end.
Definition Instructions_of (h : Heap) (b : block_ref) : list inst_ref :=
  match blocks h !! b with Some blk => Instructions blk | None => [] end.

(** *** The instruction printer

    [fmt]'s verb [%g] on a [float64] belongs to the Go library; it is a
    parameter of the printer. *)

Section printer.
Variable fmt_g : Z -> string.

(** Helper to format operands. *)
Definition formatOp (h : Heap) (v : option Value) : outcome string :=
  match v with
  | None => Ok "void"
  | Some (ConstantInt _ c) => Ok (pretty c)
  | Some (ConstantFloat _ c) => Ok (fmt_g c)
  | Some (ConstantNull _) => Ok "null"
  | Some (ConstantUndef _) => Ok "undef"
  | Some (ArgumentV a) =>
      if negb (String.eqb (ValName (Arg_Base a)) "")
      then Ok ("%" +:+ ValName (Arg_Base a))
      else Ok ("%" +:+ pretty (Arg_Index a))
  | Some _ =>
      name ← Value_Name h v;
      if String.eqb name "" then Ok "%<unnamed>" else Ok ("%" +:+ name)
  end.

(** [i.Ops[k]]. *)
Definition index_Ops (i : Instruction) (k : nat) : outcome (option Value) :=
  match Ops (Base i) !! k with
  | Some v => Ok v
  | None => Panic IndexOutOfRange
  end.

(** [BinaryInst.String]. *)
Definition BinaryInst_String (h : Heap) (i : Instruction) : outcome string :=
  match Struct i with
  | BinaryInst nsw nuw exact =>
      let flags := "" in
      let flags := if nuw then flags +:+ " nuw" else flags in
      let flags := if nsw then flags +:+ " nsw" else flags in
      let flags := if exact then flags +:+ " exact" else flags in
      lhs ← index_Ops i 0;
      rhs ← index_Ops i 1;
      lhsTy ← Value_Type h lhs;
      l ← formatOp h lhs;
      r ← formatOp h rhs;
      Ok ("%" +:+ ValName (Inst_Base (Base i)) +:+ " = "
          +:+ Opcode_String (Op (Base i)) +:+ flags +:+ " "
          +:+ Sprint lhsTy +:+ " " +:+ l +:+ ", " +:+ r)
  | _ => Invalid
  end.

(** The loop over the operands in [CallInst.String]: nil operands are
    skipped. *)
Fixpoint call_args (h : Heap) (ops : list (option Value))
  : outcome (list string) :=
  match ops with
  | [] => Ok []
  | None :: rest => call_args h rest
  | Some arg :: rest =>
      ty ← Value_Type h (Some arg);
      a ← formatOp h (Some arg);
      args ← call_args h rest;
      Ok ((Sprint ty +:+ " " +:+ a) :: args)
  end.

(** The guard of [CallInst.String]:
    [i.ValType == nil || i.ValType.Kind() == types.VoidKind]. *)
Definition is_void_or_nil (t : option Ty) : bool :=
  match t with
  | None => true
  | Some t => bool_decide (Kind t = VoidKind)
  end.

(** [CallInst.String]. *)
Definition CallInst_String (h : Heap) (i : Instruction) : outcome string :=
  match Struct i with
  | CallInst callee calleeName0 isTail =>
      let tail := if isTail then "tail " else "" in
      args ← call_args h (Ops (Base i));
      calleeName ← match callee with
                   | Some f => fn ← load_func h f; Ok (ValName (Func_Base fn))
                   | None => Ok calleeName0
                   end;
      if is_void_or_nil (ValType (Inst_Base (Base i))) then
        Ok (tail +:+ "call void @" +:+ calleeName +:+ "("
            +:+ Join args ", " +:+ ")")
      else
        Ok ("%" +:+ ValName (Inst_Base (Base i)) +:+ " = " +:+ tail
            +:+ "call " +:+ Sprint (ValType (Inst_Base (Base i)))
            +:+ " @" +:+ calleeName +:+ "(" +:+ Join args ", " +:+ ")")
  | _ => Invalid
  end.

End printer.

(** *** More of the instruction printer *)

Section printer_instructions.
Variable fmt_g : Z -> string.


(** [RetInst.String]. *)
Definition RetInst_String (h : Heap) (i : Instruction) : outcome string :=
  match Struct i with
  | RetInst =>
      match Ops (Base i) with
      | [] | None :: _ => Ok "ret void"
      | Some v :: _ =>
          ty ← Value_Type h (Some v);
          o ← formatOp fmt_g h (Some v);
          Ok ("ret " +:+ Sprint ty +:+ " " +:+ o)
      end
  | _ => Invalid
  end.

(** The suffix [", align %d"] shared by the memory instructions. *)
Definition with_align (result : string) (alignment : Z) : string :=
  if Z.ltb 0 alignment then result +:+ ", align " +:+ pretty alignment
  else result.

(** [LoadInst.String]. *)
Definition LoadInst_String (h : Heap) (i : Instruction) : outcome string :=
  match Struct i with
  | LoadInst volatile alignment =>
      let vol := if volatile then "volatile " else "" in
      ptr ← index_Ops i 0;
      pty ← Value_Type h ptr;
      p ← formatOp fmt_g h ptr;
      Ok (with_align
            ("%" +:+ ValName (Inst_Base (Base i)) +:+ " = load " +:+ vol
             +:+ Sprint (ValType (Inst_Base (Base i))) +:+ ", "
             +:+ Sprint pty +:+ " " +:+ p)
            alignment)
  | _ => Invalid
  end.

(** [StoreInst.String]. *)
Definition StoreInst_String (h : Heap) (i : Instruction) : outcome string :=
  match Struct i with
  | StoreInst volatile alignment =>
      let vol := if volatile then "volatile " else "" in
      val ← index_Ops i 0;
      ptr ← index_Ops i 1;
      vty ← Value_Type h val;
      v ← formatOp fmt_g h val;
      pty ← Value_Type h ptr;
      p ← formatOp fmt_g h ptr;
      Ok (with_align
            ("store " +:+ vol +:+ Sprint vty +:+ " " +:+ v +:+ ", "
             +:+ Sprint pty +:+ " " +:+ p)
            alignment)
  | _ => Invalid
  end.

(** [CastInst.String]. *)
Definition CastInst_String (h : Heap) (i : Instruction) : outcome string :=
  match Struct i with
  | CastInst destType =>
      src ← index_Ops i 0;
      sty ← Value_Type h src;
      o ← formatOp fmt_g h src;
      Ok ("%" +:+ ValName (Inst_Base (Base i)) +:+ " = "
          +:+ Opcode_String (Op (Base i)) +:+ " " +:+ Sprint sty +:+ " "
          +:+ o +:+ " to " +:+ Sprint destType)
  | _ => Invalid
  end.



End printer_instructions.



(** The instruction definitions exist in a second copy whose printer has no
    [formatOp] and renders every operand as [%<name>]; its
    [BinaryInst.String]: *)
Definition BinaryInst_String_by_name (h : Heap) (i : Instruction)
  : outcome string :=
  match Struct i with
  | BinaryInst nsw nuw exact =>
      let flags := "" in
      let flags := if nuw then flags +:+ " nuw" else flags in
      let flags := if nsw then flags +:+ " nsw" else flags in
      let flags := if exact then flags +:+ " exact" else flags in
      lhs ← match Ops (Base i) !! 0%nat with
            | Some v => Ok v | None => Panic IndexOutOfRange end;
      rhs ← match Ops (Base i) !! 1%nat with
            | Some v => Ok v | None => Panic IndexOutOfRange end;
      lhsTy ← Value_Type h lhs;
      l ← Value_Name h lhs;
      r ← Value_Name h rhs;
      Ok ("%" +:+ ValName (Inst_Base (Base i)) +:+ " = "
          +:+ Opcode_String (Op (Base i)) +:+ flags +:+ " "
          +:+ Sprint lhsTy +:+ " %" +:+ l +:+ ", %" +:+ r)
  | _ => Invalid
  end.

End ir.





(** ** Package [builder] *)

Module builder.
Import types ir.

Record Builder := mkBuilder {
  module : option module_ref;
  currentFunc : option func_ref;
  currentBlock : option block_ref;
  insertPoint : Z;               (* -1 means append to end *)
  nameCounter : Z
}.

(** [New]. *)
Definition New : Builder := mkBuilder None None None (-1) 0.

(** [NewWithModule]. *)
Definition NewWithModule (m : option module_ref) : Builder :=
  mkBuilder m None None (-1) 0.

Definition set_module (m : option module_ref) (b : Builder) : Builder :=
  mkBuilder m (currentFunc b) (currentBlock b) (insertPoint b) (nameCounter b).
Definition set_currentFunc (f : option func_ref) (b : Builder) : Builder :=
  mkBuilder (module b) f (currentBlock b) (insertPoint b) (nameCounter b).
Definition set_currentBlock (k : option block_ref) (b : Builder) : Builder :=
  mkBuilder (module b) (currentFunc b) k (insertPoint b) (nameCounter b).
Definition set_insertPoint (p : Z) (b : Builder) : Builder :=
  mkBuilder (module b) (currentFunc b) (currentBlock b) p (nameCounter b).
Definition set_nameCounter (n : Z) (b : Builder) : Builder :=
  mkBuilder (module b) (currentFunc b) (currentBlock b) (insertPoint b) n.

(** *** The monad of the builder's methods: the builder and the store are
    threaded through, a panic ends the call. *)

Record State := mkState { bld : Builder; mem : Heap }.

Definition M (A : Type) : Type := State -> outcome (A * State).

#[global] Instance M_ret : MRet M := fun A a s => Ok (a, s).
#[global] Instance M_bind : MBind M := fun A B f m s =>
  match m s with
  | Ok (a, s') => f a s'
  | Panic p => Panic p
  | Invalid => Invalid
  end.

Definition throw {A} (p : panic) : M A := fun _ => Panic p.
Definition lift {A} (o : outcome A) : M A := fun s =>
  match o with
  | Ok a => Ok (a, s)
  | Panic p => Panic p
  | Invalid => Invalid
  end.
Definition get_bld : M Builder := fun s => Ok (bld s, s).
Definition get_mem : M Heap := fun s => Ok (mem s, s).
Definition mod_bld (f : Builder -> Builder) : M unit :=
  fun s => Ok (tt, mkState (f (bld s)) (mem s)).
Definition put_mem (h : Heap) : M unit :=
  fun s => Ok (tt, mkState (bld s) h).
(** A method of package [ir] that mutates the store. *)
Definition on_mem (f : Heap -> outcome Heap) : M unit :=
  h ← get_mem; h' ← lift (f h); put_mem h'.
(** Reading through a handle. *)
Definition read {A} (f : Heap -> outcome A) : M A :=
  h ← get_mem; lift (f h).

Definition get_block (r : block_ref) : M BasicBlock := read (fun h => load_block h r).
Definition get_inst (r : inst_ref) : M Instruction := read (fun h => load_inst h r).
Definition get_func (r : func_ref) : M Function := read (fun h => load_func h r).
Definition put_block (r : block_ref) (b : BasicBlock) : M unit :=
  on_mem (fun h => Ok (store_block r b h)).
Definition put_inst (r : inst_ref) (i : Instruction) : M unit :=
  on_mem (fun h => Ok (store_inst r i h)).

(** [&ir.XInst{...}]: the new object enters the store. *)
Definition new_inst (i : Instruction) : M inst_ref :=
  h ← get_mem;
  let r := new_ref (insts h) in
  _ ← put_mem (store_inst r i h);
  mret r.

(** *** Insertion point and names *)

(** [CreateModule]. *)
Definition CreateModule (name : string) : M module_ref :=
  h ← get_mem;
  let '(r, h') := NewModule name h in
  _ ← put_mem h';
  _ ← mod_bld (set_module (Some r));
  mret r.

(** [SetInsertPoint]. *)
Definition SetInsertPoint (block : option block_ref) : M unit :=
  _ ← mod_bld (set_currentBlock block);
  r ← lift (deref block);
  blk ← get_block r;
  _ ← mod_bld (set_currentFunc (Block_Parent blk));
  mod_bld (set_insertPoint (-1)).

(** The loop of [SetInsertPointBefore]: the index of the first entry equal
    to [inst], counting from [i]. *)
Fixpoint find_inst (inst : inst_ref) (l : list inst_ref) (i : Z) : option Z :=
  match l with
  | [] => None
  | x :: rest =>
      if decide (x = inst) then Some i else find_inst inst rest (i + 1)
  end.

(** [SetInsertPointBefore]. *)
Definition SetInsertPointBefore (inst : option inst_ref) : M unit :=
  r ← lift (deref inst);
  i ← get_inst r;
  _ ← mod_bld (set_currentBlock (Parent_ (Base i)));
  cb ← lift (deref (Parent_ (Base i)));
  blk ← get_block cb;
  match find_inst r (Instructions blk) 0 with
  | Some k => mod_bld (set_insertPoint k)
  | None => mret tt
  end.

(** [generateName]. *)
Definition generateName : M string :=
  b ← get_bld;
  let name := pretty (nameCounter b) in
  _ ← mod_bld (set_nameCounter (wrap_int (nameCounter b + 1)));
  mret name.

(** [insert]: in positional mode the slice operations fault when the
    insertion point lies beyond the end of the block. *)
Definition insert (inst : inst_ref) : M unit :=
  b ← get_bld;
  match currentBlock b with
  | None => throw NoInsertionBlock
  | Some cb =>
      if Z_lt_dec (insertPoint b) 0 then on_mem (AddInstruction cb inst)
      else
        blk ← get_block cb;
        let insts := Instructions blk in
        let k := Z.to_nat (insertPoint b) in
        if Nat.ltb (length insts) k then throw IndexOutOfRange
        else
          let newInsts := take k insts ++ [inst] ++ drop k insts in
          _ ← put_block cb (set_Instructions newInsts blk);
          _ ← on_mem (Inst_SetParent inst (Some cb));
          mod_bld (set_insertPoint (wrap_int (insertPoint b + 1)))
  end.

(** [CreateFunction]. *)
Definition CreateFunction (name : string) (retType : option Ty)
  (params : list (option Ty)) (variadic : bool) : M func_ref :=
  let fnType := types.NewFunction retType params variadic in
  h ← get_mem;
  '(fn, h') ← lift (ir.NewFunction name (Some fnType) h);
  _ ← put_mem h';
  b ← get_bld;
  _ ← match module b with
      | Some m => on_mem (AddFunction m (Some fn))
      | None => mret tt
      end;
  _ ← mod_bld (set_currentFunc (Some fn));
  mret fn.

(** [CreateBlock]. *)
Definition CreateBlock (name : string) : M block_ref :=
  h ← get_mem;
  let '(block, h') := NewBasicBlock name h in
  _ ← put_mem h';
  b ← get_bld;
  _ ← match currentFunc b with
      | Some f => on_mem (AddBlock f (Some block))
      | None => mret tt
      end;
  mret block.

(** *** Building an instruction object before it is inserted *)

(** [&ir.XInst{...}] with the embedded base at its zero value. *)
Definition zero (st : InstStruct) : Instruction :=
  mkInstruction BaseInstruction_zero st.

Definition on_base (f : BaseInstruction -> BaseInstruction) (i : Instruction)
  : Instruction :=
  mkInstruction (f (Base i)) (Struct i).

Definition setOperand (idx : Z) (v : option Value) (i : Instruction)
  : outcome Instruction :=
  b ← SetOperand idx v (Base i); Ok (mkInstruction b (Struct i)).

(** [for i, arg := range args { inst.SetOperand(i, arg) }], from index [k]. *)
Fixpoint setOperands (k : Z) (args : list (option Value)) (i : Instruction)
  : outcome Instruction :=
  match args with
  | [] => Ok i
  | a :: rest => i' ← setOperand k a i; setOperands (k + 1) rest i'
  end.

(** [if name == "" { name = b.generateName() }]. *)
Definition name_or_generate (name : string) : M string :=
  if String.eqb name "" then generateName else mret name.

(** [x.Successors = append(x.Successors, targets...)]. *)
Definition append_Successors (x : block_ref) (targets : list block_ref) : M unit :=
  blk ← get_block x;
  put_block x (set_Successors (Successors blk ++ targets) blk).

(** [x.Predecessors = append(x.Predecessors, src)]. *)
Definition append_Predecessors (x : block_ref) (src : block_ref) : M unit :=
  blk ← get_block x;
  put_block x (set_Predecessors (Predecessors blk ++ [src]) blk).

(** [b.currentBlock] after [insert] has returned. *)
Definition current : M block_ref :=
  b ← get_bld; lift (deref (currentBlock b)).

(** *** Terminator instructions *)

Definition CreateRet (v : option Value) : M inst_ref :=
  let inst := on_base (set_Op OpRet) (zero RetInst) in
  inst ← lift (match v with
               | Some _ => setOperand 0 v inst
               | None => Ok inst
               end);
  r ← new_inst inst;
  _ ← insert r;
  mret r.

Definition CreateRetVoid : M inst_ref :=
  r ← new_inst (on_base (set_Op OpRet) (zero RetInst));
  _ ← insert r;
  mret r.

(** [CreateBr].  The successor and predecessor lists hold block handles; a
    nil target, which Go appends to [Successors] before it faults on
    [target.Predecessors], faults here before the append. *)
Definition CreateBr (target : option block_ref) : M inst_ref :=
  r ← new_inst (on_base (set_Op OpBr) (zero (BrInst target)));
  _ ← insert r;
  cb ← current;
  t ← lift (deref target);
  _ ← append_Successors cb [t];
  _ ← append_Predecessors t cb;
  mret r.

Definition CreateCondBr (cond : option Value)
  (trueBlock falseBlock : option block_ref) : M inst_ref :=
  r ← new_inst (on_base (set_Op OpCondBr)
                  (zero (CondBrInst cond trueBlock falseBlock)));
  _ ← insert r;
  cb ← current;
  t ← lift (deref trueBlock);
  f ← lift (deref falseBlock);
  _ ← append_Successors cb [t; f];
  _ ← append_Predecessors t cb;
  _ ← append_Predecessors f cb;
  mret r.

(** [CreateSwitch]; [make] with a negative capacity faults (a capacity
    beyond the address space is not modelled). *)
Definition CreateSwitch (cond : option Value) (defaultBlock : option block_ref)
  (numCases : Z) : M inst_ref :=
  _ ← (if Z_lt_dec numCases 0 then throw MakeSliceCap else mret tt);
  r ← new_inst (on_base (set_Op OpSwitch)
                  (zero (SwitchInst cond defaultBlock [])));
  _ ← insert r;
  cb ← current;
  d ← lift (deref defaultBlock);
  _ ← append_Successors cb [d];
  _ ← append_Predecessors d cb;
  mret r.

(** [sw.Cases = append(sw.Cases, c)] on the object behind a [*SwitchInst]. *)
Definition append_Case (c : SwitchCase) (i : Instruction) : outcome Instruction :=
  match Struct i with
  | SwitchInst cond def cases =>
      Ok (mkInstruction (Base i) (SwitchInst cond def (cases ++ [c])))
  | _ => Invalid
  end.

(** [AddCase]. *)
Definition AddCase (sw : option inst_ref) (val : option (BaseValue * Z))
  (block : option block_ref) : M unit :=
  r ← lift (deref sw);
  i ← get_inst r;
  i' ← lift (append_Case (mkSwitchCase val block) i);
  _ ← put_inst r i';
  match Parent_ (Base i') with
  | Some parent =>
      t ← lift (deref block);
      _ ← append_Successors parent [t];
      append_Predecessors t parent
  | None => mret tt
  end.

Definition CreateUnreachable : M inst_ref :=
  r ← new_inst (on_base (set_Op OpUnreachable) (zero UnreachableInst));
  _ ← insert r;
  mret r.

(** *** Binary operations *)

Definition createBinaryOp (op : Opcode) (lhs rhs : option Value)
  (name : string) : M inst_ref :=
  name ← name_or_generate name;
  let inst := on_base (SetName name) (on_base (set_Op op)
                (zero (BinaryInst false false false))) in
  inst ← lift (setOperand 0 lhs inst);
  inst ← lift (setOperand 1 rhs inst);
  ty ← read (fun h => Value_Type h lhs);
  r ← new_inst (on_base (SetType ty) inst);
  _ ← insert r;
  mret r.

(** Field assignments on a [*BinaryInst] that has been returned. *)
Definition set_binary_flags (f : bool * bool * bool -> bool * bool * bool)
  (r : inst_ref) : M unit :=
  i ← get_inst r;
  match Struct i with
  | BinaryInst nsw nuw exact =>
      let '(nsw', nuw', exact') := f (nsw, nuw, exact) in
      put_inst r (mkInstruction (Base i) (BinaryInst nsw' nuw' exact'))
  | _ => lift Invalid
  end.

Definition set_NoSignedWrap := set_binary_flags (fun '(_, nuw, ex) => (true, nuw, ex)).
Definition set_NoUnsignedWrap := set_binary_flags (fun '(nsw, _, ex) => (nsw, true, ex)).
Definition set_Exact := set_binary_flags (fun '(nsw, nuw, _) => (nsw, nuw, true)).

Definition CreateAdd := createBinaryOp OpAdd.
Definition CreateNSWAdd (lhs rhs : option Value) (name : string) : M inst_ref :=
  r ← createBinaryOp OpAdd lhs rhs name; _ ← set_NoSignedWrap r; mret r.
Definition CreateNUWAdd (lhs rhs : option Value) (name : string) : M inst_ref :=
  r ← createBinaryOp OpAdd lhs rhs name; _ ← set_NoUnsignedWrap r; mret r.
Definition CreateSub := createBinaryOp OpSub.
Definition CreateNSWSub (lhs rhs : option Value) (name : string) : M inst_ref :=
  r ← createBinaryOp OpSub lhs rhs name; _ ← set_NoSignedWrap r; mret r.
Definition CreateMul := createBinaryOp OpMul.
Definition CreateNSWMul (lhs rhs : option Value) (name : string) : M inst_ref :=
  r ← createBinaryOp OpMul lhs rhs name; _ ← set_NoSignedWrap r; mret r.
Definition CreateUDiv := createBinaryOp OpUDiv.
Definition CreateExactUDiv (lhs rhs : option Value) (name : string) : M inst_ref :=
  r ← createBinaryOp OpUDiv lhs rhs name; _ ← set_Exact r; mret r.
Definition CreateSDiv := createBinaryOp OpSDiv.
Definition CreateExactSDiv (lhs rhs : option Value) (name : string) : M inst_ref :=
  r ← createBinaryOp OpSDiv lhs rhs name; _ ← set_Exact r; mret r.
Definition CreateURem := createBinaryOp OpURem.
Definition CreateSRem := createBinaryOp OpSRem.
Definition CreateFAdd := createBinaryOp OpFAdd.
Definition CreateFSub := createBinaryOp OpFSub.
Definition CreateFMul := createBinaryOp OpFMul.
Definition CreateFDiv := createBinaryOp OpFDiv.
Definition CreateFRem := createBinaryOp OpFRem.
Definition CreateShl := createBinaryOp OpShl.
Definition CreateLShr := createBinaryOp OpLShr.
Definition CreateAShr := createBinaryOp OpAShr.
Definition CreateAnd := createBinaryOp OpAnd.
Definition CreateOr := createBinaryOp OpOr.
Definition CreateXor := createBinaryOp OpXor.

(** *** Constant creation *)

Definition ConstInt (typ : Ty) (val : Z) : Value :=
  ConstantInt (mkBaseValue "" (Some typ)) val.
Definition ConstNull (ptrType : Ty) : Value :=
  ConstantNull (mkBaseValue "" (Some ptrType)).
Definition ConstUndef (typ : option Ty) : Value :=
  ConstantUndef (mkBaseValue "" typ).
Definition ConstZero (typ : option Ty) : Value :=
  ConstantZero (mkBaseValue "" typ).
Definition True_ : Value := ConstInt I1 1.
Definition False_ : Value := ConstInt I1 0.

(** *** Memory operations *)

Definition CreateAlloca (typ : option Ty) (name : string) : M inst_ref :=
  name ← name_or_generate name;
  let inst := on_base (set_Op OpAlloca) (zero (AllocaInst typ None 0)) in
  let inst := on_base (SetType (Some (NewPointer typ))) inst in
  r ← new_inst (on_base (SetName name) inst);
  _ ← insert r;
  mret r.

Definition CreateAllocaWithCount (typ : option Ty) (count : option Value)
  (name : string) : M inst_ref :=
  name ← name_or_generate name;
  let inst := on_base (set_Op OpAlloca) (zero (AllocaInst typ count 0)) in
  let inst := on_base (SetType (Some (NewPointer typ))) inst in
  r ← new_inst (on_base (SetName name) inst);
  _ ← insert r;
  mret r.

Definition CreateLoad (typ : option Ty) (ptr : option Value) (name : string)
  : M inst_ref :=
  name ← name_or_generate name;
  let inst := on_base (set_Op OpLoad) (zero (LoadInst false 0)) in
  let inst := on_base (SetType typ) (on_base (SetName name) inst) in
  inst ← lift (setOperand 0 ptr inst);
  r ← new_inst inst;
  _ ← insert r;
  mret r.

(** Field assignments on a [*LoadInst] or [*StoreInst] that has been
    returned. *)
Definition set_Volatile (r : inst_ref) : M unit :=
  i ← get_inst r;
  match Struct i with
  | LoadInst _ al => put_inst r (mkInstruction (Base i) (LoadInst true al))
  | StoreInst _ al => put_inst r (mkInstruction (Base i) (StoreInst true al))
  | _ => lift Invalid
  end.
Definition set_Alignment (align : Z) (r : inst_ref) : M unit :=
  i ← get_inst r;
  match Struct i with
  | LoadInst vol _ => put_inst r (mkInstruction (Base i) (LoadInst vol align))
  | StoreInst vol _ => put_inst r (mkInstruction (Base i) (StoreInst vol align))
  | _ => lift Invalid
  end.

Definition CreateVolatileLoad (typ : option Ty) (ptr : option Value)
  (name : string) : M inst_ref :=
  r ← CreateLoad typ ptr name; _ ← set_Volatile r; mret r.

Definition CreateAlignedLoad (typ : option Ty) (ptr : option Value)
  (align : Z) (name : string) : M inst_ref :=
  r ← CreateLoad typ ptr name; _ ← set_Alignment align r; mret r.

Definition CreateStore (val ptr : option Value) : M inst_ref :=
  let inst := on_base (set_Op OpStore) (zero (StoreInst false 0)) in
  inst ← lift (setOperand 0 val inst);
  inst ← lift (setOperand 1 ptr inst);
  r ← new_inst inst;
  _ ← insert r;
  mret r.

Definition CreateVolatileStore (val ptr : option Value) : M inst_ref :=
  r ← CreateStore val ptr; _ ← set_Volatile r; mret r.

Definition CreateAlignedStore (val ptr : option Value) (align : Z)
  : M inst_ref :=
  r ← CreateStore val ptr; _ ← set_Alignment align r; mret r.

Definition CreateGEP (pointeeType : option Ty) (ptr : option Value)
  (indices : list (option Value)) (name : string) : M inst_ref :=
  name ← name_or_generate name;
  let operands := ptr :: indices in
  let inst := on_base (set_Op OpGetElementPtr)
                (zero (GetElementPtrInst pointeeType false)) in
  let inst := on_base (SetName name) inst in
  (* Simplified return type calculation *)
  let inst := on_base (SetType (Some (NewPointer pointeeType))) inst in
  inst ← lift (setOperands 0 operands inst);
  r ← new_inst inst;
  _ ← insert r;
  mret r.

Definition set_InBounds (r : inst_ref) : M unit :=
  i ← get_inst r;
  match Struct i with
  | GetElementPtrInst t _ =>
      put_inst r (mkInstruction (Base i) (GetElementPtrInst t true))
  | _ => lift Invalid
  end.

Definition CreateInBoundsGEP (pointeeType : option Ty) (ptr : option Value)
  (indices : list (option Value)) (name : string) : M inst_ref :=
  r ← CreateGEP pointeeType ptr indices name; _ ← set_InBounds r; mret r.

Definition CreateStructGEP (structType : option Ty) (ptr : option Value)
  (idx : Z) (name : string) : M inst_ref :=
  let zero := ConstInt I32 0 in
  let idxVal := ConstInt I32 idx in
  CreateGEP structType ptr [Some zero; Some idxVal] name.

(** *** Cast operations *)

Definition createCast (op : Opcode) (v : option Value) (destTy : option Ty)
  (name : string) : M inst_ref :=
  name ← name_or_generate name;
  let inst := on_base (set_Op op) (zero (CastInst destTy)) in
  let inst := on_base (SetType destTy) (on_base (SetName name) inst) in
  inst ← lift (setOperand 0 v inst);
  r ← new_inst inst;
  _ ← insert r;
  mret r.

Definition CreateTrunc := createCast OpTrunc.
Definition CreateZExt := createCast OpZExt.
Definition CreateSExt := createCast OpSExt.
Definition CreateFPTrunc := createCast OpFPTrunc.
Definition CreateFPExt := createCast OpFPExt.
Definition CreateFPToUI := createCast OpFPToUI.
Definition CreateFPToSI := createCast OpFPToSI.
Definition CreateUIToFP := createCast OpUIToFP.
Definition CreateSIToFP := createCast OpSIToFP.
Definition CreatePtrToInt := createCast OpPtrToInt.
Definition CreateIntToPtr := createCast OpIntToPtr.
Definition CreateBitCast := createCast OpBitcast.

(** *** Comparison operations *)

Definition CreateICmp (pred : ICmpPredicate) (lhs rhs : option Value)
  (name : string) : M inst_ref :=
  name ← name_or_generate name;
  let inst := on_base (set_Op OpICmp) (zero (ICmpInst pred)) in
  let inst := on_base (SetType (Some I1)) (on_base (SetName name) inst) in
  inst ← lift (setOperand 0 lhs inst);
  inst ← lift (setOperand 1 rhs inst);
  r ← new_inst inst;
  _ ← insert r;
  mret r.

Definition CreateFCmp (pred : FCmpPredicate) (lhs rhs : option Value)
  (name : string) : M inst_ref :=
  name ← name_or_generate name;
  let inst := on_base (set_Op OpFCmp) (zero (FCmpInst pred)) in
  let inst := on_base (SetType (Some I1)) (on_base (SetName name) inst) in
  inst ← lift (setOperand 0 lhs inst);
  inst ← lift (setOperand 1 rhs inst);
  r ← new_inst inst;
  _ ← insert r;
  mret r.

Definition CreateICmpEQ := CreateICmp ICmpEQ.
Definition CreateICmpNE := CreateICmp ICmpNE.
Definition CreateICmpSLT := CreateICmp ICmpSLT.
Definition CreateICmpSLE := CreateICmp ICmpSLE.
Definition CreateICmpSGT := CreateICmp ICmpSGT.
Definition CreateICmpSGE := CreateICmp ICmpSGE.
Definition CreateICmpULT := CreateICmp ICmpULT.
Definition CreateICmpULE := CreateICmp ICmpULE.
Definition CreateICmpUGT := CreateICmp ICmpUGT.
Definition CreateICmpUGE := CreateICmp ICmpUGE.

(** *** Other operations *)

Definition CreatePhi (typ : option Ty) (name : string) : M inst_ref :=
  name ← name_or_generate name;
  let inst := on_base (set_Op OpPhi) (zero (PhiInst [])) in
  r ← new_inst (on_base (SetType typ) (on_base (SetName name) inst));
  _ ← insert r;
  mret r.

Definition CreateSelect (cond trueVal falseVal : option Value) (name : string)
  : M inst_ref :=
  name ← name_or_generate name;
  let inst := on_base (set_Op OpSelect) (zero SelectInst) in
  let inst := on_base (SetName name) inst in
  ty ← read (fun h => Value_Type h trueVal);
  let inst := on_base (SetType ty) inst in
  inst ← lift (setOperand 0 cond inst);
  inst ← lift (setOperand 1 trueVal inst);
  inst ← lift (setOperand 2 falseVal inst);
  r ← new_inst inst;
  _ ← insert r;
  mret r.

(** [fn.FuncType.ReturnType] through a [*ir.Function]. *)
Definition ReturnType_of (fn : option func_ref) : M (option Ty) :=
  f ← lift (deref fn);
  fobj ← get_func f;
  ft ← lift (deref (FuncType fobj));
  '(ret, _, _) ← lift (as_FunctionType ft);
  mret ret.

Definition CreateCall (fn : option func_ref) (args : list (option Value))
  (name : string) : M inst_ref :=
  name ← (if String.eqb name "" then
            ret ← ReturnType_of fn;
            k ← lift (Kind_of ret);
            if negb (bool_decide (k = VoidKind)) then generateName
            else mret name
          else mret name);
  let inst := on_base (set_Op OpCall) (zero (CallInst fn "" false)) in
  let inst := on_base (SetName name) inst in
  ret ← ReturnType_of fn;
  let inst := on_base (SetType ret) inst in
  inst ← lift (setOperands 0 args inst);
  r ← new_inst inst;
  _ ← insert r;
  mret r.

Definition CreateCallByName (name : string) (retType : option Ty)
  (args : list (option Value)) (resultName : string) : M inst_ref :=
  resultName ← (if String.eqb resultName "" then
                  k ← lift (Kind_of retType);
                  if negb (bool_decide (k = VoidKind)) then generateName
                  else mret resultName
                else mret resultName);
  let inst := on_base (set_Op OpCall) (zero (CallInst None name false)) in
  let inst := on_base (SetType retType) (on_base (SetName resultName) inst) in
  inst ← lift (setOperands 0 args inst);
  r ← new_inst inst;
  _ ← insert r;
  mret r.

Definition CreateExtractValue (agg : option Value) (indices : list Z)
  (name : string) : M inst_ref :=
  name ← name_or_generate name;
  let inst := on_base (set_Op OpExtractValue) (zero (ExtractValueInst indices)) in
  let inst := on_base (SetName name) inst in
  ty ← read (fun h => Value_Type h agg);       (* Approximation *)
  let inst := on_base (SetType ty) inst in
  inst ← lift (setOperand 0 agg inst);
  r ← new_inst inst;
  _ ← insert r;
  mret r.

Definition CreateInsertValue (agg val : option Value) (indices : list Z)
  (name : string) : M inst_ref :=
  name ← name_or_generate name;
  let inst := on_base (set_Op OpInsertValue) (zero (InsertValueInst indices)) in
  let inst := on_base (SetName name) inst in
  ty ← read (fun h => Value_Type h agg);
  let inst := on_base (SetType ty) inst in
  inst ← lift (setOperand 0 agg inst);
  inst ← lift (setOperand 1 val inst);
  r ← new_inst inst;
  _ ← insert r;
  mret r.

(** *** The instruction-construction operations as one family

    One constructor per exported [Create...] method that builds an
    instruction, with the arguments of the call. *)

Inductive binary_method :=
  | MAdd | MNSWAdd | MNUWAdd | MSub | MNSWSub | MMul | MNSWMul | MUDiv
  | MExactUDiv | MSDiv | MExactSDiv | MURem | MSRem | MFAdd | MFSub | MFMul
  | MFDiv | MFRem | MShl | MLShr | MAShr | MAnd | MOr | MXor.

Definition binary_call (m : binary_method)
  : option Value -> option Value -> string -> M inst_ref :=
  match m with
  | MAdd => CreateAdd | MNSWAdd => CreateNSWAdd | MNUWAdd => CreateNUWAdd
  | MSub => CreateSub | MNSWSub => CreateNSWSub
  | MMul => CreateMul | MNSWMul => CreateNSWMul
  | MUDiv => CreateUDiv | MExactUDiv => CreateExactUDiv
  | MSDiv => CreateSDiv | MExactSDiv => CreateExactSDiv
  | MURem => CreateURem | MSRem => CreateSRem
  | MFAdd => CreateFAdd | MFSub => CreateFSub | MFMul => CreateFMul
  | MFDiv => CreateFDiv | MFRem => CreateFRem
  | MShl => CreateShl | MLShr => CreateLShr | MAShr => CreateAShr
  | MAnd => CreateAnd | MOr => CreateOr | MXor => CreateXor
  end.

Inductive cast_method :=
  | MTrunc | MZExt | MSExt | MFPTrunc | MFPExt | MFPToUI | MFPToSI
  | MUIToFP | MSIToFP | MPtrToInt | MIntToPtr | MBitCast.

Definition cast_call (m : cast_method)
  : option Value -> option Ty -> string -> M inst_ref :=
  match m with
  | MTrunc => CreateTrunc | MZExt => CreateZExt | MSExt => CreateSExt
  | MFPTrunc => CreateFPTrunc | MFPExt => CreateFPExt
  | MFPToUI => CreateFPToUI | MFPToSI => CreateFPToSI
  | MUIToFP => CreateUIToFP | MSIToFP => CreateSIToFP
  | MPtrToInt => CreatePtrToInt | MIntToPtr => CreateIntToPtr
  | MBitCast => CreateBitCast
  end.

Inductive icmp_method :=
  | MICmpEQ | MICmpNE | MICmpSLT | MICmpSLE | MICmpSGT | MICmpSGE
  | MICmpULT | MICmpULE | MICmpUGT | MICmpUGE.

Definition icmp_call (m : icmp_method)
  : option Value -> option Value -> string -> M inst_ref :=
  match m with
  | MICmpEQ => CreateICmpEQ | MICmpNE => CreateICmpNE
  | MICmpSLT => CreateICmpSLT | MICmpSLE => CreateICmpSLE
  | MICmpSGT => CreateICmpSGT | MICmpSGE => CreateICmpSGE
  | MICmpULT => CreateICmpULT | MICmpULE => CreateICmpULE
  | MICmpUGT => CreateICmpUGT | MICmpUGE => CreateICmpUGE
  end.

Inductive Create :=
  | Ret (v : option Value)
  | RetVoid
  | Br (target : option block_ref)
  | CondBr (cond : option Value) (trueBlock falseBlock : option block_ref)
  | Switch (cond : option Value) (defaultBlock : option block_ref) (numCases : Z)
  | Unreachable
  | Binary (m : binary_method) (lhs rhs : option Value) (name : string)
  | Alloca (typ : option Ty) (name : string)
  | AllocaWithCount (typ : option Ty) (count : option Value) (name : string)
  | Load (typ : option Ty) (ptr : option Value) (name : string)
  | VolatileLoad (typ : option Ty) (ptr : option Value) (name : string)
  | AlignedLoad (typ : option Ty) (ptr : option Value) (align : Z) (name : string)
  | Store (val ptr : option Value)
  | VolatileStore (val ptr : option Value)
  | AlignedStore (val ptr : option Value) (align : Z)
  | GEP (pointeeType : option Ty) (ptr : option Value)
        (indices : list (option Value)) (name : string)
  | InBoundsGEP (pointeeType : option Ty) (ptr : option Value)
        (indices : list (option Value)) (name : string)
  | StructGEP (structType : option Ty) (ptr : option Value) (idx : Z)
        (name : string)
  | Cast (m : cast_method) (v : option Value) (destTy : option Ty) (name : string)
  | ICmp (pred : ICmpPredicate) (lhs rhs : option Value) (name : string)
  | FCmp (pred : FCmpPredicate) (lhs rhs : option Value) (name : string)
  | ICmpBy (m : icmp_method) (lhs rhs : option Value) (name : string)
  | Phi (typ : option Ty) (name : string)
  | Select (cond trueVal falseVal : option Value) (name : string)
  | Call (fn : option func_ref) (args : list (option Value)) (name : string)
  | CallByName (name : string) (retType : option Ty)
        (args : list (option Value)) (resultName : string)
  | ExtractValue (agg : option Value) (indices : list Z) (name : string)
  | InsertValue (agg val : option Value) (indices : list Z) (name : string).

Definition call (c : Create) : M inst_ref :=
  match c with
  | Ret v => CreateRet v
  | RetVoid => CreateRetVoid
  | Br t => CreateBr t
  | CondBr c t f => CreateCondBr c t f
  | Switch c d n => CreateSwitch c d n
  | Unreachable => CreateUnreachable
  | Binary m l r n => binary_call m l r n
  | Alloca t n => CreateAlloca t n
  | AllocaWithCount t c n => CreateAllocaWithCount t c n
  | Load t p n => CreateLoad t p n
  | VolatileLoad t p n => CreateVolatileLoad t p n
  | AlignedLoad t p a n => CreateAlignedLoad t p a n
  | Store v p => CreateStore v p
  | VolatileStore v p => CreateVolatileStore v p
  | AlignedStore v p a => CreateAlignedStore v p a
  | GEP t p ix n => CreateGEP t p ix n
  | InBoundsGEP t p ix n => CreateInBoundsGEP t p ix n
  | StructGEP t p ix n => CreateStructGEP t p ix n
  | Cast m v t n => cast_call m v t n
  | ICmp p l r n => CreateICmp p l r n
  | FCmp p l r n => CreateFCmp p l r n
  | ICmpBy m l r n => icmp_call m l r n
  | Phi t n => CreatePhi t n
  | Select c t f n => CreateSelect c t f n
  | Call f a n => CreateCall f a n
  | CallByName c t a n => CreateCallByName c t a n
  | ExtractValue a ix n => CreateExtractValue a ix n
  | InsertValue a v ix n => CreateInsertValue a v ix n
  end.

(** *** Declarations, globals and blocks of a given function *)

(** [DeclareFunction]. *)
Definition DeclareFunction (name : string) (retType : option Ty)
  (params : list (option Ty)) (variadic : bool) : M func_ref :=
  let fnType := types.NewFunction retType params variadic in
  h ← get_mem;
  '(fn, h') ← lift (ir.NewFunction name (Some fnType) h);
  _ ← put_mem h';
  f ← get_func fn;
  _ ← on_mem (fun h => Ok (store_func fn (set_Func_Linkage ExternalLinkage f) h));
  b ← get_bld;
  _ ← match module b with
      | Some m => on_mem (AddFunction m (Some fn))
      | None => mret tt
      end;
  mret fn.

(** [CreateGlobalVariable]. *)
Definition CreateGlobalVariable (name : string) (typ : option Ty)
  (initializer : option Value) : M Value :=
  let g := Global (set_ValName name
                     (set_ValType (Some (NewPointer typ)) BaseValue_zero))
                  initializer false ExternalLinkage 0 in
  b ← get_bld;
  _ ← match module b with
      | Some m => on_mem (AddGlobal m g)
      | None => mret tt
      end;
  mret g.

(** [CreateGlobalConstant]: the type is read off the initializer. *)
Definition CreateGlobalConstant (name : string) (initializer : option Value)
  : M Value :=
  t ← read (fun h => Value_Type h initializer);
  let g := Global (set_ValType (Some (NewPointer t))
                     (set_ValName name BaseValue_zero))
                  initializer true ExternalLinkage 0 in
  b ← get_bld;
  _ ← match module b with
      | Some m => on_mem (AddGlobal m g)
      | None => mret tt
      end;
  mret g.

(** [CreateBlockInFunction]. *)
Definition CreateBlockInFunction (name : string) (fn : option func_ref)
  : M block_ref :=
  h ← get_mem;
  let '(block, h') := NewBasicBlock name h in
  _ ← put_mem h';
  f ← lift (deref fn);
  _ ← on_mem (AddBlock f (Some block));
  mret block.

End builder.




(** * Scenarios

    Small programs against the builder, used as concrete instances of the
    properties below. *)

Module scenarios.
Import types ir builder.

(** The state a program ends in (the initial state if it does not
    return). *)
Definition state_of {A} (m : M A) (s : State) : State :=
  match m s with
  | Ok (_, s') => s'
  | _ => s
  end.

(** A builder fresh from [New], on an empty store. *)
Definition fresh : State := mkState New empty_heap.

(** A function [main] with one block [entry] that holds [ret i32 0]; the
    builder appends to [entry].  Returns the block and the [ret]. *)
Definition entry_with_ret : M (block_ref * inst_ref) :=
  _ ← CreateFunction "main" (Some I32) [] false;
  e ← CreateBlock "entry";
  _ ← SetInsertPoint (Some e);
  x ← CreateRet (Some (ConstInt I32 0));
  mret (e, x).

(** A function [main] with an empty block [entry] the builder appends
    to. *)
Definition empty_entry : M block_ref :=
  _ ← CreateFunction "main" (Some I32) [] false;
  e ← CreateBlock "entry";
  _ ← SetInsertPoint (Some e);
  mret e.

(** A void function [f] without parameters, then [main] with an empty
    block [entry] the builder appends to.  Returns [f]. *)
Definition void_f_and_entry : M func_ref :=
  f ← CreateFunction "f" (Some Void) [] false;
  _ ← CreateFunction "main" (Some I32) [] false;
  e ← CreateBlock "entry";
  _ ← SetInsertPoint (Some e);
  mret f.

(** A function with the blocks [entry], [merge] and [other]; [entry] holds
    a switch on the constant 7 with default [other] and no case yet.
    Returns [entry], [merge] and the switch. *)
Definition switch_in_entry : M (block_ref * block_ref * inst_ref) :=
  _ ← CreateFunction "main" (Some I32) [] false;
  e ← CreateBlock "entry";
  m ← CreateBlock "merge";
  o ← CreateBlock "other";
  _ ← SetInsertPoint (Some e);
  sw ← CreateSwitch (Some (ConstInt I32 7)) (Some o) 2;
  mret (e, m, sw).


(** The store of [switch_in_entry] with one more switch instruction that
    has not been inserted into any block (handle 1). *)
Definition with_loose_switch : State :=
  state_of (new_inst (on_base (set_Op OpSwitch)
                        (zero (SwitchInst (Some (ConstInt I32 7)) None []))))
    (state_of switch_in_entry fresh).



(** A void function [log] with two parameters and a function [next] from
    [i32] to [i32], then [main] with an empty block [entry] the builder
    appends to.  Returns the two functions (handles 0 and 1). *)
Definition callees_and_entry : M (func_ref * func_ref) :=
  lg ← CreateFunction "log" (Some Void) [Some I32; Some I1] false;
  nx ← CreateFunction "next" (Some I32) [Some I32] false;
  _ ← CreateFunction "main" (Some I32) [] false;
  e ← CreateBlock "entry";
  _ ← SetInsertPoint (Some e);
  mret (lg, nx).

End scenarios.

(** * Specification vocabulary *)

Module spec.
Import types ir builder.

(** What a call establishes: [Q] on the result and final state when it
    returns, [E] on the panic when it panics. *)
Definition wp {A} (m : M A) (s : State) (Q : A -> State -> Prop)
  (E : panic -> Prop) : Prop :=
  match m s with
  | Ok (a, s') => Q a s'
  | Panic p => E p
  | Invalid => Logic.True
  end.

(** An intermediate result that is never the builder's own panic. *)
Definition quiet {A} (o : outcome A) : Prop := o <> Panic NoInsertionBlock.

(** The cursor and the instruction sequences of all blocks are the same in
    both states. *)
Definition code_frame (s s' : State) : Prop :=
  currentBlock (bld s') = currentBlock (bld s) /\
  insertPoint (bld s') = insertPoint (bld s) /\
  forall b, Instructions_of (mem s') b = Instructions_of (mem s) b.

(** Between [s] and [s'] the instruction [r] has been inserted at the
    cursor of [s]: at the end of the current block in append mode, at the
    cursor index in positional mode, where the cursor then moves on by
    one.  No other block's sequence has changed. *)
Definition inserted (r : inst_ref) (s s' : State) : Prop :=
  exists cb,
    currentBlock (bld s) = Some cb /\
    currentBlock (bld s') = Some cb /\
    (forall b, b <> cb ->
       Instructions_of (mem s') b = Instructions_of (mem s) b) /\
    let l := Instructions_of (mem s) cb in
    let k := insertPoint (bld s) in
    (k < 0 /\ insertPoint (bld s') = k /\
     Instructions_of (mem s') cb = l ++ [r]) \/
    (0 <= k <= Z.of_nat (length l) /\
     insertPoint (bld s') = wrap_int (k + 1) /\
     Instructions_of (mem s') cb
     = take (Z.to_nat k) l ++ [r] ++ drop (Z.to_nat k) l).

(** A computation that leaves cursor and instruction sequences alone and
    never raises the builder's own panic. *)
Definition framed {A} (m : M A) : Prop :=
  forall s, wp m s (fun _ s' => code_frame s s')
                   (fun p => p <> NoInsertionBlock).

(** The same, and the result is [r]. *)
Definition framed_ret (r : inst_ref) (m : M inst_ref) : Prop :=
  forall s, wp m s (fun a s' => a = r /\ code_frame s s')
                   (fun p => p <> NoInsertionBlock).

(** A computation that inserts the instruction it returns, and raises the
    builder's own panic only when no insertion block is set. *)
Definition inserting (m : M inst_ref) : Prop :=
  forall s, wp m s (fun r s' => inserted r s s')
                   (fun p => p = NoInsertionBlock ->
                             currentBlock (bld s) = None).

(** The name under which [CallInst.String] prints the callee. *)
Definition callee_is (h : Heap) (callee : option func_ref) (cname : string)
  (calleeName : string) : Prop :=
  match callee with
  | Some f => exists fn, funcs h !! f = Some fn /\
                         ValName (Func_Base fn) = calleeName
  | None => calleeName = cname
  end.

(** The constructions that create control-flow edges out of the current
    block, with the blocks they name. *)
Inductive Edge :=
  | BrTo (target : block_ref)
  | CondBrTo (cond : option Value) (trueBlock falseBlock : block_ref)
  | SwitchTo (cond : option Value) (defaultBlock : block_ref) (numCases : Z)
  | CaseTo (sw : inst_ref) (val : option (BaseValue * Z)) (block : block_ref).

Definition targets (e : Edge) : list block_ref :=
  match e with
  | BrTo t => [t]
  | CondBrTo _ t f => [t; f]
  | SwitchTo _ d _ => [d]
  | CaseTo _ _ t => [t]
  end.

Definition issue (e : Edge) : M unit :=
  match e with
  | BrTo t => _ ← CreateBr (Some t); mret tt
  | CondBrTo c t f => _ ← CreateCondBr c (Some t) (Some f); mret tt
  | SwitchTo c d n => _ ← CreateSwitch c (Some d) n; mret tt
  | CaseTo sw v t => AddCase (Some sw) v (Some t)
  end.

Fixpoint issue_all (es : list Edge) : M unit :=
  match es with
  | [] => mret tt
  | e :: rest => _ ← issue e; issue_all rest
  end.

(** An instruction object after calls of the builder that do not rebuild
    it: the embedded base is the same, and a switch is still a switch on
    the same condition with the same default (its case list may differ). *)
Definition keeps (i i' : Instruction) : Prop :=
  Base i' = Base i /\
  forall c d cs, Struct i = SwitchInst c d cs ->
                 exists cs', Struct i' = SwitchInst c d cs'.

(** [sw] is a switch instruction whose parent block is [src]. *)
Definition switch_at (h : Heap) (src : block_ref) (sw : inst_ref) : Prop :=
  exists i c d cs,
    insts h !! sw = Some i /\ Struct i = SwitchInst c d cs /\
    Parent_ (Base i) = Some src.

(** The construction can be issued as an edge construction out of block
    [src]: the blocks it names exist, the capacity of a switch is not
    negative, and a case goes to a switch whose parent is [src]. *)
Definition well_formed (h : Heap) (src : block_ref) (e : Edge) : Prop :=
  Forall (fun t => is_Some (blocks h !! t)) (targets e) /\
  match e with
  | SwitchTo _ _ n => 0 <= n
  | CaseTo sw _ _ => switch_at h src sw
  | _ => Logic.True
  end.

(** The cursor of the builder is usable: a current block is set, it
    exists, and the insertion point is not beyond its end. *)
Definition ready (s : State) : Prop :=
  exists cb,
    currentBlock (bld s) = Some cb /\
    is_Some (blocks (mem s) !! cb) /\
    insertPoint (bld s) <= Z.of_nat (length (Instructions_of (mem s) cb)).

(** The objects of [s] are still there in [s']. *)
Definition store_kept (s s' : State) : Prop :=
  (forall x i, insts (mem s) !! x = Some i ->
     exists i', insts (mem s') !! x = Some i' /\ keeps i i') /\
  (forall b, is_Some (blocks (mem s') !! b) <-> is_Some (blocks (mem s) !! b)).

(** How often [x] occurs in [l]. *)
Definition occurrences (x : block_ref) (l : list block_ref) : nat :=
  length (filter (fun y => y = x) l).

(** Between [s] and [s'] the blocks [su] have been appended to the
    successors of [src] and [src] has been appended to the predecessors of
    each block of [pr]; builder, instructions and instruction sequences
    are the same. *)
Definition adj_step (src : block_ref) (su pr : list block_ref)
  (s s' : State) : Prop :=
  bld s' = bld s /\ insts (mem s') = insts (mem s) /\
  (forall b, is_Some (blocks (mem s') !! b) <-> is_Some (blocks (mem s) !! b)) /\
  (forall b, Instructions_of (mem s') b = Instructions_of (mem s) b) /\
  (forall b, Successors_of (mem s') b
     = Successors_of (mem s) b ++ if decide (b = src) then su else []) /\
  (forall b, Predecessors_of (mem s') b
     = Predecessors_of (mem s) b ++ replicate (occurrences b pr) src).

(** Between [s] and [s'], edges from [src] to the blocks [ts] have been
    recorded, in this order, and nothing else has changed in the adjacency
    lists. *)
Definition edge_effect (src : block_ref) (ts : list block_ref)
  (s s' : State) : Prop :=
  currentBlock (bld s') = currentBlock (bld s) /\
  store_kept s s' /\
  (forall b, Successors_of (mem s') b
     = Successors_of (mem s) b ++ if decide (b = src) then ts else []) /\
  (forall b, Predecessors_of (mem s') b
     = Predecessors_of (mem s) b ++ replicate (occurrences b ts) src).

(** The module of the builder, when one is set, is in the store. *)
Definition module_ok (s : State) : Prop :=
  match module (bld s) with
  | Some m => is_Some (modules (mem s) !! m)
  | None => Logic.True
  end.

(** The functions listed by the module behind [m] are in the store. *)
Definition functions_ok (h : Heap) (m : module_ref) : Prop :=
  exists md, modules h !! m = Some md /\
             Forall (fun f => is_Some (funcs h !! f)) (Functions md).

(** *** What a construction builds *)

(** The opcode that each construction method assigns. *)
Definition opcode_of_binary (m : binary_method) : Opcode :=
  match m with
  | MAdd | MNSWAdd | MNUWAdd => OpAdd
  | MSub | MNSWSub => OpSub
  | MMul | MNSWMul => OpMul
  | MUDiv | MExactUDiv => OpUDiv
  | MSDiv | MExactSDiv => OpSDiv
  | MURem => OpURem | MSRem => OpSRem
  | MFAdd => OpFAdd | MFSub => OpFSub | MFMul => OpFMul
  | MFDiv => OpFDiv | MFRem => OpFRem
  | MShl => OpShl | MLShr => OpLShr | MAShr => OpAShr
  | MAnd => OpAnd | MOr => OpOr | MXor => OpXor
  end.

Definition opcode_of_cast (m : cast_method) : Opcode :=
  match m with
  | MTrunc => OpTrunc | MZExt => OpZExt | MSExt => OpSExt
  | MFPTrunc => OpFPTrunc | MFPExt => OpFPExt
  | MFPToUI => OpFPToUI | MFPToSI => OpFPToSI
  | MUIToFP => OpUIToFP | MSIToFP => OpSIToFP
  | MPtrToInt => OpPtrToInt | MIntToPtr => OpIntToPtr
  | MBitCast => OpBitcast
  end.

Definition opcode_of (c : Create) : Opcode :=
  match c with
  | Ret _ | RetVoid => OpRet
  | Br _ => OpBr
  | CondBr _ _ _ => OpCondBr
  | Switch _ _ _ => OpSwitch
  | Unreachable => OpUnreachable
  | Binary m _ _ _ => opcode_of_binary m
  | Alloca _ _ | AllocaWithCount _ _ _ => OpAlloca
  | Load _ _ _ | VolatileLoad _ _ _ | AlignedLoad _ _ _ _ => OpLoad
  | Store _ _ | VolatileStore _ _ | AlignedStore _ _ _ => OpStore
  | GEP _ _ _ _ | InBoundsGEP _ _ _ _ | StructGEP _ _ _ _ => OpGetElementPtr
  | Cast m _ _ _ => opcode_of_cast m
  | ICmp _ _ _ _ | ICmpBy _ _ _ _ => OpICmp
  | FCmp _ _ _ _ => OpFCmp
  | Phi _ _ => OpPhi
  | Select _ _ _ _ => OpSelect
  | Call _ _ _ | CallByName _ _ _ _ => OpCall
  | ExtractValue _ _ _ => OpExtractValue
  | InsertValue _ _ _ _ => OpInsertValue
  end.

(** The result name that the caller asks for; the methods without a name
    parameter build instructions without a name. *)
Definition requested_name (c : Create) : option string :=
  match c with
  | Ret _ | RetVoid | Br _ | CondBr _ _ _ | Switch _ _ _ | Unreachable
  | Store _ _ | VolatileStore _ _ | AlignedStore _ _ _ => None
  | Binary _ _ _ n | Alloca _ n | AllocaWithCount _ _ n | Load _ _ n
  | VolatileLoad _ _ n | AlignedLoad _ _ _ n | GEP _ _ _ n
  | InBoundsGEP _ _ _ n | StructGEP _ _ _ n | Cast _ _ _ n | ICmp _ _ _ n
  | FCmp _ _ _ n | ICmpBy _ _ _ n | Phi _ n | Select _ _ _ n | Call _ _ n
  | CallByName _ _ _ n | ExtractValue _ _ n | InsertValue _ _ _ n => Some n
  end.

(** The two methods that generate a name only for a non-void result. *)
Definition is_call (c : Create) : bool :=
  match c with
  | Call _ _ _ | CallByName _ _ _ _ => true
  | _ => false
  end.

(** The methods whose opcode is a terminator opcode. *)
Definition terminates (c : Create) : bool :=
  match c with
  | Ret _ | RetVoid | Br _ | CondBr _ _ _ | Switch _ _ _ | Unreachable => true
  | _ => false
  end.

(** Functions, modules and the builder fields other than the cursor are
    the same in both states. *)
Definition outside_kept (s s' : State) : Prop :=
  funcs (mem s') = funcs (mem s) /\
  modules (mem s') = modules (mem s) /\
  module (bld s') = module (bld s) /\
  currentFunc (bld s') = currentFunc (bld s) /\
  nameCounter (bld s') = nameCounter (bld s).

(** Between [s] and [s'] no instruction other than [r] has changed, and
    [r] has kept its embedded base. *)
Definition settled (r : inst_ref) (s s' : State) : Prop :=
  outside_kept s s' /\
  (forall x, x <> r -> insts (mem s') !! x = insts (mem s) !! x) /\
  (forall i, insts (mem s) !! r = Some i ->
     exists i', insts (mem s') !! r = Some i' /\ Base i' = Base i).

(** Between [s] and [s'] the instruction [r] has been allocated, with
    opcode [op] and name [nm], and given the current block of [s] as
    parent; the instructions of [s] are as they were. *)
Definition produced (op : Opcode) (nm : string) (r : inst_ref)
  (s s' : State) : Prop :=
  outside_kept s s' /\
  insts (mem s) !! r = None /\
  (forall x i, insts (mem s) !! x = Some i -> insts (mem s') !! x = Some i) /\
  exists i,
    insts (mem s') !! r = Some i /\
    Parent_ (Base i) = currentBlock (bld s) /\
    Op (Base i) = op /\
    ValName (Inst_Base (Base i)) = nm.

(** A computation that does not change the state. *)
Definition pure {A} (m : M A) : Prop :=
  forall s, wp m s (fun _ s' => s' = s) (fun _ => Logic.True).

Definition stepping {A} (r : inst_ref) (m : M A) : Prop :=
  forall s, wp m s (fun _ s' => settled r s s') (fun _ => Logic.True).

Definition settling (r : inst_ref) (m : M inst_ref) : Prop :=
  forall s, wp m s (fun a s' => a = r /\ settled r s s') (fun _ => Logic.True).

Definition producing (op : Opcode) (nm : string) (m : M inst_ref) : Prop :=
  forall s, wp m s (fun r s' => produced op nm r s s') (fun _ => Logic.True).

(** What a construction method has built when it returns [r]: as
    [produced], except that the name and the name counter follow the
    requested name [req]. *)
Definition built (op : Opcode) (req : option string) (callish : bool)
  (r : inst_ref) (s s' : State) : Prop :=
  funcs (mem s') = funcs (mem s) /\
  modules (mem s') = modules (mem s) /\
  module (bld s') = module (bld s) /\
  currentFunc (bld s') = currentFunc (bld s) /\
  insts (mem s) !! r = None /\
  (forall x i, insts (mem s) !! x = Some i -> insts (mem s') !! x = Some i) /\
  exists i,
    insts (mem s') !! r = Some i /\
    Parent_ (Base i) = currentBlock (bld s) /\
    Op (Base i) = op /\
    let n := ValName (Inst_Base (Base i)) in
    let k := nameCounter (bld s) in
    let k' := nameCounter (bld s') in
    match req with
    | None => n = "" /\ k' = k
    | Some m =>
        if String.eqb m "" then
          (n = pretty k /\ k' = wrap_int (k + 1)) \/
          (callish = true /\ n = "" /\ k' = k)
        else n = m /\ k' = k
    end.

Definition building (op : Opcode) (req : option string) (callish : bool)
  (m : M inst_ref) : Prop :=
  forall s, wp m s (fun r s' => built op req callish r s s')
                   (fun _ => Logic.True).

(** A name computation: it returns the requested name and leaves the
    state alone, or, for an empty requested name, it may generate one. *)
Definition naming (n : string) (m : M string) : Prop :=
  forall s,
    wp m s
      (fun nm s' =>
         (nm = n /\ s' = s) \/
         (n = "" /\ nm = pretty (nameCounter (bld s)) /\
          s' = mkState (set_nameCounter (wrap_int (nameCounter (bld s) + 1))
                          (bld s)) (mem s)))
      (fun _ => Logic.True).

(** An operand that both copies of the instruction printer render alike:
    not nil, not one of the constants that [formatOp] inlines, and with a
    non-empty name. *)
Definition rendered_by_name (h : Heap) (v : option Value) : Prop :=
  match v with
  | None => Logic.False
  | Some (ConstantInt _ _) | Some (ConstantFloat _ _) | Some (ConstantNull _)
  | Some (ConstantUndef _) => Logic.False
  | Some _ => exists n, Value_Name h v = Ok n /\ n <> ""
  end.

(** The text of one call argument: its type, a blank, and the operand as
    [formatOp] renders it. *)
Definition arg_text (fmt_g : Z -> string) (h : Heap) (v : Value)
  (str : string) : Prop :=
  exists ty a,
    Value_Type h (Some v) = Ok ty /\ formatOp fmt_g h (Some v) = Ok a /\
    str = Sprint ty +:+ " " +:+ a.


End spec.

(** * Properties *)

Import types ir builder spec scenarios.

(** Unfolding the monadic plumbing of a builder method. *)
Ltac run_M :=
  repeat progress
    (unfold mbind, mret, M_bind, M_ret, outcome_bind, outcome_ret, lift, throw,
       get_bld, get_mem, mod_bld, put_mem, on_mem, read, get_block, get_inst,
       get_func, put_block, put_inst, new_inst, current, load_block,
       load_inst, load_func, load_module, deref;
     cbn beta iota zeta delta [bld mem fst snd]).

(** ** The type system *)

Section type_equality.

(** The field loop answers [true] exactly when every receiver field is
    present and equal to its counterpart. *)
Lemma Equal_loop_true (ts os : list (option Ty)) :
  length ts = length os ->
  Equal_loop Equal ts os = Ok true <->
  Forall2 (fun t o => exists t1, t = Some t1 /\ Equal t1 o = Ok true) ts os.
Proof.
  revert os. induction ts as [|t ts IH]; intros [|o os] Hlen;
    simpl in Hlen; try discriminate.
  - split; [constructor | reflexivity].
  - injection Hlen as Hlen. simpl. destruct t as [t1|].
    + destruct (Equal t1 o) as [[|]| |] eqn:E.
      * rewrite (IH os Hlen). split.
        -- intros HF. constructor; [eauto | exact HF].
        -- intros HF. inversion HF; subst; assumption.
      * split; [discriminate|].
        intros HF. inversion HF as [|? ? ? ? (t2 & Ht & Ht2)]; subst.
        injection Ht as <-. congruence.
      * split; [discriminate|].
        intros HF. inversion HF as [|? ? ? ? (t2 & Ht & Ht2)]; subst.
        injection Ht as <-. congruence.
      * split; [discriminate|].
        intros HF. inversion HF as [|? ? ? ? (t2 & Ht & Ht2)]; subst.
        injection Ht as <-. congruence.
    + split; [discriminate|].
      intros HF. inversion HF as [|? ? ? ? (t2 & Ht & Ht2)]; subst.
      discriminate.
Qed.

Lemma eqb_empty_false (n : string) : n <> "" -> String.eqb n "" = false.
Proof. intros H. apply String.eqb_neq. exact H. Qed.

(** C1. Two struct types that both have a non-empty name: [Equal] returns,
    and it returns true exactly when the names are identical, whatever the
    field lists and the packed flags are. *)
Theorem StructType_Equal_named (n n' : string) (fs fs' : list (option Ty))
  (p p' : bool) :
  n <> "" -> n' <> "" ->
  Equal (StructType n fs p) (Some (StructType n' fs' p'))
  = Ok (bool_decide (n = n')).
Proof.
  intros Hn Hn'. simpl.
  rewrite (eqb_empty_false n Hn), (eqb_empty_false n' Hn'). simpl.
  f_equal. case_bool_decide as Hd.
  - apply String.eqb_eq. exact Hd.
  - apply String.eqb_neq. exact Hd.
Qed.

(** C10. Two struct types of which at least one is anonymous: [Equal]
    returns true exactly when the field lists have the same length, every
    field of the receiver is equal to the field at the same position of
    the other type, and the packed flags agree. *)
Theorem StructType_Equal_structural (n n' : string)
  (fs fs' : list (option Ty)) (p p' : bool) :
  n = "" \/ n' = "" ->
  Equal (StructType n fs p) (Some (StructType n' fs' p')) = Ok true <->
  length fs = length fs' /\
  Forall2 (fun f f' => exists t, f = Some t /\ Equal t f' = Ok true) fs fs' /\
  p = p'.
Proof.
  intros Hanon. simpl.
  assert (negb (String.eqb n "") && negb (String.eqb n' "") = false) as ->.
  { destruct Hanon as [-> | ->]; simpl; [reflexivity|].
    apply andb_false_r. }
  destruct (Nat.eqb (length fs) (length fs')) eqn:Hlen; simpl.
  - apply Nat.eqb_eq in Hlen.
    pose proof (Equal_loop_true fs fs' Hlen) as Hloop.
    destruct (Equal_loop Equal fs fs') as [[|]| |] eqn:E.
    + split.
      * intros Hp. injection Hp as Hp. apply eqb_prop in Hp.
        split; [exact Hlen|]. split; [|exact Hp]. apply Hloop. reflexivity.
      * intros (_ & _ & ->). rewrite eqb_reflx. reflexivity.
    + split; [discriminate|]. intros (_ & HF & _).
      apply Hloop in HF. discriminate.
    + split; [discriminate|]. intros (_ & HF & _).
      apply Hloop in HF. discriminate.
    + split; [discriminate|]. intros (_ & HF & _).
      apply Hloop in HF. discriminate.
  - apply Nat.eqb_neq in Hlen. split; [discriminate|].
    intros (Hl & _). contradiction.
Qed.

End type_equality.

(** The scenario of C1: struct "Point" with fields [i32, i32] against
    struct "Point" with the single field [f64]. *)
Lemma StructType_Equal_named_Point :
  "Point" <> "" /\
  Equal (NewStruct "Point" [Some I32; Some I32] false)
        (Some (NewStruct "Point" [Some F64] false)) = Ok true.
Proof.
  split; [discriminate|].
  exact (StructType_Equal_named "Point" "Point" [Some I32; Some I32]
           [Some F64] false false ltac:(discriminate) ltac:(discriminate)).
Defined.

(** The scenario of C10: a named struct against an anonymous struct with
    the same fields and packedness. *)
Lemma StructType_Equal_structural_mixed :
  Equal (NewStruct "Point" [Some I32; Some F64] true)
        (Some (NewStruct "" [Some I32; Some F64] true)) = Ok true.
Proof.
  apply (proj2 (StructType_Equal_structural "Point" ""
                  [Some I32; Some F64] [Some I32; Some F64] true true
                  (or_intror eq_refl))).
  split; [reflexivity|]. split; [|reflexivity].
  repeat constructor; eexists; (split; [reflexivity|reflexivity]).
Defined.

(** ** Operand lists *)

Section operands.

(** The loop of [SetOperand] pads the list with nil up to index [idx]. *)
Lemma grow_Ops_spec (ops : list (option Value)) (idx : Z) :
  grow_Ops ops idx
  = ops ++ replicate (Z.to_nat (idx + 1 - Z.of_nat (length ops))) None.
Proof.
  funelim (grow_Ops ops idx).
  - rewrite H. rewrite length_app. simpl.
    replace (Z.to_nat (idx + 1 - Z.of_nat (length ops)))
      with (S (Z.to_nat (idx + 1 - Z.of_nat (length ops + 1)))) by lia.
    simpl. rewrite <- app_assoc. reflexivity.
  - replace (Z.to_nat (idx + 1 - Z.of_nat (length ops))) with 0%nat by lia.
    simpl. rewrite app_nil_r. reflexivity.
Qed.

Lemma SetOperand_negative (i : BaseInstruction) (idx : Z) (v : option Value) :
  idx < 0 -> SetOperand idx v i = Panic IndexOutOfRange.
Proof.
  intros H. unfold SetOperand. destruct (Z_lt_dec idx 0); [reflexivity|lia].
Qed.

(** C8. [SetOperand(idx, v)] with [idx] at or beyond the operand count
    grows the list to length [idx + 1], the new intermediate positions
    hold nil and position [idx] holds [v]; with [idx] a position of the
    list it overwrites that position; either way the other fields of the
    instruction are kept and [NumOperands] becomes the maximum of the
    previous count and [idx + 1]. *)
Theorem SetOperand_spec (i : BaseInstruction) (idx : Z) (v : option Value) :
  (NumOperands i <= idx ->
   SetOperand idx v i
   = Ok (set_Ops (Ops i ++ replicate (Z.to_nat (idx - NumOperands i)) None
                        ++ [v]) i)) /\
  (0 <= idx < NumOperands i ->
   SetOperand idx v i = Ok (set_Ops (<[Z.to_nat idx := v]> (Ops i)) i)) /\
  (0 <= idx ->
   exists i', SetOperand idx v i = Ok i' /\
     NumOperands i' = Z.max (NumOperands i) (idx + 1) /\
     Ops i' !! Z.to_nat idx = Some v /\
     (forall k, k <> Z.to_nat idx -> (k < length (Ops i))%nat ->
        Ops i' !! k = Ops i !! k) /\
     (forall k, k <> Z.to_nat idx -> (length (Ops i) <= k)%nat ->
        (k < length (Ops i'))%nat -> Ops i' !! k = Some None) /\
     Inst_Base i' = Inst_Base i /\ Parent_ i' = Parent_ i /\ Op i' = Op i).
Proof.
  unfold NumOperands.
  assert (Hgrow : NumOperands i <= idx ->
    SetOperand idx v i
    = Ok (set_Ops (Ops i ++ replicate (Z.to_nat (idx - NumOperands i)) None
                         ++ [v]) i)).
  { unfold NumOperands. intros Hge. unfold SetOperand.
    destruct (Z_lt_dec idx 0); [lia|]. do 2 f_equal.
    rewrite grow_Ops_spec.
    replace (Z.to_nat (idx + 1 - Z.of_nat (length (Ops i))))
      with (Z.to_nat (idx - Z.of_nat (length (Ops i))) + 1)%nat by lia.
    rewrite replicate_add. simpl.
    rewrite insert_app_r_alt by lia.
    f_equal.
    rewrite insert_app_r_alt by (rewrite length_replicate; lia).
    rewrite length_replicate.
    replace (Z.to_nat idx - length (Ops i)
             - Z.to_nat (idx - Z.of_nat (length (Ops i))))%nat
      with 0%nat by lia.
    reflexivity. }
  assert (Hin : 0 <= idx < NumOperands i ->
    SetOperand idx v i = Ok (set_Ops (<[Z.to_nat idx := v]> (Ops i)) i)).
  { unfold NumOperands. intros Hlt. unfold SetOperand.
    destruct (Z_lt_dec idx 0); [lia|]. do 2 f_equal.
    rewrite grow_Ops_spec.
    replace (Z.to_nat (idx + 1 - Z.of_nat (length (Ops i)))) with 0%nat by lia.
    simpl. rewrite app_nil_r. reflexivity. }
  split; [exact Hgrow|]. split; [exact Hin|].
  intros Hnn. unfold NumOperands in *.
  destruct (Z_le_dec (Z.of_nat (length (Ops i))) idx) as [Hge|Hlt].
  - eexists. split; [apply Hgrow; exact Hge|]. simpl.
    repeat rewrite length_app. rewrite length_replicate. simpl.
    split; [lia|]. split.
    { rewrite lookup_app_r by lia. rewrite lookup_app_r
        by (rewrite length_replicate; lia).
      rewrite length_replicate.
      replace (Z.to_nat idx - length (Ops i)
               - Z.to_nat (idx - Z.of_nat (length (Ops i))))%nat
        with 0%nat by lia.
      reflexivity. }
    split.
    { intros k Hk Hklt. rewrite lookup_app_l by lia. reflexivity. }
    split.
    { intros k Hk Hkge Hklt. rewrite lookup_app_r by lia.
      rewrite lookup_app_l by (rewrite length_replicate; lia).
      apply lookup_replicate_2. lia. }
    auto.
  - eexists. split; [apply Hin; lia|]. simpl.
    rewrite length_insert. split; [lia|]. split.
    { apply list_lookup_insert_eq. lia. }
    split.
    { intros k Hk _. apply list_lookup_insert_ne. congruence. }
    split.
    { intros k Hk Hkge Hklt. lia. }
    auto.
Qed.

End operands.

(** C8 at work: index 3 on a two-operand instruction, then index 0. *)
Lemma SetOperand_spec_example :
  let i := set_Ops [Some (ConstNull I8); Some (ConstInt I32 7)]
             BaseInstruction_zero in
  SetOperand 3 (Some (ConstInt I32 1)) i
  = Ok (set_Ops [Some (ConstNull I8); Some (ConstInt I32 7); None;
                 Some (ConstInt I32 1)] i) /\
  SetOperand 0 None i = Ok (set_Ops [None; Some (ConstInt I32 7)] i).
Proof.
  set (i0 := set_Ops [Some (ConstNull I8); Some (ConstInt I32 7)]
               BaseInstruction_zero).
  split.
  - exact (proj1 (SetOperand_spec i0 3 (Some (ConstInt I32 1)))
             ltac:(vm_compute; discriminate)).
  - exact (proj1 (proj2 (SetOperand_spec i0 0 None))
             ltac:(vm_compute; split; [discriminate|reflexivity])).
Defined.

(** ** Basic blocks *)

Section terminator.

Lemma IsTerminator_opcodes (i : BaseInstruction) :
  IsTerminator i = true <-> Op i ∈ terminator_opcodes.
Proof.
  unfold IsTerminator, terminator_opcodes.
  destruct (Op i); split; intros H; try reflexivity; try discriminate;
    try (repeat constructor; fail);
    repeat (apply elem_of_cons in H as [H|H]; [discriminate|]);
    apply elem_of_nil in H; contradiction.
Qed.

(** C3. [Terminator] of a block: nil on an empty block; the last
    instruction when its opcode is a terminator opcode; nil when the
    opcode of the last instruction is no terminator opcode, whatever the
    instructions before it are. *)
Theorem Terminator_spec (h : Heap) (b : block_ref) (blk : BasicBlock) :
  blocks h !! b = Some blk ->
  (Instructions blk = [] -> Terminator b h = Ok None) /\
  (forall (pre : list inst_ref) (last : inst_ref) (i : Instruction),
     Instructions blk = pre ++ [last] ->
     insts h !! last = Some i ->
     (Op (Base i) ∈ terminator_opcodes -> Terminator b h = Ok (Some last)) /\
     (Op (Base i) ∉ terminator_opcodes -> Terminator b h = Ok None)).
Proof.
  intros Hb. unfold Terminator, load_block. rewrite Hb. simpl. split.
  - intros ->. reflexivity.
  - intros pre last i Hins Hi. rewrite Hins. rewrite length_app. simpl.
    replace (Nat.eqb (length pre + 1) 0) with false
      by (symmetry; apply Nat.eqb_neq; lia).
    replace (length pre + 1 - 1)%nat with (length pre) by lia.
    rewrite list_lookup_middle by reflexivity.
    unfold load_inst. rewrite Hi. simpl.
    pose proof (IsTerminator_opcodes (Base i)) as Hterm.
    destruct (IsTerminator (Base i)).
    + split; [reflexivity|]. intros Hn. exfalso. apply Hn, Hterm. reflexivity.
    + split; [|reflexivity]. intros Hy. apply Hterm in Hy. discriminate.
Qed.

End terminator.

(** C3 at work: a block [ret; add] has no terminator although [ret] is one,
    and the block [add; ret] has the terminator [ret]. *)
Lemma Terminator_spec_example :
  let ret := on_base (set_Op OpRet) (zero RetInst) in
  let add := on_base (set_Op OpAdd) (zero (BinaryInst false false false)) in
  let blk0 := mkBasicBlock (mkBaseValue "a" (Some Label)) [0; 1]%nat None [] [] in
  let blk1 := mkBasicBlock (mkBaseValue "b" (Some Label)) [1; 0]%nat None [] [] in
  let h := store_block 0 blk0 (store_block 1 blk1
             (store_inst 0 ret (store_inst 1 add empty_heap))) in
  Terminator 0 h = Ok None /\ Terminator 1 h = Ok (Some 0%nat).
Proof.
  intros ret add blk0 blk1 h. split.
  - refine (proj2 (proj2 (Terminator_spec h 0%nat blk0 _) [0%nat] 1%nat add
                     eq_refl _) _).
    + vm_compute. reflexivity.
    + vm_compute. reflexivity.
    + vm_compute. intros H.
      repeat (apply elem_of_cons in H as [H|H]; [discriminate|]).
      apply elem_of_nil in H. exact H.
  - refine (proj1 (proj2 (Terminator_spec h 1%nat blk1 _) [1%nat] 0%nat ret
                     eq_refl _) _).
    + vm_compute. reflexivity.
    + vm_compute. reflexivity.
    + vm_compute. constructor.
Defined.

(** ** The builder: control-flow edges *)

Section cfg_edges.

Lemma Successors_of_store_block (h : Heap) (x b : block_ref) (blk : BasicBlock) :
  Successors_of (store_block x blk h) b
  = if decide (b = x) then Successors blk else Successors_of h b.
Proof.
  unfold Successors_of, store_block. simpl.
  destruct (decide (b = x)) as [->|Hne].
  - rewrite lookup_insert_eq. reflexivity.
  - rewrite lookup_insert_ne by congruence. reflexivity.
Qed.

Lemma Predecessors_of_store_block (h : Heap) (x b : block_ref) (blk : BasicBlock) :
  Predecessors_of (store_block x blk h) b
  = if decide (b = x) then Predecessors blk else Predecessors_of h b.
Proof.
  unfold Predecessors_of, store_block. simpl.
  destruct (decide (b = x)) as [->|Hne].
  - rewrite lookup_insert_eq. reflexivity.
  - rewrite lookup_insert_ne by congruence. reflexivity.
Qed.

Lemma Instructions_of_store_block (h : Heap) (x b : block_ref) (blk : BasicBlock) :
  Instructions_of (store_block x blk h) b
  = if decide (b = x) then Instructions blk else Instructions_of h b.
Proof.
  unfold Instructions_of, store_block. simpl.
  destruct (decide (b = x)) as [->|Hne].
  - rewrite lookup_insert_eq. reflexivity.
  - rewrite lookup_insert_ne by congruence. reflexivity.
Qed.

Lemma append_Successors_ok (s : State) (x : block_ref) (targets : list block_ref)
  (blk : BasicBlock) :
  blocks (mem s) !! x = Some blk ->
  append_Successors x targets s
  = Ok (tt, mkState (bld s)
              (store_block x (set_Successors (Successors blk ++ targets) blk)
                 (mem s))).
Proof.
  intros H. unfold append_Successors, get_block, put_block, read, on_mem,
    get_mem, put_mem, lift, load_block, mbind, M_bind. simpl.
  rewrite H. reflexivity.
Qed.

Lemma append_Predecessors_ok (s : State) (x src : block_ref) (blk : BasicBlock) :
  blocks (mem s) !! x = Some blk ->
  append_Predecessors x src s
  = Ok (tt, mkState (bld s)
              (store_block x (set_Predecessors (Predecessors blk ++ [src]) blk)
                 (mem s))).
Proof.
  intros H. unfold append_Predecessors, get_block, put_block, read, on_mem,
    get_mem, put_mem, lift, load_block, mbind, M_bind. simpl.
  rewrite H. reflexivity.
Qed.

End cfg_edges.


(** ** The builder: the insertion cursor *)

Section cursor.

Lemma find_inst_first (x : inst_ref) (pre post : list inst_ref) (k : Z) :
  x ∉ pre ->
  find_inst x (pre ++ x :: post) k = Some (k + Z.of_nat (length pre)).
Proof.
  revert k. induction pre as [|y pre IH]; intros k Hnin; simpl.
  - destruct (decide (x = x)); [|congruence]. f_equal. lia.
  - destruct (decide (y = x)) as [->|Hne].
    + exfalso. apply Hnin. constructor.
    + rewrite IH by (intros H; apply Hnin; constructor; exact H).
      f_equal. lia.
Qed.

Lemma find_inst_None (x : inst_ref) (l : list inst_ref) (k : Z) :
  x ∉ l -> find_inst x l k = None.
Proof.
  revert k. induction l as [|y l IH]; intros k Hnin; simpl; [reflexivity|].
  destruct (decide (y = x)) as [->|Hne].
  - exfalso. apply Hnin. constructor.
  - apply IH. intros H. apply Hnin. constructor. exact H.
Qed.

(** [SetInsertPointBefore] on an instruction of a block: the cursor is the
    index of its first occurrence. *)
Lemma SetInsertPointBefore_ok (s : State) (x : inst_ref) (ix : Instruction)
  (cb : block_ref) (blk : BasicBlock) (pre post : list inst_ref) :
  insts (mem s) !! x = Some ix ->
  Parent_ (Base ix) = Some cb ->
  blocks (mem s) !! cb = Some blk ->
  Instructions blk = pre ++ x :: post ->
  x ∉ pre ->
  SetInsertPointBefore (Some x) s
  = Ok (tt, mkState (set_insertPoint (Z.of_nat (length pre))
                       (set_currentBlock (Some cb) (bld s))) (mem s)).
Proof.
  intros Hx Hpar Hb Hins Hnin. unfold SetInsertPointBefore. run_M.
  rewrite Hx. run_M. rewrite Hpar. run_M. rewrite Hb. run_M.
  rewrite Hins. rewrite (find_inst_first x pre post 0 Hnin). run_M.
  reflexivity.
Qed.

(** [insert] in positional mode. *)
Lemma insert_positional_ok (s : State) (r : inst_ref) (i : Instruction)
  (cb : block_ref) (blk : BasicBlock) :
  currentBlock (bld s) = Some cb ->
  0 <= insertPoint (bld s) <= Z.of_nat (length (Instructions blk)) ->
  blocks (mem s) !! cb = Some blk ->
  insts (mem s) !! r = Some i ->
  let k := Z.to_nat (insertPoint (bld s)) in
  insert r s
  = Ok (tt, mkState (set_insertPoint (wrap_int (insertPoint (bld s) + 1)) (bld s))
              (store_inst r (mkInstruction (SetParent (Some cb) (Base i)) (Struct i))
                 (store_block cb
                    (set_Instructions (take k (Instructions blk) ++ [r]
                                       ++ drop k (Instructions blk)) blk)
                    (mem s)))).
Proof.
  intros Hcb Hip Hb Hr k. unfold insert, Inst_SetParent. run_M.
  rewrite Hcb. destruct (Z_lt_dec (insertPoint (bld s)) 0) as [Hneg|_]; [lia|].
  run_M. rewrite Hb. run_M.
  replace (Nat.ltb (length (Instructions blk)) (Z.to_nat (insertPoint (bld s))))
    with false by (symmetry; apply Nat.ltb_ge; lia).
  run_M. cbn [store_block insts]. rewrite Hr. run_M. reflexivity.
Qed.

(** [insert] in append mode. *)
Lemma insert_append_ok (s : State) (r : inst_ref) (i : Instruction)
  (cb : block_ref) (blk : BasicBlock) :
  currentBlock (bld s) = Some cb ->
  insertPoint (bld s) < 0 ->
  blocks (mem s) !! cb = Some blk ->
  insts (mem s) !! r = Some i ->
  insert r s
  = Ok (tt, mkState (bld s)
              (store_block cb (set_Instructions (Instructions blk ++ [r]) blk)
                 (store_inst r (mkInstruction (SetParent (Some cb) (Base i)) (Struct i))
                    (mem s)))).
Proof.
  intros Hcb Hip Hb Hr. unfold insert, AddInstruction, Inst_SetParent. run_M.
  rewrite Hcb. destruct (Z_lt_dec (insertPoint (bld s)) 0) as [_|]; [|lia].
  run_M. rewrite Hr. run_M. cbn [store_inst blocks]. rewrite Hb. run_M.
  reflexivity.
Qed.

Lemma wrap_int_small (z : Z) : - 2 ^ 63 <= z < 2 ^ 63 -> wrap_int z = z.
Proof.
  intros H. unfold wrap_int.
  rewrite Z.mod_small by lia. lia.
Qed.

End cursor.

(** ** The builder: every construction inserts at the cursor *)

Section frames.

Lemma code_frame_refl (s : State) : code_frame s s.
Proof. repeat split. Qed.

Lemma code_frame_trans (s1 s2 s3 : State) :
  code_frame s1 s2 -> code_frame s2 s3 -> code_frame s1 s3.
Proof.
  intros (Hc1 & Hp1 & Hi1) (Hc2 & Hp2 & Hi2). repeat split.
  - congruence.
  - congruence.
  - intros b. rewrite Hi2. apply Hi1.
Qed.

Lemma inserted_frame_l (r : inst_ref) (s1 s2 s3 : State) :
  code_frame s1 s2 -> inserted r s2 s3 -> inserted r s1 s3.
Proof.
  intros (Hc & Hp & Hi) (cb & Hcb & Hcb' & Hoth & Hcase).
  exists cb. split; [congruence|]. split; [exact Hcb'|]. split.
  { intros b Hb. rewrite (Hoth b Hb). apply Hi. }
  cbv zeta in *. rewrite <- Hp, <- (Hi cb). exact Hcase.
Qed.

Lemma inserted_frame_r (r : inst_ref) (s1 s2 s3 : State) :
  inserted r s1 s2 -> code_frame s2 s3 -> inserted r s1 s3.
Proof.
  intros (cb & Hcb & Hcb' & Hoth & Hcase) (Hc & Hp & Hi).
  exists cb. split; [exact Hcb|]. split; [congruence|]. split.
  { intros b Hb. rewrite Hi. apply Hoth. exact Hb. }
  cbv zeta in *. rewrite Hp, (Hi cb). exact Hcase.
Qed.

Lemma wp_bind {A B} (m : M A) (k : A -> M B) (s : State)
  (Q : B -> State -> Prop) (E : panic -> Prop) :
  wp m s (fun a s' => wp (k a) s' Q E) E -> wp (m ≫= k) s Q E.
Proof.
  unfold wp, mbind, M_bind. destruct (m s) as [[a s']| |]; auto.
Qed.

Lemma wp_mono {A} (m : M A) (s : State) (Q Q' : A -> State -> Prop)
  (E E' : panic -> Prop) :
  wp m s Q E -> (forall a s', Q a s' -> Q' a s') -> (forall p, E p -> E' p) ->
  wp m s Q' E'.
Proof.
  unfold wp. destruct (m s) as [[a s']| |]; auto.
Qed.

Lemma framed_mret {A} (a : A) : framed (mret a).
Proof. intros s. unfold wp, mret, M_ret. apply code_frame_refl. Qed.

Lemma framed_bind {A B} (m : M A) (k : A -> M B) :
  framed m -> (forall a, framed (k a)) -> framed (m ≫= k).
Proof.
  intros Hm Hk s. apply wp_bind.
  eapply wp_mono; [apply Hm| |auto].
  intros a s' Hf.
  eapply wp_mono; [apply Hk| |auto].
  intros b s'' Hf'. exact (code_frame_trans _ _ _ Hf Hf').
Qed.

Lemma framed_lift {A} (o : outcome A) : quiet o -> framed (lift o).
Proof.
  intros Hq s. unfold wp, lift. destruct o as [a|p|].
  - apply code_frame_refl.
  - intros ->. apply Hq. reflexivity.
  - exact I.
Qed.

Lemma framed_throw {A} (p : panic) : p <> NoInsertionBlock -> framed (@throw A p).
Proof. intros Hp s. exact Hp. Qed.

Lemma framed_get_bld : framed get_bld.
Proof. intros s. apply code_frame_refl. Qed.

Lemma framed_get_mem : framed get_mem.
Proof. intros s. apply code_frame_refl. Qed.

Lemma framed_read {A} (f : Heap -> outcome A) :
  (forall h, quiet (f h)) -> framed (read f).
Proof.
  intros Hq. unfold read. apply framed_bind; [apply framed_get_mem|].
  intros h. apply framed_lift, Hq.
Qed.

Lemma quiet_Ok {A} (a : A) : quiet (Ok a).
Proof. discriminate. Qed.

Lemma quiet_Invalid {A} : quiet (@Invalid A).
Proof. discriminate. Qed.

Lemma quiet_deref {A} (o : option A) : quiet (deref o).
Proof. destruct o; discriminate. Qed.

Lemma quiet_bind {A B} (o : outcome A) (k : A -> outcome B) :
  quiet o -> (forall a, quiet (k a)) -> quiet (o ≫= k).
Proof.
  intros Ho Hk. unfold mbind, outcome_bind. destruct o as [a|p|].
  - apply Hk.
  - intros H. apply Ho. injection H as ->. reflexivity.
  - discriminate.
Qed.

Lemma quiet_load_inst (h : Heap) (r : inst_ref) : quiet (load_inst h r).
Proof. unfold load_inst. destruct (insts h !! r); discriminate. Qed.

Lemma quiet_load_block (h : Heap) (r : block_ref) : quiet (load_block h r).
Proof. unfold load_block. destruct (blocks h !! r); discriminate. Qed.

Lemma quiet_load_func (h : Heap) (r : func_ref) : quiet (load_func h r).
Proof. unfold load_func. destruct (funcs h !! r); discriminate. Qed.

Lemma quiet_Value_Type (h : Heap) (v : option Value) : quiet (Value_Type h v).
Proof.
  unfold Value_Type. apply quiet_bind; [apply quiet_deref|]. intros w.
  apply quiet_bind; [|intros; apply quiet_Ok].
  destruct w; simpl; try apply quiet_Ok;
    (apply quiet_bind; [|intros; apply quiet_Ok]).
  - apply quiet_load_inst.
  - apply quiet_load_block.
  - apply quiet_load_func.
Qed.

Lemma quiet_SetOperand (idx : Z) (v : option Value) (i : BaseInstruction) :
  quiet (SetOperand idx v i).
Proof. unfold SetOperand. destruct (Z_lt_dec idx 0); discriminate. Qed.

Lemma quiet_setOperand (idx : Z) (v : option Value) (i : Instruction) :
  quiet (setOperand idx v i).
Proof.
  unfold setOperand. apply quiet_bind; [apply quiet_SetOperand|].
  intros; apply quiet_Ok.
Qed.

Lemma quiet_setOperands (args : list (option Value)) :
  forall (k : Z) (i : Instruction), quiet (setOperands k args i).
Proof.
  induction args as [|a args IH]; intros k i; simpl.
  - apply quiet_Ok.
  - apply quiet_bind; [apply quiet_setOperand|]. intros i'. apply IH.
Qed.

Lemma quiet_Kind_of (o : option Ty) : quiet (Kind_of o).
Proof.
  unfold Kind_of. apply quiet_bind; [apply quiet_deref|].
  intros; apply quiet_Ok.
Qed.

Lemma quiet_as_FunctionType (t : Ty) : quiet (as_FunctionType t).
Proof. destruct t; discriminate. Qed.

End frames.

Section frames_state.

Lemma Instructions_of_store_inst (h : Heap) (r : inst_ref) (i : Instruction)
  (b : block_ref) :
  Instructions_of (store_inst r i h) b = Instructions_of h b.
Proof. reflexivity. Qed.

Lemma framed_mod_nameCounter (n : Z) : framed (mod_bld (set_nameCounter n)).
Proof. intros s. unfold wp, mod_bld. simpl. repeat split. Qed.

Lemma framed_generateName : framed generateName.
Proof.
  unfold generateName. apply framed_bind; [apply framed_get_bld|]. intros b.
  apply framed_bind; [apply framed_mod_nameCounter|]. intros _.
  apply framed_mret.
Qed.

Lemma framed_name_or_generate (name : string) : framed (name_or_generate name).
Proof.
  unfold name_or_generate. destruct (String.eqb name "").
  - apply framed_generateName.
  - apply framed_mret.
Qed.

Lemma framed_new_inst (i : Instruction) : framed (new_inst i).
Proof. intros s. unfold wp, new_inst. run_M. repeat split. Qed.

Lemma framed_put_inst (r : inst_ref) (i : Instruction) : framed (put_inst r i).
Proof. intros s. unfold wp, put_inst. run_M. repeat split. Qed.

Lemma framed_get_inst (r : inst_ref) : framed (get_inst r).
Proof. apply framed_read. intros h. apply quiet_load_inst. Qed.

Lemma framed_get_block (r : block_ref) : framed (get_block r).
Proof. apply framed_read. intros h. apply quiet_load_block. Qed.

Lemma framed_get_func (r : func_ref) : framed (get_func r).
Proof. apply framed_read. intros h. apply quiet_load_func. Qed.

Lemma framed_current : framed current.
Proof.
  unfold current. apply framed_bind; [apply framed_get_bld|]. intros b.
  apply framed_lift, quiet_deref.
Qed.

Lemma framed_append_Successors (x : block_ref) (targets : list block_ref) :
  framed (append_Successors x targets).
Proof.
  intros s. unfold wp, append_Successors. run_M.
  destruct (blocks (mem s) !! x) as [blk|] eqn:Hx; [|exact I].
  run_M. repeat split. intros b. cbn [mem].
  rewrite Instructions_of_store_block.
  destruct (decide (b = x)) as [->|]; [|reflexivity].
  unfold Instructions_of. rewrite Hx. reflexivity.
Qed.

Lemma framed_append_Predecessors (x src : block_ref) :
  framed (append_Predecessors x src).
Proof.
  intros s. unfold wp, append_Predecessors. run_M.
  destruct (blocks (mem s) !! x) as [blk|] eqn:Hx; [|exact I].
  run_M. repeat split. intros b. cbn [mem].
  rewrite Instructions_of_store_block.
  destruct (decide (b = x)) as [->|]; [|reflexivity].
  unfold Instructions_of. rewrite Hx. reflexivity.
Qed.

Lemma framed_set_binary_flags (f : bool * bool * bool -> bool * bool * bool)
  (r : inst_ref) : framed (set_binary_flags f r).
Proof.
  unfold set_binary_flags. apply framed_bind; [apply framed_get_inst|].
  intros i. destruct (Struct i); try (apply framed_lift, quiet_Invalid).
  destruct (f (NoSignedWrap, NoUnsignedWrap, Exact)) as [[? ?] ?].
  apply framed_put_inst.
Qed.

Lemma framed_set_Volatile (r : inst_ref) : framed (set_Volatile r).
Proof.
  unfold set_Volatile. apply framed_bind; [apply framed_get_inst|].
  intros i. destruct (Struct i); try (apply framed_lift, quiet_Invalid);
    apply framed_put_inst.
Qed.

Lemma framed_set_Alignment (align : Z) (r : inst_ref) :
  framed (set_Alignment align r).
Proof.
  unfold set_Alignment. apply framed_bind; [apply framed_get_inst|].
  intros i. destruct (Struct i); try (apply framed_lift, quiet_Invalid);
    apply framed_put_inst.
Qed.

Lemma framed_set_InBounds (r : inst_ref) : framed (set_InBounds r).
Proof.
  unfold set_InBounds. apply framed_bind; [apply framed_get_inst|].
  intros i. destruct (Struct i); try (apply framed_lift, quiet_Invalid);
    apply framed_put_inst.
Qed.

Lemma framed_ReturnType_of (fn : option func_ref) : framed (ReturnType_of fn).
Proof.
  unfold ReturnType_of.
  apply framed_bind; [apply framed_lift, quiet_deref|]. intros f.
  apply framed_bind; [apply framed_get_func|]. intros fobj.
  apply framed_bind; [apply framed_lift, quiet_deref|]. intros ft.
  apply framed_bind; [apply framed_lift, quiet_as_FunctionType|].
  intros [[ret ?] ?]. apply framed_mret.
Qed.

Lemma framed_ret_mret (r : inst_ref) : framed_ret r (mret r).
Proof. intros s. unfold wp, mret, M_ret. split; [reflexivity|apply code_frame_refl]. Qed.

Lemma framed_ret_bind {A} (r : inst_ref) (m : M A) (k : A -> M inst_ref) :
  framed m -> (forall a, framed_ret r (k a)) -> framed_ret r (m ≫= k).
Proof.
  intros Hm Hk s. apply wp_bind.
  eapply wp_mono; [apply Hm| |auto].
  intros a s' Hf.
  eapply wp_mono; [apply Hk| |auto].
  intros b s'' [Hb Hf']. split; [exact Hb|].
  exact (code_frame_trans _ _ _ Hf Hf').
Qed.

(** [insert] puts the instruction at the cursor. *)
Lemma insert_wp (r : inst_ref) (s : State) :
  wp (insert r) s (fun _ s' => inserted r s s')
     (fun p => p = NoInsertionBlock -> currentBlock (bld s) = None).
Proof.
  unfold wp, insert. run_M.
  destruct (currentBlock (bld s)) as [cb|] eqn:Hcb; [|reflexivity].
  destruct (Z_lt_dec (insertPoint (bld s)) 0) as [Hneg|Hpos].
  - unfold AddInstruction, Inst_SetParent. run_M.
    destruct (insts (mem s) !! r) as [i|]; [|exact I]. run_M.
    cbn [store_inst blocks].
    destruct (blocks (mem s) !! cb) as [blk|] eqn:Hb; [|exact I]. run_M.
    exists cb. cbn [mem bld]. split; [exact Hcb|]. split; [exact Hcb|]. split.
    + intros b Hne. rewrite Instructions_of_store_block.
      destruct (decide (b = cb)); [contradiction|]. reflexivity.
    + left. split; [exact Hneg|]. split; [reflexivity|].
      rewrite Instructions_of_store_block.
      destruct (decide (cb = cb)); [|congruence].
      unfold Instructions_of. cbn [store_inst blocks]. rewrite Hb. reflexivity.
  - destruct (blocks (mem s) !! cb) as [blk|] eqn:Hb; [|exact I]. run_M.
    destruct (Nat.ltb (length (Instructions blk))
                (Z.to_nat (insertPoint (bld s)))) eqn:Hlt.
    + discriminate.
    + apply Nat.ltb_ge in Hlt. unfold Inst_SetParent. run_M.
      cbn [store_block insts].
      destruct (insts (mem s) !! r) as [i|]; [|exact I]. run_M.
      exists cb. split; [exact Hcb|]. split; [exact Hcb|]. split.
      * intros b Hne. cbn [mem]. rewrite Instructions_of_store_inst.
        rewrite Instructions_of_store_block.
        destruct (decide (b = cb)); [contradiction|]. reflexivity.
      * right. cbn [mem bld insertPoint set_insertPoint].
        assert (Instructions_of (mem s) cb = Instructions blk) as ->
          by (unfold Instructions_of; rewrite Hb; reflexivity).
        split; [lia|]. split; [reflexivity|].
        rewrite Instructions_of_store_inst, Instructions_of_store_block.
        destruct (decide (cb = cb)); [|congruence]. reflexivity.
Qed.

Lemma inserting_insert (r : inst_ref) (post : M inst_ref) :
  framed_ret r post -> inserting (_ ← insert r; post).
Proof.
  intros Hpost s. apply wp_bind.
  eapply wp_mono; [apply insert_wp| |auto].
  intros u s' Hins.
  eapply wp_mono; [apply Hpost| |].
  - intros a s'' [Ha Hf]. rewrite Ha.
    exact (inserted_frame_r _ _ _ _ Hins Hf).
  - intros p Hp Heq. contradiction.
Qed.

Lemma inserting_pre {A} (m : M A) (k : A -> M inst_ref) :
  framed m -> (forall a, inserting (k a)) -> inserting (m ≫= k).
Proof.
  intros Hm Hk s. apply wp_bind.
  eapply wp_mono; [apply Hm| |].
  - intros a s' Hf.
    eapply wp_mono; [apply Hk| |].
    + intros r s'' Hins. exact (inserted_frame_l _ _ _ _ Hf Hins).
    + intros p Hp Heq. destruct Hf as (Hc & _). rewrite <- Hc. auto.
  - intros p Hp Heq. contradiction.
Qed.

Lemma inserting_post (m : M inst_ref) (k : inst_ref -> M inst_ref) :
  inserting m -> (forall r, framed_ret r (k r)) -> inserting (m ≫= k).
Proof.
  intros Hm Hk s. apply wp_bind.
  eapply wp_mono; [apply Hm| |auto].
  intros r s' Hins.
  eapply wp_mono; [apply Hk| |].
  - intros a s'' [Ha Hf]. rewrite Ha.
    exact (inserted_frame_r _ _ _ _ Hins Hf).
  - intros p Hp Heq. contradiction.
Qed.

End frames_state.

Ltac quiet_tac :=
  lazymatch goal with
  | |- quiet (Ok _) => apply quiet_Ok
  | |- quiet Invalid => apply quiet_Invalid
  | |- quiet (deref _) => apply quiet_deref
  | |- quiet (setOperand _ _ _) => apply quiet_setOperand
  | |- quiet (setOperands _ _ _) => apply quiet_setOperands
  | |- quiet (Value_Type _ _) => apply quiet_Value_Type
  | |- quiet (Kind_of _) => apply quiet_Kind_of
  | |- quiet (as_FunctionType _) => apply quiet_as_FunctionType
  | |- quiet (load_inst _ _) => apply quiet_load_inst
  | |- quiet (load_block _ _) => apply quiet_load_block
  | |- quiet (load_func _ _) => apply quiet_load_func
  | |- quiet (match ?x with _ => _ end) => destruct x; quiet_tac
  end.

Ltac framed_step :=
  lazymatch goal with
  | |- framed (mbind _ _) => apply framed_bind; [|intros]
  | |- framed (mret _) => apply framed_mret
  | |- framed get_bld => apply framed_get_bld
  | |- framed generateName => apply framed_generateName
  | |- framed (name_or_generate _) => apply framed_name_or_generate
  | |- framed (new_inst _) => apply framed_new_inst
  | |- framed (put_inst _ _) => apply framed_put_inst
  | |- framed (get_inst _) => apply framed_get_inst
  | |- framed (get_block _) => apply framed_get_block
  | |- framed (get_func _) => apply framed_get_func
  | |- framed current => apply framed_current
  | |- framed (append_Successors _ _) => apply framed_append_Successors
  | |- framed (append_Predecessors _ _) => apply framed_append_Predecessors
  | |- framed (set_binary_flags _ _) => apply framed_set_binary_flags
  | |- framed (set_NoSignedWrap _) => apply framed_set_binary_flags
  | |- framed (set_NoUnsignedWrap _) => apply framed_set_binary_flags
  | |- framed (set_Exact _) => apply framed_set_binary_flags
  | |- framed (set_Volatile _) => apply framed_set_Volatile
  | |- framed (set_Alignment _ _) => apply framed_set_Alignment
  | |- framed (set_InBounds _) => apply framed_set_InBounds
  | |- framed (ReturnType_of _) => apply framed_ReturnType_of
  | |- framed (lift _) => apply framed_lift; quiet_tac
  | |- framed (read _) => apply framed_read; intros; quiet_tac
  | |- framed (throw _) => apply framed_throw; discriminate
  | |- framed (match ?x with _ => _ end) => destruct x
  end.

Ltac framed_tac := repeat framed_step.

Ltac framed_ret_tac :=
  repeat lazymatch goal with
    | |- framed_ret _ (mret _) => apply framed_ret_mret
    | |- framed_ret _ (mbind _ _) => apply framed_ret_bind; [framed_tac|intros]
    end.

Ltac inserting_tac :=
  repeat lazymatch goal with
    | |- inserting (mbind _ (insert _)) => apply inserting_insert; framed_ret_tac
    | |- inserting (mbind _ _) => apply inserting_pre; [framed_tac|intros]
    | |- inserting (match ?x with _ => _ end) => destruct x
    end.

Section constructions.

Lemma inserting_CreateRet v : inserting (CreateRet v).
Proof. unfold CreateRet. inserting_tac. Qed.

Lemma inserting_CreateRetVoid : inserting CreateRetVoid.
Proof. unfold CreateRetVoid. inserting_tac. Qed.

Lemma inserting_CreateBr t : inserting (CreateBr t).
Proof. unfold CreateBr. inserting_tac. Qed.

Lemma inserting_CreateCondBr c t f : inserting (CreateCondBr c t f).
Proof. unfold CreateCondBr. inserting_tac. Qed.

Lemma inserting_CreateSwitch c d n : inserting (CreateSwitch c d n).
Proof. unfold CreateSwitch. inserting_tac. Qed.

Lemma inserting_CreateUnreachable : inserting CreateUnreachable.
Proof. unfold CreateUnreachable. inserting_tac. Qed.

Lemma inserting_createBinaryOp op l r n : inserting (createBinaryOp op l r n).
Proof. unfold createBinaryOp. inserting_tac. Qed.

Lemma inserting_CreateAlloca t n : inserting (CreateAlloca t n).
Proof. unfold CreateAlloca. inserting_tac. Qed.

Lemma inserting_CreateAllocaWithCount t c n :
  inserting (CreateAllocaWithCount t c n).
Proof. unfold CreateAllocaWithCount. inserting_tac. Qed.

Lemma inserting_CreateLoad t p n : inserting (CreateLoad t p n).
Proof. unfold CreateLoad. inserting_tac. Qed.

Lemma inserting_CreateStore v p : inserting (CreateStore v p).
Proof. unfold CreateStore. inserting_tac. Qed.

Lemma inserting_CreateGEP t p ix n : inserting (CreateGEP t p ix n).
Proof. unfold CreateGEP. inserting_tac. Qed.

Lemma inserting_createCast op v t n : inserting (createCast op v t n).
Proof. unfold createCast. inserting_tac. Qed.

Lemma inserting_CreateICmp p l r n : inserting (CreateICmp p l r n).
Proof. unfold CreateICmp. inserting_tac. Qed.

Lemma inserting_CreateFCmp p l r n : inserting (CreateFCmp p l r n).
Proof. unfold CreateFCmp. inserting_tac. Qed.

Lemma inserting_CreatePhi t n : inserting (CreatePhi t n).
Proof. unfold CreatePhi. inserting_tac. Qed.

Lemma inserting_CreateSelect c t f n : inserting (CreateSelect c t f n).
Proof. unfold CreateSelect. inserting_tac. Qed.

Lemma inserting_CreateCall f a n : inserting (CreateCall f a n).
Proof. unfold CreateCall. inserting_tac. Qed.

Lemma inserting_CreateCallByName c t a n : inserting (CreateCallByName c t a n).
Proof. unfold CreateCallByName. inserting_tac. Qed.

Lemma inserting_CreateExtractValue a ix n : inserting (CreateExtractValue a ix n).
Proof. unfold CreateExtractValue. inserting_tac. Qed.

Lemma inserting_CreateInsertValue a v ix n :
  inserting (CreateInsertValue a v ix n).
Proof. unfold CreateInsertValue. inserting_tac. Qed.

(** Every instruction-construction method inserts the instruction it
    returns at the cursor, and raises "no insertion block set" only when no
    block is set. *)
Lemma inserting_call (c : Create) : inserting (call c).
Proof.
  destruct c; cbn [call].
  - apply inserting_CreateRet.
  - apply inserting_CreateRetVoid.
  - apply inserting_CreateBr.
  - apply inserting_CreateCondBr.
  - apply inserting_CreateSwitch.
  - apply inserting_CreateUnreachable.
  - destruct m; cbn [binary_call];
      first [ apply inserting_createBinaryOp
            | apply inserting_post;
              [apply inserting_createBinaryOp|intros; framed_ret_tac] ].
  - apply inserting_CreateAlloca.
  - apply inserting_CreateAllocaWithCount.
  - apply inserting_CreateLoad.
  - apply inserting_post; [apply inserting_CreateLoad|intros; framed_ret_tac].
  - apply inserting_post; [apply inserting_CreateLoad|intros; framed_ret_tac].
  - apply inserting_CreateStore.
  - apply inserting_post; [apply inserting_CreateStore|intros; framed_ret_tac].
  - apply inserting_post; [apply inserting_CreateStore|intros; framed_ret_tac].
  - apply inserting_CreateGEP.
  - apply inserting_post; [apply inserting_CreateGEP|intros; framed_ret_tac].
  - apply inserting_CreateGEP.
  - destruct m; apply inserting_createCast.
  - apply inserting_CreateICmp.
  - apply inserting_CreateFCmp.
  - destruct m; apply inserting_CreateICmp.
  - apply inserting_CreatePhi.
  - apply inserting_CreateSelect.
  - apply inserting_CreateCall.
  - apply inserting_CreateCallByName.
  - apply inserting_CreateExtractValue.
  - apply inserting_CreateInsertValue.
Qed.

End constructions.

Section misuse.

(** C6. Every instruction-construction method, called while no insertion
    block is set, does not return: on a Go memory it panics.  Called while
    an insertion block is set, it does not raise the panic "no insertion
    block set". *)
Theorem no_insertion_block_is_fatal (c : Create) (s : State) :
  (currentBlock (bld s) = None ->
     (forall r s', call c s <> Ok (r, s')) /\
     (call c s <> Invalid -> exists p, call c s = Panic p)) /\
  (is_Some (currentBlock (bld s)) -> call c s <> Panic NoInsertionBlock).
Proof.
  pose proof (inserting_call c s) as H. unfold wp in H. split.
  - intros Hnone.
    assert (Hno : forall r s', call c s <> Ok (r, s')).
    { intros r s' Heq. rewrite Heq in H.
      destruct H as (cb & Hcb & _). congruence. }
    split; [exact Hno|]. intros Hvalid.
    destruct (call c s) as [[r s']|p|].
    + exfalso. exact (Hno r s' eq_refl).
    + exists p. reflexivity.
    + contradiction.
  - intros [cb Hcb] Heq. rewrite Heq in H.
    specialize (H eq_refl). congruence.
Qed.

End misuse.

(** C6 at work: [CreateAdd] and [CreateRetVoid] on a fresh builder raise
    the panic, and [CreateRetVoid] with a block set returns. *)
Lemma no_insertion_block_example :
  let s0 := mkState New empty_heap in
  call (Binary MAdd (Some (ConstInt I32 2)) (Some (ConstInt I32 3)) "") s0
    = Panic NoInsertionBlock /\
  (exists p, call RetVoid s0 = Panic p) /\
  (let '(b, h) := NewBasicBlock "entry" empty_heap in
   call RetVoid (mkState (set_currentBlock (Some b) New) h)
   <> Panic NoInsertionBlock).
Proof.
  cbv zeta. split; [vm_compute; reflexivity|]. split.
  - apply (proj2 (proj1 (no_insertion_block_is_fatal RetVoid
                           (mkState New empty_heap)) eq_refl)).
    vm_compute. discriminate.
  - apply (proj2 (no_insertion_block_is_fatal RetVoid
             (mkState (set_currentBlock (Some (fst (NewBasicBlock "entry" empty_heap))) New)
                (snd (NewBasicBlock "entry" empty_heap))))).
    vm_compute. eexists. reflexivity.
Defined.

Section insertion_order.

(** An insertion in positional mode, read on a block split at the
    cursor. *)
Lemma inserted_positional (r : inst_ref) (s s' : State) (cb : block_ref)
  (pre post : list inst_ref) :
  inserted r s s' ->
  currentBlock (bld s) = Some cb ->
  insertPoint (bld s) = Z.of_nat (length pre) ->
  Instructions_of (mem s) cb = pre ++ post ->
  Z.of_nat (length pre) + 1 < 2 ^ 63 ->
  currentBlock (bld s') = Some cb /\
  insertPoint (bld s') = Z.of_nat (length pre) + 1 /\
  Instructions_of (mem s') cb = pre ++ r :: post.
Proof.
  intros (cb' & Hcb & Hcb' & _ & Hcase) Hcur Hip Hins Hsmall.
  assert (cb' = cb) as -> by congruence.
  split; [exact Hcb'|]. cbv zeta in Hcase. rewrite Hip, Hins in Hcase.
  destruct Hcase as [(Hneg & _)|(_ & Hip' & Hins')]; [lia|].
  split.
  - rewrite Hip'. apply wrap_int_small. lia.
  - rewrite Hins'. rewrite Nat2Z.id.
    rewrite take_app_length, drop_app_length. reflexivity.
Qed.

(** C4. The cursor is set before an instruction [x] of a block, then two
    instructions are inserted.  Each insertion lands at the cursor index
    and moves the cursor on by one, so the block reads [..., a, b, x, ...].
    First for [insert] on two instruction objects, then for any two
    instruction-construction methods that return. *)
Theorem insert_before_order (s : State) (x : inst_ref) (ix : Instruction)
  (cb : block_ref) (blk : BasicBlock) (pre post : list inst_ref) :
  insts (mem s) !! x = Some ix ->
  Parent_ (Base ix) = Some cb ->
  blocks (mem s) !! cb = Some blk ->
  Instructions blk = pre ++ x :: post ->
  x ∉ pre ->
  Z.of_nat (length pre) + 2 < 2 ^ 63 ->
  (forall a b : inst_ref,
     is_Some (insts (mem s) !! a) -> is_Some (insts (mem s) !! b) ->
     exists s1 s2 s',
       SetInsertPointBefore (Some x) s = Ok (tt, s1) /\
       insert a s1 = Ok (tt, s2) /\
       insert b s2 = Ok (tt, s') /\
       (_ ← SetInsertPointBefore (Some x); _ ← insert a; insert b) s
         = Ok (tt, s') /\
       Instructions_of (mem s1) cb = pre ++ x :: post /\
       insertPoint (bld s1) = Z.of_nat (length pre) /\
       Instructions_of (mem s2) cb = pre ++ a :: x :: post /\
       insertPoint (bld s2) = Z.of_nat (length pre) + 1 /\
       Instructions_of (mem s') cb = pre ++ a :: b :: x :: post /\
       insertPoint (bld s') = Z.of_nat (length pre) + 2) /\
  (forall (c1 c2 : Create) (a b : inst_ref) (s' : State),
     (_ ← SetInsertPointBefore (Some x); a ← call c1; b ← call c2;
      mret (a, b)) s = Ok ((a, b), s') ->
     Instructions_of (mem s') cb = pre ++ a :: b :: x :: post /\
     insertPoint (bld s') = Z.of_nat (length pre) + 2).
Proof.
  intros Hx Hpar Hb Hins Hnin Hsmall.
  pose proof (SetInsertPointBefore_ok s x ix cb blk pre post Hx Hpar Hb Hins Hnin)
    as Hset.
  set (s1 := mkState (set_insertPoint (Z.of_nat (length pre))
                        (set_currentBlock (Some cb) (bld s))) (mem s)) in *.
  assert (Hcur1 : currentBlock (bld s1) = Some cb) by reflexivity.
  assert (Hip1 : insertPoint (bld s1) = Z.of_nat (length pre)) by reflexivity.
  assert (Hins1 : Instructions_of (mem s1) cb = pre ++ x :: post).
  { unfold Instructions_of. cbn [s1 mem]. rewrite Hb. exact Hins. }
  split.
  - intros a b [ia Ha] [ib Hib].
    (* first insertion *)
    pose proof (insert_wp a s1) as Hwa. unfold wp in Hwa.
    assert (Hoka : exists s2, insert a s1 = Ok (tt, s2)).
    { eexists. apply (insert_positional_ok s1 a ia cb blk Hcur1).
      - rewrite Hip1, Hins, length_app. simpl. lia.
      - exact Hb.
      - exact Ha. }
    destruct Hoka as (s2 & Hrun2). rewrite Hrun2 in Hwa.
    destruct (inserted_positional a s1 s2 cb pre (x :: post) Hwa Hcur1 Hip1 Hins1)
      as (Hcur2 & Hip2 & Hins2); [lia|].
    (* second insertion *)
    pose proof (insert_wp b s2) as Hwb. unfold wp in Hwb.
    assert (Hokb : exists s', insert b s2 = Ok (tt, s')).
    { assert (exists blk2, blocks (mem s2) !! cb = Some blk2 /\
                Instructions blk2 = pre ++ a :: x :: post) as (blk2 & Hb2 & Hi2).
      { unfold Instructions_of in Hins2.
        destruct (blocks (mem s2) !! cb) as [blk2|]; [eauto|].
        destruct pre; discriminate. }
      assert (exists ib2, insts (mem s2) !! b = Some ib2) as (ib2 & Hib2).
      { rewrite (insert_positional_ok s1 a ia cb blk Hcur1) in Hrun2.
        - injection Hrun2 as <-. cbn [mem store_inst insts store_block].
          destruct (decide (a = b)) as [->|Hne].
          + rewrite lookup_insert_eq. eauto.
          + rewrite lookup_insert_ne by exact Hne. eauto.
        - rewrite Hip1, Hins, length_app. simpl. lia.
        - exact Hb.
        - exact Ha. }
      eexists. apply (insert_positional_ok s2 b ib2 cb blk2 Hcur2).
      - rewrite Hip2, Hi2, length_app. simpl. lia.
      - exact Hb2.
      - exact Hib2. }
    destruct Hokb as (s' & Hrun'). rewrite Hrun' in Hwb.
    destruct (inserted_positional b s2 s' cb (pre ++ [a]) (x :: post) Hwb Hcur2)
      as (Hcur' & Hip' & Hins').
    { rewrite Hip2, length_app. simpl. lia. }
    { rewrite Hins2, <- app_assoc. reflexivity. }
    { rewrite length_app. simpl. lia. }
    exists s1, s2, s'. split; [exact Hset|]. split; [exact Hrun2|].
    split; [exact Hrun'|]. split.
    { unfold mbind, M_bind. rewrite Hset, Hrun2. exact Hrun'. }
    split; [exact Hins1|]. split; [exact Hip1|]. split; [exact Hins2|].
    split; [exact Hip2|]. split.
    + rewrite Hins', <- app_assoc. reflexivity.
    + rewrite Hip', length_app. simpl. lia.
  - intros c1 c2 a b s' Hrun.
    unfold mbind, M_bind in Hrun. rewrite Hset in Hrun.
    pose proof (inserting_call c1 s1) as Hw1. unfold wp in Hw1.
    destruct (call c1 s1) as [[a' s2]| |]; try discriminate.
    pose proof (inserting_call c2 s2) as Hw2. unfold wp in Hw2.
    destruct (call c2 s2) as [[b' s3]| |]; try discriminate.
    unfold mret, M_ret in Hrun. injection Hrun as -> -> ->.
    destruct (inserted_positional a s1 s2 cb pre (x :: post) Hw1 Hcur1 Hip1 Hins1)
      as (Hcur2 & Hip2 & Hins2); [lia|].
    destruct (inserted_positional b s2 s' cb (pre ++ [a]) (x :: post) Hw2 Hcur2)
      as (Hcur' & Hip' & Hins').
    { rewrite Hip2, length_app. simpl. lia. }
    { rewrite Hins2, <- app_assoc. reflexivity. }
    { rewrite length_app. simpl. lia. }
    split.
    + rewrite Hins', <- app_assoc. reflexivity.
    + rewrite Hip', length_app. simpl. lia.
Qed.

End insertion_order.

(** C4 at work: the cursor is set before the [ret] of block [entry], then
    an [add] and a [mul] are built. *)
Lemma insert_before_order_example :
  let s := state_of entry_with_ret fresh in
  let c1 := Binary MAdd (Some (ConstInt I32 2)) (Some (ConstInt I32 3)) "" in
  let c2 := Binary MMul (Some (InstructionV 1)) (Some (ConstInt I32 4)) "" in
  let s' := state_of (_ ← SetInsertPointBefore (Some 0%nat);
                      _ ← call c1; call c2) s in
  Instructions_of (mem s) 0 = [0%nat] /\
  Instructions_of (mem s') 0 = [1%nat; 2%nat; 0%nat] /\
  insertPoint (bld s') = 2.
Proof.
  intros s c1 c2 s'. split; [vm_compute; reflexivity|].
  refine (proj2 (insert_before_order s 0%nat _ 0%nat _ [] [] _ _ _ _ _ _)
            c1 c2 1%nat 2%nat s' _).
  - vm_compute. reflexivity.
  - vm_compute. reflexivity.
  - vm_compute. reflexivity.
  - vm_compute. reflexivity.
  - apply not_elem_of_nil.
  - vm_compute. reflexivity.
  - vm_compute. reflexivity.
Defined.

(** ** The builder: accumulation of control-flow edges *)

Section edge_accumulation.

Lemma occurrences_app (x : block_ref) (l1 l2 : list block_ref) :
  occurrences x (l1 ++ l2) = (occurrences x l1 + occurrences x l2)%nat.
Proof. unfold occurrences. rewrite filter_app, length_app. reflexivity. Qed.


Lemma wrap_int_le (z : Z) : 0 <= z -> wrap_int z <= z.
Proof.
  intros H. unfold wrap_int.
  pose proof (Z.mod_le (z + 2 ^ 63) (2 ^ 64)) as Hle. lia.
Qed.

Lemma new_inst_run (i : Instruction) (s : State) :
  new_inst i s
  = Ok (new_ref (insts (mem s)),
        mkState (bld s) (store_inst (new_ref (insts (mem s))) i (mem s))).
Proof. unfold new_inst. run_M. reflexivity. Qed.

Lemma new_ref_fresh {A} (m : gmap nat A) : m !! new_ref m = None.
Proof. apply not_elem_of_dom. unfold new_ref. apply is_fresh. Qed.


(** [insert] touches neither adjacency lists nor the other instructions,
    and creates no block. *)
Lemma insert_keeps (r : inst_ref) (s s' : State) (u : unit) :
  insert r s = Ok (u, s') ->
  currentBlock (bld s') = currentBlock (bld s) /\
  is_Some (currentBlock (bld s)) /\
  (forall x, x <> r -> insts (mem s') !! x = insts (mem s) !! x) /\
  (forall b, is_Some (blocks (mem s') !! b) <-> is_Some (blocks (mem s) !! b)) /\
  (forall b, Successors_of (mem s') b = Successors_of (mem s) b) /\
  (forall b, Predecessors_of (mem s') b = Predecessors_of (mem s) b).
Proof.
  unfold insert. run_M.
  destruct (currentBlock (bld s)) as [cb|] eqn:Hcb; [|discriminate].
  assert (Hex : forall (blk blk' : BasicBlock) (h : Heap) (b : block_ref),
            blocks h !! cb = Some blk ->
            is_Some (<[cb := blk']> (blocks h) !! b) <-> is_Some (blocks h !! b)).
  { intros blk blk' h b Hb. destruct (decide (cb = b)) as [<-|Hne].
    - rewrite lookup_insert_eq, Hb. split; eauto.
    - rewrite lookup_insert_ne by exact Hne. reflexivity. }
  destruct (Z_lt_dec (insertPoint (bld s)) 0) as [Hneg|Hpos].
  - unfold AddInstruction, Inst_SetParent. run_M.
    destruct (insts (mem s) !! r) as [i|]; [|discriminate]. run_M.
    cbn [store_inst blocks].
    destruct (blocks (mem s) !! cb) as [blk|] eqn:Hb; [|discriminate]. run_M.
    intros H. injection H as _ <-. cbn [bld mem].
    split; [exact Hcb|]. split; [eauto|]. split.
    { intros x Hx. cbn [store_block store_inst insts].
      rewrite lookup_insert_ne by congruence. reflexivity. }
    split.
    { intros b. cbn [store_block store_inst blocks]. eapply Hex. exact Hb. }
    split.
    + intros b. rewrite Successors_of_store_block.
      destruct (decide (b = cb)) as [->|]; [|reflexivity].
      unfold Successors_of. cbn [store_inst blocks]. rewrite Hb. reflexivity.
    + intros b. rewrite Predecessors_of_store_block.
      destruct (decide (b = cb)) as [->|]; [|reflexivity].
      unfold Predecessors_of. cbn [store_inst blocks]. rewrite Hb. reflexivity.
  - destruct (blocks (mem s) !! cb) as [blk|] eqn:Hb; [|discriminate]. run_M.
    destruct (Nat.ltb (length (Instructions blk))
                (Z.to_nat (insertPoint (bld s)))); [discriminate|].
    unfold Inst_SetParent. run_M. cbn [store_block insts].
    destruct (insts (mem s) !! r) as [i|]; [|discriminate]. run_M.
    intros H. injection H as _ <-. cbn [bld mem set_insertPoint currentBlock].
    split; [exact Hcb|]. split; [eauto|]. split.
    { intros x Hx. cbn [store_block store_inst insts].
      rewrite lookup_insert_ne by congruence. reflexivity. }
    split.
    { intros b. cbn [store_block store_inst blocks]. eapply Hex. exact Hb. }
    split.
    + intros b. unfold Successors_of. cbn [store_inst store_block blocks].
      destruct (decide (b = cb)) as [->|].
      * rewrite lookup_insert_eq, Hb. reflexivity.
      * rewrite lookup_insert_ne by congruence. reflexivity.
    + intros b. unfold Predecessors_of. cbn [store_inst store_block blocks].
      destruct (decide (b = cb)) as [->|].
      * rewrite lookup_insert_eq, Hb. reflexivity.
      * rewrite lookup_insert_ne by congruence. reflexivity.
Qed.

(** With a usable cursor, [insert] returns. *)
Lemma insert_total (r : inst_ref) (s : State) :
  ready s -> is_Some (insts (mem s) !! r) ->
  exists s', insert r s = Ok (tt, s').
Proof.
  intros (cb & Hcb & [blk Hb] & Hip) [i Hi].
  assert (Instructions_of (mem s) cb = Instructions blk) as Hl
    by (unfold Instructions_of; rewrite Hb; reflexivity).
  rewrite Hl in Hip.
  destruct (Z_lt_dec (insertPoint (bld s)) 0) as [Hneg|Hpos].
  - eexists. apply (insert_append_ok s r i cb blk Hcb Hneg Hb Hi).
  - eexists. apply (insert_positional_ok s r i cb blk Hcb); [lia|exact Hb|exact Hi].
Qed.

(** After [insert] has returned, the cursor is usable. *)
Lemma insert_ready (r : inst_ref) (s s' : State) (u : unit) :
  insert r s = Ok (u, s') -> ready s'.
Proof.
  intros H. pose proof (insert_wp r s) as Hw. unfold wp in Hw.
  rewrite H in Hw. destruct Hw as (cb & Hcb & Hcb' & _ & Hcase).
  cbv zeta in Hcase. exists cb. split; [exact Hcb'|].
  assert (Hne : forall l : list inst_ref,
            Instructions_of (mem s') cb = l -> (0 < length l)%nat ->
            is_Some (blocks (mem s') !! cb)).
  { intros l Hl Hpos. unfold Instructions_of in Hl.
    destruct (blocks (mem s') !! cb); [eauto|]. subst l. simpl in Hpos. lia. }
  destruct Hcase as [(Hneg & Hip & Hl)|(Hk & Hip & Hl)].
  - split.
    + apply (Hne _ Hl). rewrite length_app. simpl. lia.
    + rewrite Hip. lia.
  - split.
    + apply (Hne _ Hl). rewrite !length_app. simpl. lia.
    + rewrite Hip, Hl. rewrite !length_app, length_take, length_drop. simpl.
      pose proof (wrap_int_le (insertPoint (bld s) + 1)). lia.
Qed.

Lemma current_run (s : State) (cb : block_ref) :
  currentBlock (bld s) = Some cb -> current s = Ok (cb, s).
Proof. intros H. unfold current. run_M. rewrite H. reflexivity. Qed.

End edge_accumulation.

Section edge_steps.

Lemma occurrences_singleton (b x src : block_ref) :
  replicate (occurrences b [x]) src = if decide (b = x) then [src] else [].
Proof.
  unfold occurrences. rewrite filter_cons, filter_nil.
  destruct (decide (x = b)) as [->|Hne].
  - destruct (decide (b = b)); [reflexivity|congruence].
  - destruct (decide (b = x)); [congruence|reflexivity].
Qed.

Lemma keeps_refl (i : Instruction) : keeps i i.
Proof. split; [reflexivity|]. intros c d cs H. eauto. Qed.

Lemma keeps_trans (i1 i2 i3 : Instruction) :
  keeps i1 i2 -> keeps i2 i3 -> keeps i1 i3.
Proof.
  intros (Hb1 & Hs1) (Hb2 & Hs2). split; [congruence|].
  intros c d cs H. destruct (Hs1 c d cs H) as (cs' & H'). eauto.
Qed.

Lemma store_kept_refl (s : State) : store_kept s s.
Proof.
  split; [|reflexivity]. intros x i Hx. exists i. split; [exact Hx|].
  apply keeps_refl.
Qed.

Lemma store_kept_trans (s1 s2 s3 : State) :
  store_kept s1 s2 -> store_kept s2 s3 -> store_kept s1 s3.
Proof.
  intros (Hi1 & Hb1) (Hi2 & Hb2). split.
  - intros x i Hx. destruct (Hi1 x i Hx) as (i' & Hx' & Hk).
    destruct (Hi2 x i' Hx') as (i'' & Hx'' & Hk').
    exists i''. split; [exact Hx''|]. eapply keeps_trans; eassumption.
  - intros b. rewrite Hb2. apply Hb1.
Qed.

Lemma adj_step_trans (src : block_ref) (su1 pr1 su2 pr2 : list block_ref)
  (s1 s2 s3 : State) :
  adj_step src su1 pr1 s1 s2 -> adj_step src su2 pr2 s2 s3 ->
  adj_step src (su1 ++ su2) (pr1 ++ pr2) s1 s3.
Proof.
  intros (Hb1 & Hi1 & He1 & Hl1 & Hs1 & Hd1) (Hb2 & Hi2 & He2 & Hl2 & Hs2 & Hd2).
  split; [congruence|]. split; [congruence|]. split.
  { intros b. rewrite He2. apply He1. }
  split.
  { intros b. rewrite Hl2. apply Hl1. }
  split.
  - intros b. rewrite Hs2, Hs1, <- app_assoc.
    destruct (decide (b = src)); [reflexivity|].
    rewrite !app_nil_r. reflexivity.
  - intros b. rewrite Hd2, Hd1, <- app_assoc, occurrences_app, replicate_add.
    reflexivity.
Qed.

Lemma is_Some_store_block (h : Heap) (x b : block_ref) (blk blk' : BasicBlock) :
  blocks h !! x = Some blk ->
  is_Some (blocks (store_block x blk' h) !! b) <-> is_Some (blocks h !! b).
Proof.
  intros Hx. cbn [store_block blocks]. destruct (decide (x = b)) as [<-|Hne].
  - rewrite lookup_insert_eq, Hx. split; eauto.
  - rewrite lookup_insert_ne by exact Hne. reflexivity.
Qed.

Lemma append_Successors_run (src : block_ref) (l : list block_ref) (s : State) :
  is_Some (blocks (mem s) !! src) ->
  exists s', append_Successors src l s = Ok (tt, s') /\ adj_step src l [] s s'.
Proof.
  intros [blk Hx]. eexists. split; [apply (append_Successors_ok s src l blk Hx)|].
  unfold adj_step. cbn [bld mem]. split; [reflexivity|]. split; [reflexivity|]. split.
  { intros b. eapply is_Some_store_block. exact Hx. }
  split.
  { intros b. rewrite Instructions_of_store_block.
    destruct (decide (b = src)) as [->|]; [|reflexivity].
    unfold Instructions_of. rewrite Hx. reflexivity. }
  split.
  - intros b. rewrite Successors_of_store_block.
    destruct (decide (b = src)) as [->|].
    + unfold Successors_of. rewrite Hx. reflexivity.
    + rewrite app_nil_r. reflexivity.
  - intros b. rewrite Predecessors_of_store_block. simpl. rewrite app_nil_r.
    destruct (decide (b = src)) as [->|]; [|reflexivity].
    unfold Predecessors_of. rewrite Hx. reflexivity.
Qed.

Lemma append_Predecessors_run (src x : block_ref) (s : State) :
  is_Some (blocks (mem s) !! x) ->
  exists s', append_Predecessors x src s = Ok (tt, s') /\
             adj_step src [] [x] s s'.
Proof.
  intros [blk Hx]. eexists.
  split; [apply (append_Predecessors_ok s x src blk Hx)|].
  unfold adj_step. cbn [bld mem]. split; [reflexivity|]. split; [reflexivity|]. split.
  { intros b. eapply is_Some_store_block. exact Hx. }
  split.
  { intros b. rewrite Instructions_of_store_block.
    destruct (decide (b = x)) as [->|]; [|reflexivity].
    unfold Instructions_of. rewrite Hx. reflexivity. }
  split.
  - intros b. rewrite Successors_of_store_block.
    destruct (decide (b = src)); rewrite app_nil_r;
      (destruct (decide (b = x)) as [->|]; [|reflexivity]);
      unfold Successors_of; rewrite Hx; reflexivity.
  - intros b. rewrite Predecessors_of_store_block. unfold occurrences.
    rewrite filter_cons, filter_nil.
    destruct (decide (b = x)) as [->|Hne].
    + destruct (decide (x = x)); [|congruence].
      unfold Predecessors_of. rewrite Hx. reflexivity.
    + destruct (decide (x = b)); [congruence|]. simpl.
      rewrite app_nil_r. reflexivity.
Qed.

Lemma adj_step_ready (src : block_ref) (su pr : list block_ref) (s s' : State) :
  adj_step src su pr s s' -> ready s -> ready s'.
Proof.
  intros (Hb & _ & He & Hl & _) (cb & Hcb & Hex & Hip).
  exists cb. rewrite Hb, He, Hl. auto.
Qed.

(** The common prefix of the edge constructions: the new instruction
    enters the store and is inserted. *)
Lemma emit_run (i : Instruction) (s : State) (src : block_ref) :
  ready s -> currentBlock (bld s) = Some src ->
  exists r s1 s2,
    new_inst i s = Ok (r, s1) /\ insert r s1 = Ok (tt, s2) /\
    ready s2 /\ currentBlock (bld s2) = Some src /\
    store_kept s s2 /\
    (forall b, Successors_of (mem s2) b = Successors_of (mem s) b) /\
    (forall b, Predecessors_of (mem s2) b = Predecessors_of (mem s) b).
Proof.
  intros Hready Hcur.
  set (r := new_ref (insts (mem s))).
  set (s1 := mkState (bld s) (store_inst r i (mem s))).
  assert (Hready1 : ready s1).
  { destruct Hready as (cb & Hcb & Hex & Hip). exists cb. auto. }
  destruct (insert_total r s1 Hready1) as (s2 & Hins).
  { cbn [s1 mem store_inst insts]. rewrite lookup_insert_eq. eauto. }
  exists r, s1, s2. split; [apply new_inst_run|]. split; [exact Hins|].
  split; [eapply insert_ready; exact Hins|].
  destruct (insert_keeps r s1 s2 tt Hins) as (Hc & _ & Hx & He & Hs & Hp).
  split; [rewrite Hc; exact Hcur|]. split.
  { split.
    - intros x ix Hix. exists ix. split; [|apply keeps_refl].
      assert (x <> r) as Hne.
      { intros ->. unfold r in Hix. rewrite new_ref_fresh in Hix.
        discriminate. }
      rewrite (Hx x Hne). cbn [s1 mem store_inst insts].
      rewrite lookup_insert_ne by congruence. exact Hix.
    - intros b. rewrite He. reflexivity. }
  split; [exact Hs|exact Hp].
Qed.

(** An insertion followed by the adjacency updates for the targets [ts]. *)
Lemma edge_effect_intro (src : block_ref) (ts : list block_ref)
  (s s2 s3 : State) :
  currentBlock (bld s) = Some src ->
  currentBlock (bld s2) = Some src ->
  store_kept s s2 ->
  (forall b, Successors_of (mem s2) b = Successors_of (mem s) b) ->
  (forall b, Predecessors_of (mem s2) b = Predecessors_of (mem s) b) ->
  adj_step src ts ts s2 s3 ->
  edge_effect src ts s s3.
Proof.
  intros Hcur Hcur2 Hkept Hs2 Hp2 (Hb & Hi & He & _ & Hs & Hp).
  split; [congruence|]. split.
  { eapply store_kept_trans; [exact Hkept|]. split.
    - intros x ix Hix. exists ix. split; [rewrite Hi; exact Hix|apply keeps_refl].
    - exact He. }
  split.
  - intros b. rewrite Hs, Hs2. reflexivity.
  - intros b. rewrite Hp, Hp2. reflexivity.
Qed.

Lemma CreateBr_run (src t : block_ref) (s : State) :
  ready s -> currentBlock (bld s) = Some src ->
  is_Some (blocks (mem s) !! t) ->
  exists r s', CreateBr (Some t) s = Ok (r, s') /\ ready s' /\
               edge_effect src [t] s s'.
Proof.
  intros Hready Hcur Ht.
  destruct (emit_run (on_base (set_Op OpBr) (zero (BrInst (Some t)))) s src
              Hready Hcur)
    as (r & s1 & s2 & Hnew & Hins & Hready2 & Hcur2 & Hkept & Hs2 & Hp2).
  assert (Hsrc2 : is_Some (blocks (mem s2) !! src)).
  { destruct Hready2 as (cb & Hcb & Hex & _). congruence. }
  destruct (append_Successors_run src [t] s2 Hsrc2) as (s3 & Hsu & Hadj1).
  assert (Ht3 : is_Some (blocks (mem s3) !! t)).
  { destruct Hadj1 as (_ & _ & He & _). apply He. apply Hkept. exact Ht. }
  destruct (append_Predecessors_run src t s3 Ht3) as (s4 & Hpr & Hadj2).
  pose proof (adj_step_trans _ _ _ _ _ _ _ _ Hadj1 Hadj2) as Hadj.
  exists r, s4. split.
  - unfold CreateBr, mbind, M_bind. cbn beta iota.
    rewrite Hnew. cbn beta iota. rewrite Hins. cbn beta iota.
    rewrite (current_run s2 src Hcur2). cbn beta iota delta [lift deref].
    rewrite Hsu. cbn beta iota. rewrite Hpr. reflexivity.
  - split; [eapply adj_step_ready; eassumption|].
    eapply edge_effect_intro; eassumption.
Qed.

Lemma CreateCondBr_run (src t f : block_ref) (c : option Value) (s : State) :
  ready s -> currentBlock (bld s) = Some src ->
  is_Some (blocks (mem s) !! t) -> is_Some (blocks (mem s) !! f) ->
  exists r s', CreateCondBr c (Some t) (Some f) s = Ok (r, s') /\ ready s' /\
               edge_effect src [t; f] s s'.
Proof.
  intros Hready Hcur Ht Hf.
  destruct (emit_run (on_base (set_Op OpCondBr)
                        (zero (CondBrInst c (Some t) (Some f)))) s src
              Hready Hcur)
    as (r & s1 & s2 & Hnew & Hins & Hready2 & Hcur2 & Hkept & Hs2 & Hp2).
  assert (Hsrc2 : is_Some (blocks (mem s2) !! src)).
  { destruct Hready2 as (cb & Hcb & Hex & _). congruence. }
  destruct (append_Successors_run src [t; f] s2 Hsrc2) as (s3 & Hsu & Hadj1).
  assert (Ht3 : is_Some (blocks (mem s3) !! t)).
  { destruct Hadj1 as (_ & _ & He & _). apply He. apply Hkept. exact Ht. }
  destruct (append_Predecessors_run src t s3 Ht3) as (s4 & Hpr & Hadj2).
  assert (Hf4 : is_Some (blocks (mem s4) !! f)).
  { destruct Hadj2 as (_ & _ & He2 & _). apply He2.
    destruct Hadj1 as (_ & _ & He & _). apply He. apply Hkept. exact Hf. }
  destruct (append_Predecessors_run src f s4 Hf4) as (s5 & Hpr2 & Hadj3).
  pose proof (adj_step_trans _ _ _ _ _ _ _ _ Hadj1
                (adj_step_trans _ _ _ _ _ _ _ _ Hadj2 Hadj3)) as Hadj.
  exists r, s5. split.
  - unfold CreateCondBr, mbind, M_bind. cbn beta iota.
    rewrite Hnew. cbn beta iota. rewrite Hins. cbn beta iota.
    rewrite (current_run s2 src Hcur2). cbn beta iota delta [lift deref].
    rewrite Hsu. cbn beta iota. rewrite Hpr. cbn beta iota. rewrite Hpr2.
    reflexivity.
  - split.
    + eapply adj_step_ready; [exact Hadj|exact Hready2].
    + eapply edge_effect_intro; eassumption.
Qed.

Lemma CreateSwitch_run (src d : block_ref) (c : option Value) (n : Z)
  (s : State) :
  ready s -> currentBlock (bld s) = Some src -> 0 <= n ->
  is_Some (blocks (mem s) !! d) ->
  exists r s', CreateSwitch c (Some d) n s = Ok (r, s') /\ ready s' /\
               edge_effect src [d] s s'.
Proof.
  intros Hready Hcur Hn Hd.
  destruct (emit_run (on_base (set_Op OpSwitch)
                        (zero (SwitchInst c (Some d) []))) s src Hready Hcur)
    as (r & s1 & s2 & Hnew & Hins & Hready2 & Hcur2 & Hkept & Hs2 & Hp2).
  assert (Hsrc2 : is_Some (blocks (mem s2) !! src)).
  { destruct Hready2 as (cb & Hcb & Hex & _). congruence. }
  destruct (append_Successors_run src [d] s2 Hsrc2) as (s3 & Hsu & Hadj1).
  assert (Ht3 : is_Some (blocks (mem s3) !! d)).
  { destruct Hadj1 as (_ & _ & He & _). apply He. apply Hkept. exact Hd. }
  destruct (append_Predecessors_run src d s3 Ht3) as (s4 & Hpr & Hadj2).
  pose proof (adj_step_trans _ _ _ _ _ _ _ _ Hadj1 Hadj2) as Hadj.
  exists r, s4. split.
  - unfold CreateSwitch, mbind, M_bind.
    destruct (Z_lt_dec n 0) as [Hneg|_]; [lia|].
    cbn beta iota delta [mret M_ret].
    rewrite Hnew. cbn beta iota. rewrite Hins. cbn beta iota.
    rewrite (current_run s2 src Hcur2). cbn beta iota delta [lift deref].
    rewrite Hsu. cbn beta iota. rewrite Hpr. reflexivity.
  - split; [eapply adj_step_ready; eassumption|].
    eapply edge_effect_intro; eassumption.
Qed.

Lemma AddCase_run (src t : block_ref) (sw : inst_ref)
  (v : option (BaseValue * Z)) (s : State) :
  switch_at (mem s) src sw ->
  is_Some (blocks (mem s) !! src) -> is_Some (blocks (mem s) !! t) ->
  exists s', AddCase (Some sw) v (Some t) s = Ok (tt, s') /\
             (ready s -> ready s') /\ edge_effect src [t] s s'.
Proof.
  intros (i & c & d & cs & Hi & Hst & Hpar) Hsrc Ht.
  set (i' := mkInstruction (Base i)
               (SwitchInst c d (cs ++ [mkSwitchCase v (Some t)]))).
  set (s0 := mkState (bld s) (store_inst sw i' (mem s))).
  destruct (append_Successors_run src [t] s0 Hsrc) as (s1 & Hsu & Hadj1).
  assert (Ht1 : is_Some (blocks (mem s1) !! t)).
  { destruct Hadj1 as (_ & _ & He & _). apply He. exact Ht. }
  destruct (append_Predecessors_run src t s1 Ht1) as (s2 & Hpr & Hadj2).
  pose proof (adj_step_trans _ _ _ _ _ _ _ _ Hadj1 Hadj2) as Hadj.
  exists s2. split.
  - unfold AddCase, append_Case. run_M. rewrite Hi. run_M. rewrite Hst.
    run_M. cbn [Base Parent_]. rewrite Hpar.
    fold i'. fold s0. unfold mbind, M_bind in *.
    rewrite Hsu. exact Hpr.
  - split.
    + intros Hready. eapply adj_step_ready; [exact Hadj|].
      destruct Hready as (cb & Hcb & Hex & Hip). exists cb. auto.
    + destruct Hadj as (Hb & Hin & He & _ & Hs & Hp).
      split; [rewrite Hb; reflexivity|]. split.
      { split.
        - intros x ix Hix. rewrite Hin. cbn [s0 mem store_inst insts].
          destruct (decide (sw = x)) as [<-|Hne].
          + rewrite lookup_insert_eq. exists i'. split; [reflexivity|].
            assert (ix = i) as -> by congruence.
            split; [reflexivity|]. intros c0 d0 cs0 Hst0.
            rewrite Hst in Hst0. injection Hst0 as <- <- <-. eauto.
          + rewrite lookup_insert_ne by exact Hne. exists ix.
            split; [exact Hix|apply keeps_refl].
        - exact He. }
      split; [exact Hs|exact Hp].
Qed.

Lemma issue_run (src : block_ref) (e : Edge) (s : State) :
  ready s -> currentBlock (bld s) = Some src ->
  well_formed (mem s) src e ->
  exists s', issue e s = Ok (tt, s') /\ ready s' /\
             edge_effect src (targets e) s s'.
Proof.
  intros Hready Hcur [Hts Hwf].
  assert (Hsrc : is_Some (blocks (mem s) !! src)).
  { destruct Hready as (cb & Hcb & Hex & _). congruence. }
  destruct e; cbn [issue targets] in *.
  - inversion Hts as [|? ? Ht _]; subst.
    destruct (CreateBr_run src target s Hready Hcur Ht) as (r & s' & Hrun & H).
    exists s'. split; [|exact H]. unfold mbind, M_bind. rewrite Hrun.
    reflexivity.
  - inversion Hts as [|? ? Ht Hts']; subst.
    inversion Hts' as [|? ? Hf _]; subst.
    destruct (CreateCondBr_run src trueBlock falseBlock cond s Hready Hcur Ht Hf)
      as (r & s' & Hrun & H).
    exists s'. split; [|exact H]. unfold mbind, M_bind. rewrite Hrun.
    reflexivity.
  - inversion Hts as [|? ? Hd _]; subst.
    destruct (CreateSwitch_run src defaultBlock cond numCases s Hready Hcur
                Hwf Hd) as (r & s' & Hrun & H).
    exists s'. split; [|exact H]. unfold mbind, M_bind. rewrite Hrun.
    reflexivity.
  - inversion Hts as [|? ? Ht _]; subst.
    destruct (AddCase_run src block sw val s Hwf Hsrc Ht)
      as (s' & Hrun & Hr & Heff).
    exists s'. split; [exact Hrun|]. split; [apply Hr; exact Hready|exact Heff].
Qed.

Lemma edge_effect_nil (src : block_ref) (s : State) : edge_effect src [] s s.
Proof.
  split; [reflexivity|]. split; [apply store_kept_refl|]. split.
  - intros b. destruct (decide (b = src)); rewrite app_nil_r; reflexivity.
  - intros b. simpl. rewrite app_nil_r. reflexivity.
Qed.

Lemma edge_effect_trans (src : block_ref) (ts1 ts2 : list block_ref)
  (s1 s2 s3 : State) :
  edge_effect src ts1 s1 s2 -> edge_effect src ts2 s2 s3 ->
  edge_effect src (ts1 ++ ts2) s1 s3.
Proof.
  intros (Hc1 & Hk1 & Hs1 & Hd1) (Hc2 & Hk2 & Hs2 & Hd2).
  split; [congruence|]. split; [eapply store_kept_trans; eassumption|]. split.
  - intros b. rewrite Hs2, Hs1, <- app_assoc.
    destruct (decide (b = src)); [reflexivity|].
    rewrite !app_nil_r. reflexivity.
  - intros b. rewrite Hd2, Hd1, <- app_assoc, occurrences_app, replicate_add.
    reflexivity.
Qed.

Lemma well_formed_kept (src : block_ref) (e : Edge) (s s' : State) :
  store_kept s s' -> well_formed (mem s) src e -> well_formed (mem s') src e.
Proof.
  intros (Hi & Hb) (Hts & Hwf). split.
  - eapply Forall_impl; [exact Hts|]. intros t Ht. apply Hb. exact Ht.
  - destruct e; try exact Hwf.
    destruct Hwf as (i & c & d & cs & Hsw & Hst & Hpar).
    destruct (Hi sw i Hsw) as (i' & Hsw' & Hbase & Hkeep).
    destruct (Hkeep c d cs Hst) as (cs' & Hst').
    exists i', c, d, cs'. split; [exact Hsw'|]. split; [exact Hst'|].
    rewrite Hbase. exact Hpar.
Qed.

Lemma issue_all_run (src : block_ref) (es : list Edge) :
  forall s,
    ready s -> currentBlock (bld s) = Some src ->
    Forall (well_formed (mem s) src) es ->
    exists s', issue_all es s = Ok (tt, s') /\ ready s' /\
               edge_effect src (concat (map targets es)) s s'.
Proof.
  induction es as [|e es IH]; intros s Hready Hcur Hwf; cbn [issue_all].
  - exists s. split; [reflexivity|]. split; [exact Hready|].
    apply edge_effect_nil.
  - inversion Hwf as [|? ? He Hes]; subst.
    destruct (issue_run src e s Hready Hcur He) as (s1 & Hrun & Hready1 & Heff).
    destruct (IH s1 Hready1) as (s' & Hrun' & Hready' & Heff').
    + destruct Heff as (Hc & _). congruence.
    + eapply Forall_impl; [exact Hes|]. intros e' He'.
      eapply well_formed_kept; [|exact He']. apply Heff.
    + exists s'. split.
      * unfold mbind, M_bind. rewrite Hrun. exact Hrun'.
      * split; [exact Hready'|]. simpl.
        eapply edge_effect_trans; eassumption.
Qed.

End edge_steps.

Section add_case.

(** C9. [AddCase] appends exactly one entry to the case list of the
    switch.  If the switch has no parent block, nothing else changes: the
    store of blocks, and with it every successor and predecessor list, is
    the one before the call.  If the switch has a parent block, the target
    is appended to the successors of the parent and the parent to the
    predecessors of the target, and no other adjacency entry changes. *)
Theorem AddCase_spec (s : State) (sw : inst_ref) (i : Instruction)
  (cond : option Value) (def : option block_ref) (cases : list SwitchCase)
  (val : option (BaseValue * Z)) (block : option block_ref) :
  insts (mem s) !! sw = Some i ->
  Struct i = SwitchInst cond def cases ->
  let i' := mkInstruction (Base i)
              (SwitchInst cond def (cases ++ [mkSwitchCase val block])) in
  (Parent_ (Base i) = None ->
   exists s', AddCase (Some sw) val block s = Ok (tt, s') /\
     bld s' = bld s /\
     insts (mem s') = <[sw := i']> (insts (mem s)) /\
     blocks (mem s') = blocks (mem s) /\
     (forall b, Successors_of (mem s') b = Successors_of (mem s) b) /\
     (forall b, Predecessors_of (mem s') b = Predecessors_of (mem s) b)) /\
  (forall parent target : block_ref,
     Parent_ (Base i) = Some parent -> block = Some target ->
     is_Some (blocks (mem s) !! parent) ->
     is_Some (blocks (mem s) !! target) ->
     exists s', AddCase (Some sw) val block s = Ok (tt, s') /\
       bld s' = bld s /\
       insts (mem s') = <[sw := i']> (insts (mem s)) /\
       (forall b, Successors_of (mem s') b
          = Successors_of (mem s) b
            ++ if decide (b = parent) then [target] else []) /\
       (forall b, Predecessors_of (mem s') b
          = Predecessors_of (mem s) b
            ++ if decide (b = target) then [parent] else [])).
Proof.
  intros Hi Hst i'. split.
  - intros Hpar. eexists. split.
    + unfold AddCase, append_Case. run_M. rewrite Hi. run_M. rewrite Hst.
      run_M. cbn [Base Parent_]. rewrite Hpar. reflexivity.
    + cbn [bld mem insts blocks store_inst]. auto.
  - intros parent target Hpar -> Hp Ht.
    set (s0 := mkState (bld s) (store_inst sw i' (mem s))).
    destruct (append_Successors_run parent [target] s0 Hp) as (s1 & Hsu & Hadj1).
    assert (Ht1 : is_Some (blocks (mem s1) !! target)).
    { destruct Hadj1 as (_ & _ & He & _). apply He. exact Ht. }
    destruct (append_Predecessors_run parent target s1 Ht1)
      as (s2 & Hpr & Hadj2).
    destruct (adj_step_trans _ _ _ _ _ _ _ _ Hadj1 Hadj2)
      as (Hb & Hin & _ & _ & Hs & Hp2).
    exists s2. split.
    + unfold AddCase, append_Case. run_M. rewrite Hi. run_M. rewrite Hst.
      run_M. cbn [Base Parent_]. rewrite Hpar.
      fold i'. fold s0. unfold mbind, M_bind in *.
      rewrite Hsu. exact Hpr.
    + split; [exact Hb|]. split; [exact Hin|]. split; [exact Hs|].
      intros b. rewrite Hp2. f_equal. apply occurrences_singleton.
Qed.

End add_case.

Section edge_count.






End edge_count.



(** ** The builder and the printer *)

Section printing.
Variable fmt_g : Z -> string.

(** The object handed to [insert] gets its parent set and is otherwise the
    same; functions are not touched. *)
Lemma insert_object (r : inst_ref) (s s' : State) (u : unit) (i : Instruction) :
  insert r s = Ok (u, s') ->
  insts (mem s) !! r = Some i ->
  insts (mem s') !! r
    = Some (mkInstruction (SetParent (currentBlock (bld s)) (Base i)) (Struct i)) /\
  funcs (mem s') = funcs (mem s) /\
  nameCounter (bld s') = nameCounter (bld s).
Proof.
  intros H Hi. revert H. unfold insert. run_M.
  destruct (currentBlock (bld s)) as [cb|] eqn:Hcb; [|discriminate].
  destruct (Z_lt_dec (insertPoint (bld s)) 0) as [Hneg|Hpos].
  - unfold AddInstruction, Inst_SetParent. run_M. rewrite Hi. run_M.
    cbn [store_inst blocks].
    destruct (blocks (mem s) !! cb) as [blk|]; [|discriminate]. run_M.
    intros H. injection H as _ <-. cbn [mem store_block store_inst insts funcs bld].
    rewrite lookup_insert_eq. auto.
  - destruct (blocks (mem s) !! cb) as [blk|]; [|discriminate]. run_M.
    destruct (Nat.ltb (length (Instructions blk))
                (Z.to_nat (insertPoint (bld s)))); [discriminate|].
    unfold Inst_SetParent. run_M. cbn [store_block insts]. rewrite Hi. run_M.
    intros H. injection H as _ <-.
    cbn [mem store_block store_inst insts funcs bld set_insertPoint nameCounter].
    rewrite lookup_insert_eq. auto.
Qed.




End printing.



(** C9 at work: a case on a switch outside any block leaves the blocks
    alone; a case on the switch of block [entry] (handle 0), to block
    [merge] (handle 1), records the edge. *)
Lemma AddCase_spec_example :
  let s := with_loose_switch in
  let v := Some (mkBaseValue "" (Some I32), 0) in
  (exists s', AddCase (Some 1%nat) v (Some 1%nat) s = Ok (tt, s') /\
     blocks (mem s') = blocks (mem s)) /\
  (exists s', AddCase (Some 0%nat) v (Some 1%nat) s = Ok (tt, s') /\
     Successors_of (mem s') 0 = [2%nat; 1%nat] /\
     Predecessors_of (mem s') 1 = [0%nat]).
Proof.
  intros s v. split.
  - assert (exists i cond def cases, insts (mem s) !! 1%nat = Some i /\
              Struct i = SwitchInst cond def cases /\ Parent_ (Base i) = None)
      as (i & cond & def & cases & Hi & Hst & Hpar).
    { do 4 eexists. split; [vm_compute; reflexivity|]. split; reflexivity. }
    destruct (proj1 (AddCase_spec s 1%nat i cond def cases v (Some 1%nat) Hi Hst)
                Hpar) as (s' & Hrun & _ & _ & Hblocks & _).
    exists s'. split; [exact Hrun|exact Hblocks].
  - assert (exists i cond def cases, insts (mem s) !! 0%nat = Some i /\
              Struct i = SwitchInst cond def cases /\
              Parent_ (Base i) = Some 0%nat)
      as (i & cond & def & cases & Hi & Hst & Hpar).
    { do 4 eexists. split; [vm_compute; reflexivity|]. split; reflexivity. }
    destruct (proj2 (AddCase_spec s 0%nat i cond def cases v (Some 1%nat) Hi Hst)
                0%nat 1%nat Hpar eq_refl)
      as (s' & Hrun & _ & _ & Hs & Hp).
    + vm_compute. eexists. reflexivity.
    + vm_compute. eexists. reflexivity.
    + exists s'. split; [exact Hrun|]. split.
      * rewrite Hs. vm_compute. reflexivity.
      * rewrite Hp. vm_compute. reflexivity.
Defined.

(** ** [Equal] as a relation on types *)

Section type_relation.

(** Induction on a type tree, with the property available for the types
    held in the fields of interface type. *)
Lemma Ty_nested_ind (P : Ty -> Prop) :
  P VoidType ->
  (forall w s, P (IntType w s)) ->
  (forall w, P (FloatType w)) ->
  (forall e a, (forall t, e = Some t -> P t) -> P (PointerType e a)) ->
  (forall e n, (forall t, e = Some t -> P t) -> P (ArrayType e n)) ->
  (forall n fs p, Forall (fun f => forall t, f = Some t -> P t) fs ->
                  P (StructType n fs p)) ->
  (forall r ps v, (forall t, r = Some t -> P t) ->
                  Forall (fun f => forall t, f = Some t -> P t) ps ->
                  P (FunctionType r ps v)) ->
  (forall e n s, (forall t, e = Some t -> P t) -> P (VectorType e n s)) ->
  P LabelType ->
  forall t, P t.
Proof.
  intros HV HI HF HP HA HS HFn HVe HL.
  fix IH 1. intros t.
  assert (opt : forall o : option Ty,
            match o with Some t1 => P t1 | None => Logic.True end ->
            forall t1, o = Some t1 -> P t1).
  { intros [t1|] H t2 E; [injection E as <-; exact H | discriminate]. }
  destruct t as [| | |e a|e n|n fs p|r ps v|e n s|].
  - exact HV.
  - apply HI.
  - apply HF.
  - apply HP, opt. destruct e; [apply IH | exact I].
  - apply HA, opt. destruct e; [apply IH | exact I].
  - apply HS. induction fs as [|f fs IHfs]; constructor; [|exact IHfs].
    apply opt. destruct f; [apply IH | exact I].
  - apply HFn.
    + apply opt. destruct r; [apply IH | exact I].
    + induction ps as [|f ps IHps]; constructor; [|exact IHps].
      apply opt. destruct f; [apply IH | exact I].
  - apply HVe, opt. destruct e; [apply IH | exact I].
  - exact HL.
Qed.

(** [Equal] never answers true on a nil argument. *)
Lemma Equal_nil (t : Ty) : Equal t None <> Ok true.
Proof. destruct t; simpl; discriminate. Qed.

(** The kind identifies the two types without fields. *)
Lemma Kind_void (o : Ty) : Kind o = VoidKind -> o = VoidType.
Proof. destruct o; simpl; congruence. Qed.

Lemma Kind_label (o : Ty) : Kind o = LabelKind -> o = LabelType.
Proof. destruct o; simpl; congruence. Qed.

Lemma Equal_loop_sym (ts os : list (option Ty)) :
  Forall (fun f => forall t, f = Some t -> symmetric_at t) ts ->
  length ts = length os ->
  Equal_loop Equal ts os = Ok true -> Equal_loop Equal os ts = Ok true.
Proof.
  intros Hall Hlen Hrun.
  apply (Equal_loop_true os ts (eq_sym Hlen)).
  apply (Equal_loop_true ts os Hlen) in Hrun.
  clear Hlen. induction Hrun as [|t o ts os (t1 & -> & Ht) _ IH].
  - constructor.
  - inversion Hall as [|? ? Hsym Hall']; subst. constructor.
    + destruct o as [o1|]; [|destruct (Equal_nil t1 Ht)].
      exists o1. split; [reflexivity|]. exact (Hsym t1 eq_refl o1 Ht).
    + exact (IH Hall').
Qed.

(** X1. [Equal] is symmetric: whenever [t.Equal(o)] returns true, so does
    [o.Equal(t)], for all types, structs named or anonymous included, and
    without any assumption on nil fields. *)
Theorem Equal_symmetric (t o : Ty) :
  Equal t (Some o) = Ok true -> Equal o (Some t) = Ok true.
Proof.
  revert o. change (symmetric_at t).
  induction t as [|w s|w|e a IHe|e n IHe|n fs p IHfs|r ps v IHr IHps|e n s IHe|]
    using Ty_nested_ind; intros o H.
  - simpl in H. injection H as H. apply bool_decide_eq_true in H.
    rewrite (Kind_void o H). reflexivity.
  - destruct o; simpl in H; try discriminate. injection H as H.
    apply andb_true_iff in H as [Hw Hs]. apply Z.eqb_eq in Hw.
    apply eqb_prop in Hs. subst. simpl.
    rewrite Z.eqb_refl, eqb_reflx. reflexivity.
  - destruct o; simpl in H; try discriminate. injection H as H.
    apply Z.eqb_eq in H. subst. simpl. rewrite Z.eqb_refl. reflexivity.
  - destruct o as [| | |e' a'| | | | |]; simpl in H; try discriminate.
    destruct e as [e1|]; [|discriminate].
    destruct (Equal e1 e') as [[|]| |] eqn:E; try discriminate.
    injection H as H. apply Z.eqb_eq in H. subst a'.
    destruct e' as [o1|]; [|destruct (Equal_nil e1 E)].
    simpl. rewrite (IHe e1 eq_refl o1 E), Z.eqb_refl. reflexivity.
  - destruct o as [| | | |e' n'| | | |]; simpl in H; try discriminate.
    destruct (Z.eqb n n') eqn:Hn; [|discriminate]. apply Z.eqb_eq in Hn.
    subst n'. destruct e as [e1|]; [|discriminate].
    destruct e' as [o1|]; [|destruct (Equal_nil e1 H)].
    simpl. rewrite Z.eqb_refl. exact (IHe e1 eq_refl o1 H).
  - destruct o as [| | | | |n' fs' p'| | |]; simpl in H; try discriminate.
    simpl. rewrite (andb_comm (negb (String.eqb n' ""))).
    destruct (negb (String.eqb n "") && negb (String.eqb n' "")).
    + injection H as H. apply String.eqb_eq in H. subst.
      rewrite String.eqb_refl. reflexivity.
    + rewrite (Nat.eqb_sym (length fs') (length fs)).
      destruct (Nat.eqb (length fs) (length fs')) eqn:Hlen;
        [|discriminate]. simpl in *. apply Nat.eqb_eq in Hlen.
      destruct (Equal_loop Equal fs fs') as [[|]| |] eqn:E; try discriminate.
      rewrite (Equal_loop_sym fs fs' IHfs Hlen E).
      injection H as H. apply eqb_prop in H. subst. rewrite eqb_reflx.
      reflexivity.
  - destruct o as [| | | | | |r' ps' v'| |]; simpl in H; try discriminate.
    destruct r as [r1|]; [|discriminate].
    destruct (Equal r1 r') as [[|]| |] eqn:E; try discriminate.
    simpl in H.
    destruct (Bool.eqb v v') eqn:Hv; [|discriminate]. simpl in H.
    destruct (Nat.eqb (length ps) (length ps')) eqn:Hlen; [|discriminate].
    simpl in H. apply eqb_prop in Hv. subst v'. apply Nat.eqb_eq in Hlen.
    destruct r' as [o1|]; [|destruct (Equal_nil r1 E)].
    simpl. rewrite (IHr r1 eq_refl o1 E). simpl.
    rewrite eqb_reflx. simpl. rewrite <- Hlen, Nat.eqb_refl. simpl.
    exact (Equal_loop_sym ps ps' IHps Hlen H).
  - destruct o as [| | | | | | |e' n' s'|]; simpl in H; try discriminate.
    destruct (Z.eqb n n' && Bool.eqb s s') eqn:Hn; [|discriminate].
    apply andb_true_iff in Hn as [Hn Hs]. apply Z.eqb_eq in Hn.
    apply eqb_prop in Hs. subst.
    destruct e as [e1|]; [|discriminate].
    destruct e' as [o1|]; [|destruct (Equal_nil e1 H)].
    simpl. rewrite Z.eqb_refl, eqb_reflx. simpl.
    exact (IHe e1 eq_refl o1 H).
  - simpl in H. injection H as H. apply bool_decide_eq_true in H.
    rewrite (Kind_label o H). reflexivity.
Qed.

Lemma Equal_loop_refl (ts : list (option Ty)) :
  Forall (fun f => forall t, f = Some t -> reflexive_at t) ts ->
  all_some nil_free ts -> Equal_loop Equal ts ts = Ok true.
Proof.
  induction 1 as [|f ts Hf _ IH]; intros Hnil; [reflexivity|].
  destruct f as [t|]; [|destruct Hnil]. destruct Hnil as [Ht Hts].
  simpl. rewrite (Hf t eq_refl Ht). exact (IH Hts).
Qed.

Lemma Equal_refl_all (t : Ty) : reflexive_at t.
Proof.
  induction t as [|w s|w|e a IHe|e n IHe|n fs p IHfs|r ps v IHr IHps|e n s IHe|]
    using Ty_nested_ind; intros Hnil; simpl in Hnil |- *.
  - reflexivity.
  - rewrite Z.eqb_refl, eqb_reflx. reflexivity.
  - rewrite Z.eqb_refl. reflexivity.
  - destruct e as [e1|]; [|destruct Hnil].
    rewrite (IHe e1 eq_refl Hnil), Z.eqb_refl. reflexivity.
  - destruct e as [e1|]; [|destruct Hnil].
    rewrite Z.eqb_refl. exact (IHe e1 eq_refl Hnil).
  - destruct (negb (String.eqb n "") && negb (String.eqb n ""));
      [rewrite String.eqb_refl; reflexivity|].
    rewrite Nat.eqb_refl. simpl.
    rewrite (Equal_loop_refl fs IHfs Hnil), eqb_reflx. reflexivity.
  - destruct Hnil as [Hr Hps]. destruct r as [r1|]; [|destruct Hr].
    rewrite (IHr r1 eq_refl Hr). simpl. rewrite eqb_reflx. simpl.
    rewrite Nat.eqb_refl. simpl. exact (Equal_loop_refl ps IHps Hps).
  - destruct e as [e1|]; [|destruct Hnil].
    rewrite Z.eqb_refl, eqb_reflx. simpl. exact (IHe e1 eq_refl Hnil).
  - reflexivity.
Qed.

(** X2. [Equal] is reflexive on every type that holds no nil in a field of
    interface type: [t.Equal(t)] returns true (and does not panic). *)
Theorem Equal_reflexive (t : Ty) : nil_free t -> Equal t (Some t) = Ok true.
Proof. exact (Equal_refl_all t). Qed.

Lemma Equal_loop_total (ts : list (option Ty)) :
  Forall (fun f => forall t, f = Some t -> total_at t) ts ->
  all_some nil_free ts ->
  forall os, all_some nil_free os -> length ts = length os ->
  exists b, Equal_loop Equal ts os = Ok b.
Proof.
  induction 1 as [|f ts Hf _ IH]; intros Hnil os Hos Hlen.
  - exists true. reflexivity.
  - destruct os as [|o os]; [discriminate|]. injection Hlen as Hlen.
    destruct f as [t|]; [|destruct Hnil]. destruct Hnil as [Ht Hts].
    destruct o as [o1|]; [|destruct Hos]. destruct Hos as [Ho Hos].
    simpl. destruct (Hf t eq_refl Ht o1 Ho) as [[|] ->].
    + exact (IH Hts os Hos Hlen).
    + exists false. reflexivity.
Qed.

(** X3. On two types that hold no nil in a field of interface type,
    [Equal] returns a boolean: it does not dereference nil and the field
    loops do not index out of range. *)
Theorem Equal_returns (t o : Ty) :
  nil_free t -> nil_free o -> exists b, Equal t (Some o) = Ok b.
Proof.
  intros Ht Ho. revert Ht o Ho. change (total_at t).
  induction t as [|w s|w|e a IHe|e n IHe|n fs p IHfs|r ps v IHr IHps|e n s IHe|]
    using Ty_nested_ind; intros Hnil o Ho; simpl in Hnil.
  - simpl. eauto.
  - destruct o; simpl; eauto.
  - destruct o; simpl; eauto.
  - destruct o as [| | |e' a'| | | | |]; simpl; eauto.
    destruct e as [e1|]; [|destruct Hnil]. simpl in Ho.
    destruct e' as [o1|]; [|destruct Ho].
    destruct (IHe e1 eq_refl Hnil o1 Ho) as [[|] ->]; eauto.
  - destruct o as [| | | |e' n'| | | |]; simpl; eauto.
    destruct (Z.eqb n n'); eauto.
    destruct e as [e1|]; [|destruct Hnil]. simpl in Ho.
    destruct e' as [o1|]; [|destruct Ho].
    exact (IHe e1 eq_refl Hnil o1 Ho).
  - destruct o as [| | | | |n' fs' p'| | |]; simpl; eauto.
    destruct (negb (String.eqb n "") && negb (String.eqb n' "")); eauto.
    destruct (Nat.eqb (length fs) (length fs')) eqn:Hlen; simpl; eauto.
    apply Nat.eqb_eq in Hlen. simpl in Ho.
    destruct (Equal_loop_total fs IHfs Hnil fs' Ho Hlen) as [[|] ->]; eauto.
  - destruct o as [| | | | | |r' ps' v'| |]; simpl; eauto.
    destruct Hnil as [Hr Hps]. destruct Ho as [Hr' Hps'].
    destruct r as [r1|]; [|destruct Hr]. destruct r' as [o1|]; [|destruct Hr'].
    destruct (IHr r1 eq_refl Hr o1 Hr') as [b ->].
    destruct (negb b || negb (Bool.eqb v v')); eauto.
    destruct (Nat.eqb (length ps) (length ps')) eqn:Hlen; simpl; eauto.
    apply Nat.eqb_eq in Hlen.
    exact (Equal_loop_total ps IHps Hps ps' Hps' Hlen).
  - destruct o as [| | | | | | |e' n' s'|]; simpl; eauto.
    destruct (Z.eqb n n' && Bool.eqb s s'); eauto.
    destruct e as [e1|]; [|destruct Hnil]. simpl in Ho.
    destruct e' as [o1|]; [|destruct Ho].
    exact (IHe e1 eq_refl Hnil o1 Ho).
  - simpl. eauto.
Qed.

Lemma Equal_loop_identity (ts os : list (option Ty)) :
  Forall (fun f => forall t, f = Some t -> identity_at t) ts ->
  all_some unnamed ts -> all_some unnamed os ->
  Forall2 (fun t o => exists t1, t = Some t1 /\ Equal t1 o = Ok true) ts os ->
  os = ts.
Proof.
  intros Hall Hts Hos HF. revert Hall Hts Hos.
  induction HF as [|t o ts os (t1 & -> & Ht) _ IH]; intros Hall Hts Hos;
    [reflexivity|].
  inversion Hall as [|? ? Hid Hall']; subst.
  destruct Hts as [Ht1 Hts]. destruct o as [o1|]; [|destruct Hos].
  destruct Hos as [Ho1 Hos].
  rewrite (Hid t1 eq_refl Ht1 o1 Ho1 Ht), (IH Hall' Hts Hos). reflexivity.
Qed.

Lemma unnamed_nil_free_all (t : Ty) : unnamed t -> nil_free t.
Proof.
  assert (Hlist : forall fs : list (option Ty),
            Forall (fun f => forall t, f = Some t -> unnamed t -> nil_free t) fs ->
            all_some unnamed fs -> all_some nil_free fs).
  { induction 1 as [|f fs Hf _ IH]; intros H; [exact I|].
    destruct f as [t1|]; [|destruct H]. destruct H as [H1 H2].
    split; [exact (Hf t1 eq_refl H1) | exact (IH H2)]. }
  induction t as [|w s|w|e a IHe|e n IHe|n fs p IHfs|r ps v IHr IHps|e n s IHe|]
    using Ty_nested_ind; intros H; simpl in H |- *; try exact I.
  - destruct e as [e1|]; [exact (IHe e1 eq_refl H) | destruct H].
  - destruct e as [e1|]; [exact (IHe e1 eq_refl H) | destruct H].
  - destruct H as [_ H]. exact (Hlist fs IHfs H).
  - destruct H as [Hr Hps]. split; [|exact (Hlist ps IHps Hps)].
    destruct r as [r1|]; [exact (IHr r1 eq_refl Hr) | destruct Hr].
  - destruct e as [e1|]; [exact (IHe e1 eq_refl H) | destruct H].
Qed.

Lemma Equal_identity_all (t : Ty) : identity_at t.
Proof.
  induction t as [|w s|w|e a IHe|e n IHe|n fs p IHfs|r ps v IHr IHps|e n s IHe|]
    using Ty_nested_ind; intros Ht o Ho H; simpl in Ht.
  - simpl in H. injection H as H. apply bool_decide_eq_true in H.
    exact (Kind_void o H).
  - destruct o; simpl in H; try discriminate. injection H as H.
    apply andb_true_iff in H as [Hw Hs]. apply Z.eqb_eq in Hw.
    apply eqb_prop in Hs. subst. reflexivity.
  - destruct o; simpl in H; try discriminate. injection H as H.
    apply Z.eqb_eq in H. subst. reflexivity.
  - destruct o as [| | |e' a'| | | | |]; simpl in H; try discriminate.
    destruct e as [e1|]; [|destruct Ht]. simpl in Ho.
    destruct e' as [o1|]; [|destruct Ho].
    destruct (Equal e1 (Some o1)) as [[|]| |] eqn:E; try discriminate.
    injection H as H. apply Z.eqb_eq in H.
    rewrite (IHe e1 eq_refl Ht o1 Ho E), H. reflexivity.
  - destruct o as [| | | |e' n'| | | |]; simpl in H; try discriminate.
    destruct (Z.eqb n n') eqn:Hn; [|discriminate]. apply Z.eqb_eq in Hn.
    destruct e as [e1|]; [|destruct Ht]. simpl in Ho.
    destruct e' as [o1|]; [|destruct Ho].
    rewrite (IHe e1 eq_refl Ht o1 Ho H), Hn. reflexivity.
  - destruct o as [| | | | |n' fs' p'| | |]; simpl in H; try discriminate.
    destruct Ht as [-> Hfs]. destruct Ho as [-> Hfs']. simpl in H.
    destruct (Nat.eqb (length fs) (length fs')) eqn:Hlen; [|discriminate].
    simpl in H. apply Nat.eqb_eq in Hlen.
    destruct (Equal_loop Equal fs fs') as [[|]| |] eqn:E; try discriminate.
    injection H as H. apply eqb_prop in H.
    apply (Equal_loop_true fs fs' Hlen) in E.
    rewrite (Equal_loop_identity fs fs' IHfs Hfs Hfs' E), H. reflexivity.
  - destruct o as [| | | | | |r' ps' v'| |]; simpl in H; try discriminate.
    destruct Ht as [Hr Hps]. destruct Ho as [Hr' Hps'].
    destruct r as [r1|]; [|destruct Hr]. destruct r' as [o1|]; [|destruct Hr'].
    destruct (Equal r1 (Some o1)) as [[|]| |] eqn:E; try discriminate.
    simpl in H.
    destruct (Bool.eqb v v') eqn:Hv; [|discriminate]. simpl in H.
    destruct (Nat.eqb (length ps) (length ps')) eqn:Hlen; [|discriminate].
    simpl in H. apply eqb_prop in Hv. apply Nat.eqb_eq in Hlen.
    apply (Equal_loop_true ps ps' Hlen) in H.
    rewrite (IHr r1 eq_refl Hr o1 Hr' E), Hv,
      (Equal_loop_identity ps ps' IHps Hps Hps' H). reflexivity.
  - destruct o as [| | | | | | |e' n' s'|]; simpl in H; try discriminate.
    destruct (Z.eqb n n' && Bool.eqb s s') eqn:Hn; [|discriminate].
    apply andb_true_iff in Hn as [Hn Hs]. apply Z.eqb_eq in Hn.
    apply eqb_prop in Hs.
    destruct e as [e1|]; [|destruct Ht]. simpl in Ho.
    destruct e' as [o1|]; [|destruct Ho].
    rewrite (IHe e1 eq_refl Ht o1 Ho H), Hn, Hs. reflexivity.
  - simpl in H. injection H as H. apply bool_decide_eq_true in H.
    exact (Kind_label o H).
Qed.

(** X4. Away from named structs [Equal] is identity of type trees: for two
    types in which every struct is anonymous and no field of interface
    type is nil, [t.Equal(o)] returns true exactly when [o] and [t] are the
    same tree. *)
Theorem Equal_unnamed_identity (t o : Ty) :
  unnamed t -> unnamed o -> (Equal t (Some o) = Ok true <-> o = t).
Proof.
  intros Ht Ho. split.
  - exact (Equal_identity_all t Ht o Ho).
  - intros ->. exact (Equal_refl_all t (unnamed_nil_free_all t Ht)).
Qed.

(** X5. [Equal] is not transitive across the two struct regimes: whatever
    the (nil-free) field list, a struct with a name equals the anonymous
    struct with these fields, which equals the struct with any other name
    and these fields, yet the two named structs are unequal. *)
Theorem Equal_not_transitive (n m : string) (fs : list (option Ty))
  (p : bool) :
  n <> "" -> m <> "" -> n <> m -> all_some nil_free fs ->
  Equal (StructType n fs p) (Some (StructType "" fs p)) = Ok true /\
  Equal (StructType "" fs p) (Some (StructType m fs p)) = Ok true /\
  Equal (StructType n fs p) (Some (StructType m fs p)) = Ok false.
Proof.
  intros Hn Hm Hnm Hfs.
  assert (Hloop : Equal_loop Equal fs fs = Ok true).
  { apply Equal_loop_refl; [|exact Hfs].
    apply Forall_forall. intros f _ t _. exact (Equal_refl_all t). }
  simpl. rewrite (eqb_empty_false n Hn), (eqb_empty_false m Hm). simpl.
  rewrite Nat.eqb_refl, Hloop, eqb_reflx. simpl.
  split; [reflexivity|]. split; [reflexivity|].
  f_equal. apply String.eqb_neq. exact Hnm.
Qed.

End type_relation.

(** X1 at work: a named struct and an anonymous one, both ways round. *)
Lemma Equal_symmetric_example :
  Equal (NewStruct "" [Some I32; Some (NewPointer (Some F64))] false)
        (Some (NewStruct "P" [Some I32; Some (NewPointer (Some F64))] false))
  = Ok true.
Proof.
  apply (Equal_symmetric
           (NewStruct "P" [Some I32; Some (NewPointer (Some F64))] false)
           (NewStruct "" [Some I32; Some (NewPointer (Some F64))] false)).
  reflexivity.
Defined.

(** X2 at work: a function type over a pointer and a named struct. *)
Lemma Equal_reflexive_example :
  Equal (types.NewFunction (Some Void)
           [Some (NewPointer (Some I8)); Some (NewStruct "S" [Some F32] true)]
           true)
        (Some (types.NewFunction (Some Void)
           [Some (NewPointer (Some I8)); Some (NewStruct "S" [Some F32] true)]
           true)) = Ok true.
Proof.
  apply (Equal_reflexive
           (types.NewFunction (Some Void)
              [Some (NewPointer (Some I8));
               Some (NewStruct "S" [Some F32] true)] true)).
  simpl. tauto.
Defined.

(** X3 at work: an array of vectors against a pointer. *)
Lemma Equal_returns_example :
  exists b,
    Equal (ArrayType (Some (VectorType (Some F32) 4 false)) 8)
          (Some (NewPointer (Some I32))) = Ok b.
Proof.
  apply (Equal_returns (ArrayType (Some (VectorType (Some F32) 4 false)) 8)
           (NewPointer (Some I32))); simpl; exact I.
Defined.

(** X4 at work: two anonymous structs with different field order are
    unequal. *)
Lemma Equal_unnamed_identity_example :
  Equal (NewStruct "" [Some I32; Some F64] false)
        (Some (NewStruct "" [Some F64; Some I32] false)) <> Ok true.
Proof.
  intros H.
  apply (Equal_unnamed_identity (NewStruct "" [Some I32; Some F64] false)
           (NewStruct "" [Some F64; Some I32] false)) in H.
  - discriminate H.
  - simpl. tauto.
  - simpl. tauto.
Defined.

(** X5 at work: "A" and "B" over [i32, f64]. *)
Lemma Equal_not_transitive_example :
  Equal (NewStruct "A" [Some I32; Some F64] false)
        (Some (NewStruct "" [Some I32; Some F64] false)) = Ok true /\
  Equal (NewStruct "" [Some I32; Some F64] false)
        (Some (NewStruct "B" [Some I32; Some F64] false)) = Ok true /\
  Equal (NewStruct "A" [Some I32; Some F64] false)
        (Some (NewStruct "B" [Some I32; Some F64] false)) = Ok false.
Proof.
  apply (Equal_not_transitive "A" "B" [Some I32; Some F64] false).
  - discriminate.
  - discriminate.
  - discriminate.
  - simpl. tauto.
Defined.

(** ** Opcodes, functions and modules *)

Section opcode_names.

(** X6. The mnemonic of [Opcode.String] identifies the opcode, with one
    exception: [OpBr] and [OpCondBr] are both printed as "br". *)
Theorem Opcode_String_shared (a b : Opcode) :
  Opcode_String a = Opcode_String b <->
  a = b \/ (a = OpBr /\ b = OpCondBr) \/ (a = OpCondBr /\ b = OpBr).
Proof.
  split.
  - destruct a, b; intros H; try (left; reflexivity); try discriminate H;
      right; [left | right]; split; reflexivity.
  - intros [-> | [[-> ->] | [-> ->]]]; reflexivity.
Qed.

End opcode_names.

Section function_creation.

(** What [NewFunction] puts behind the fresh handle. *)
Lemma NewFunction_run (name : string) (ret : option Ty)
  (params : list (option Ty)) (variadic : bool) (h : Heap) :
  let t := FunctionType ret params variadic in
  let r := new_ref (funcs h) in
  ir.NewFunction name (Some t) h
  = Ok (r, store_func r
             (mkFunction (mkBaseValue name (Some t)) (Some t) []
                (imap (fun i T => mkArgument (mkBaseValue "" T) (Z.of_nat i)
                                    (Some r)) params)
                ExternalLinkage None []) h).
Proof. reflexivity. Qed.

(** X7. [CreateFunction] on a builder whose module (if any) exists: the
    call returns a new function that becomes the current function; it
    carries the name and the function type, has no blocks, is owned by the
    builder's module, and has one argument per parameter type, the i-th
    one unnamed, of the i-th parameter type, with index i and the function
    as parent.  The cursor and the name counter are not touched. *)
Theorem CreateFunction_binds (name : string) (ret : option Ty)
  (params : list (option Ty)) (variadic : bool) (s : State) :
  module_ok s ->
  exists f s' fn,
    CreateFunction name ret params variadic s = Ok (f, s') /\
    funcs (mem s) !! f = None /\
    funcs (mem s') !! f = Some fn /\
    bld s' = set_currentFunc (Some f) (bld s) /\
    Func_Base fn = mkBaseValue name (Some (FunctionType ret params variadic)) /\
    FuncType fn = Some (FunctionType ret params variadic) /\
    Blocks fn = [] /\
    Func_Parent fn = module (bld s) /\
    length (Arguments fn) = length params /\
    forall i T, params !! i = Some T ->
      Arguments fn !! i
      = Some (mkArgument (mkBaseValue "" T) (Z.of_nat i) (Some f)).
Proof.
  intros Hm. unfold module_ok in Hm.
  unfold CreateFunction. run_M. unfold types.NewFunction.
  rewrite NewFunction_run. cbn beta iota zeta. run_M.
  set (f := new_ref (funcs (mem s))).
  assert (Hfresh : funcs (mem s) !! f = None) by apply new_ref_fresh.
  assert (Hargs : forall i T, params !! i = Some T ->
            imap (fun i T => mkArgument (mkBaseValue "" T) (Z.of_nat i)
                               (Some f)) params !! i
            = Some (mkArgument (mkBaseValue "" T) (Z.of_nat i) (Some f))).
  { intros i T Hi. rewrite list_lookup_imap, Hi. reflexivity. }
  destruct (module (bld s)) as [m|] eqn:Hmod.
  - destruct Hm as [md Hmd].
    unfold AddFunction. run_M. cbn [funcs store_func modules].
    rewrite lookup_insert_eq. cbn beta iota. rewrite Hmd. cbn beta iota.
    eexists f, _, _. split; [reflexivity|]. cbn [mem bld funcs store_func store_module].
    split; [exact Hfresh|]. split; [rewrite lookup_insert_eq; reflexivity|].
    split; [reflexivity|]. cbn. split; [reflexivity|]. split; [reflexivity|].
    split; [reflexivity|]. split; [reflexivity|].
    split; [apply length_imap | exact Hargs].
  - eexists f, _, _. split; [reflexivity|]. cbn [mem bld funcs store_func].
    split; [exact Hfresh|]. split; [rewrite lookup_insert_eq; reflexivity|].
    split; [reflexivity|]. cbn. split; [reflexivity|]. split; [reflexivity|].
    split; [reflexivity|]. split; [reflexivity|].
    split; [apply length_imap | exact Hargs].
Qed.

End function_creation.

Section function_lookup.

(** The scan of [GetFunction] after a function has been put behind a
    handle that was free, at the end of the list. *)
Lemma GetFunction_loop_snoc (h h' : Heap) (q : string) (l : list func_ref)
  (f : func_ref) (fn : Function) (old : option func_ref) :
  funcs h !! f = None ->
  (forall g, g <> f -> funcs h' !! g = funcs h !! g) ->
  funcs h' !! f = Some fn ->
  GetFunction_loop h q l = Ok old ->
  GetFunction_loop h' q (l ++ [f])
  = Ok (match old with
        | Some g => Some g
        | None => if String.eqb (ValName (Func_Base fn)) q then Some f else None
        end).
Proof.
  intros Hfree Hother Hf. revert old.
  induction l as [|g l IH]; intros old Hrun; simpl in Hrun |- *.
  - injection Hrun as <-. unfold load_func. rewrite Hf.
    cbn. destruct (String.eqb (ValName (Func_Base fn)) q); reflexivity.
  - unfold load_func in Hrun |- *.
    destruct (funcs h !! g) as [gn|] eqn:Hg; [|discriminate].
    assert (g <> f) as Hne by congruence.
    rewrite (Hother g Hne), Hg. cbn in Hrun |- *.
    destruct (String.eqb (ValName (Func_Base gn)) q).
    + injection Hrun as <-. reflexivity.
    + exact (IH old Hrun).
Qed.

(** X8. [GetFunction] after [CreateFunction], on the module of the
    builder: a name that was already found is still found at the same,
    earlier function (a second function of that name is shadowed); a name
    that was not found is found at the new function exactly when it is the
    new function's name. *)
Theorem GetFunction_after_CreateFunction (name q : string) (ret : option Ty)
  (params : list (option Ty)) (variadic : bool) (s : State) (m : module_ref)
  (old : option func_ref) :
  module (bld s) = Some m ->
  GetFunction m q (mem s) = Ok old ->
  exists f s',
    CreateFunction name ret params variadic s = Ok (f, s') /\
    funcs (mem s) !! f = None /\
    GetFunction m q (mem s')
    = Ok (match old with
          | Some g => Some g
          | None => if String.eqb name q then Some f else None
          end).
Proof.
  intros Hmod Hget. unfold GetFunction in Hget. unfold load_module in Hget.
  destruct (modules (mem s) !! m) as [md|] eqn:Hmd; [|discriminate].
  cbn in Hget.
  unfold CreateFunction. run_M. unfold types.NewFunction.
  rewrite NewFunction_run. cbn beta iota zeta. run_M. rewrite Hmod.
  unfold AddFunction. run_M. cbn [funcs store_func modules].
  rewrite lookup_insert_eq. cbn beta iota. rewrite Hmd. cbn beta iota.
  set (f := new_ref (funcs (mem s))).
  assert (Hfresh : funcs (mem s) !! f = None) by apply new_ref_fresh.
  eexists f, _. split; [reflexivity|]. split; [exact Hfresh|].
  cbn [mem]. unfold GetFunction, load_module.
  cbn [modules store_module store_func]. rewrite lookup_insert_eq.
  cbn [mbind outcome_bind Functions set_Functions].
  erewrite (GetFunction_loop_snoc (mem s) _ q (Functions md) f _ old);
    cycle 1.
  - exact Hfresh.
  - intros g Hne. unfold store_module, store_func. cbn [funcs].
    rewrite !lookup_insert_ne by congruence. reflexivity.
  - unfold store_module, store_func. cbn [funcs].
    rewrite lookup_insert_eq. reflexivity.
  - exact Hget.
  - reflexivity.
Qed.

End function_lookup.

Section block_creation.

(** X9. [CreateBlock] while a function is current: the call returns a new,
    empty block of that name, owned by the current function and appended
    to its block list; the entry block of the function is the block that
    was created first, so a later [CreateBlock] never changes it.  The
    builder itself (current block, insertion point, name counter) and all
    other blocks are left alone: creating a block does not move the
    cursor. *)
Theorem CreateBlock_attaches (name : string) (s : State) (f : func_ref)
  (fn : Function) :
  currentFunc (bld s) = Some f ->
  funcs (mem s) !! f = Some fn ->
  exists b s',
    CreateBlock name s = Ok (b, s') /\
    blocks (mem s) !! b = None /\
    bld s' = bld s /\
    blocks (mem s')
    = <[b := mkBasicBlock (mkBaseValue name (Some Label)) [] (Some f) [] []]>
        (blocks (mem s)) /\
    funcs (mem s') = <[f := set_Blocks (Blocks fn ++ [b]) fn]> (funcs (mem s)) /\
    insts (mem s') = insts (mem s) /\
    EntryBlock f (mem s') = Ok (Some (hd b (Blocks fn))).
Proof.
  intros Hcur Hfn. unfold CreateBlock, NewBasicBlock. run_M. rewrite Hcur.
  unfold AddBlock. run_M. cbn [blocks store_block funcs].
  rewrite lookup_insert_eq. cbn beta iota. rewrite Hfn. cbn beta iota.
  set (b := new_ref (blocks (mem s))).
  exists b. eexists. split; [reflexivity|]. cbn [mem bld].
  split; [apply new_ref_fresh|]. split; [reflexivity|].
  unfold store_func, store_block. cbn [blocks funcs insts].
  split; [rewrite insert_insert_eq; reflexivity|].
  split; [reflexivity|]. split; [reflexivity|].
  unfold EntryBlock, load_func. cbn [funcs]. rewrite lookup_insert_eq.
  cbn. destruct (Blocks fn); reflexivity.
Qed.

(** X10. [CreateBlock] while no function is current returns a block that
    belongs to no function, and no function changes.  The builder accepts
    this block as insertion block: [SetInsertPoint] returns, the current
    function is then nil and the cursor is usable. *)
Theorem CreateBlock_detached (name : string) (s : State) :
  currentFunc (bld s) = None ->
  exists b s' s'',
    CreateBlock name s = Ok (b, s') /\
    blocks (mem s) !! b = None /\
    blocks (mem s') !! b
    = Some (mkBasicBlock (mkBaseValue name (Some Label)) [] None [] []) /\
    funcs (mem s') = funcs (mem s) /\
    SetInsertPoint (Some b) s' = Ok (tt, s'') /\
    currentFunc (bld s'') = None /\
    currentBlock (bld s'') = Some b /\
    mem s'' = mem s' /\
    ready s''.
Proof.
  intros Hcur. unfold CreateBlock, NewBasicBlock. run_M. rewrite Hcur.
  run_M. set (b := new_ref (blocks (mem s))).
  exists b. do 2 eexists. split; [reflexivity|]. cbn [mem bld].
  split; [apply new_ref_fresh|].
  unfold store_block. cbn [blocks funcs].
  split; [apply lookup_insert_eq|]. split; [reflexivity|].
  unfold SetInsertPoint. run_M. cbn [blocks]. rewrite lookup_insert_eq.
  cbn beta iota. split; [reflexivity|]. cbn.
  split; [reflexivity|]. split; [reflexivity|]. split; [reflexivity|].
  exists b. cbn. split; [reflexivity|]. split.
  - rewrite lookup_insert_eq. eexists. reflexivity.
  - unfold Instructions_of. cbn. rewrite lookup_insert_eq. cbn. lia.
Qed.

End block_creation.

Section declarations.

(** The store after [NewFunction]. *)
Lemma CreateFunction_run (name : string) (ret : option Ty)
  (params : list (option Ty)) (variadic : bool) (s : State) :
  let t := FunctionType ret params variadic in
  let f := new_ref (funcs (mem s)) in
  let h1 := store_func f
              (mkFunction (mkBaseValue name (Some t)) (Some t) []
                 (imap (fun i T => mkArgument (mkBaseValue "" T) (Z.of_nat i)
                                     (Some f)) params)
                 ExternalLinkage None []) (mem s) in
  CreateFunction name ret params variadic s
  = match module (bld s) with
    | Some m =>
        match AddFunction m (Some f) h1 with
        | Ok h2 => Ok (f, mkState (set_currentFunc (Some f) (bld s)) h2)
        | Panic p => Panic p
        | Invalid => Invalid
        end
    | None => Ok (f, mkState (set_currentFunc (Some f) (bld s)) h1)
    end.
Proof.
  intros t f h1. unfold CreateFunction, types.NewFunction. run_M.
  rewrite NewFunction_run. cbn beta iota zeta. run_M.
  destruct (module (bld s)) as [m|]; run_M; [|reflexivity].
  fold t f h1. destruct (AddFunction m (Some f) h1); reflexivity.
Qed.

Lemma DeclareFunction_run (name : string) (ret : option Ty)
  (params : list (option Ty)) (variadic : bool) (s : State) :
  let t := FunctionType ret params variadic in
  let f := new_ref (funcs (mem s)) in
  let h1 := store_func f
              (mkFunction (mkBaseValue name (Some t)) (Some t) []
                 (imap (fun i T => mkArgument (mkBaseValue "" T) (Z.of_nat i)
                                     (Some f)) params)
                 ExternalLinkage None []) (mem s) in
  DeclareFunction name ret params variadic s
  = match module (bld s) with
    | Some m =>
        match AddFunction m (Some f) h1 with
        | Ok h2 => Ok (f, mkState (bld s) h2)
        | Panic p => Panic p
        | Invalid => Invalid
        end
    | None => Ok (f, mkState (bld s) h1)
    end.
Proof.
  intros t f h1. unfold DeclareFunction, types.NewFunction. run_M.
  rewrite NewFunction_run. cbn beta iota zeta. run_M.
  fold t f. unfold store_func at 1. cbn [funcs].
  rewrite lookup_insert_eq. cbn beta iota.
  unfold set_Func_Linkage. cbn [Func_Base FuncType Blocks Arguments
    Func_Parent Attributes].
  assert (Hsame : forall (fn : Function) (h : Heap),
            store_func f fn (store_func f fn h) = store_func f fn h).
  { intros fn h. unfold store_func. cbn. rewrite insert_insert_eq.
    reflexivity. }
  run_M. rewrite Hsame. fold h1.
  destruct (module (bld s)) as [m|]; run_M; [|reflexivity].
  destruct (AddFunction m (Some f) h1); reflexivity.
Qed.

(** X11. [DeclareFunction] builds and registers exactly the function that
    [CreateFunction] builds for the same arguments (a function without
    blocks and with external linkage, which is what [NewFunction] yields
    already); the only difference is that [CreateFunction] makes the
    function current and [DeclareFunction] leaves the builder as it is.
    They return, panic or fail together. *)
Theorem DeclareFunction_vs_CreateFunction (name : string) (ret : option Ty)
  (params : list (option Ty)) (variadic : bool) (s : State) :
  match CreateFunction name ret params variadic s with
  | Ok (f, s1) =>
      bld s1 = set_currentFunc (Some f) (bld s) /\
      DeclareFunction name ret params variadic s
      = Ok (f, mkState (bld s) (mem s1))
  | Panic p => DeclareFunction name ret params variadic s = Panic p
  | Invalid => DeclareFunction name ret params variadic s = Invalid
  end.
Proof.
  rewrite CreateFunction_run, DeclareFunction_run. cbn zeta.
  destruct (module (bld s)) as [m|].
  - destruct (AddFunction m _ _) as [h2|p|]; [|reflexivity|reflexivity].
    split; reflexivity.
  - split; reflexivity.
Qed.

End declarations.

Section globals.

Lemma GetGlobal_loop_snoc (q : string) (l : list Value) (g : Value)
  (n : string) (old : option Value) :
  Global_Name g = Ok n ->
  GetGlobal_loop q l = Ok old ->
  GetGlobal_loop q (l ++ [g])
  = Ok (match old with
        | Some g0 => Some g0
        | None => if String.eqb n q then Some g else None
        end).
Proof.
  intros Hg. revert old.
  induction l as [|x l IH]; intros old Hrun; simpl in Hrun |- *.
  - injection Hrun as <-. rewrite Hg. cbn.
    destruct (String.eqb n q); reflexivity.
  - destruct (Global_Name x) as [nx| |]; cbn in Hrun |- *;
      try discriminate.
    destruct (String.eqb nx q).
    + injection Hrun as <-. reflexivity.
    + exact (IH old Hrun).
Qed.

(** X12. [CreateGlobalVariable] on a builder with a module: the call
    returns a global of that name whose type is the pointer (address
    space 0) to the declared type, not constant, with external linkage and
    the initializer as given (nil allowed); the builder is unchanged.
    [GetGlobal] on the module afterwards still finds an earlier global of
    a name that was found before, and finds the new global for its own
    name when no earlier global had it. *)
Theorem GetGlobal_after_CreateGlobalVariable (name q : string)
  (typ : option Ty) (init : option Value) (s : State) (m : module_ref)
  (old : option Value) :
  module (bld s) = Some m ->
  GetGlobal m q (mem s) = Ok old ->
  let g := Global (mkBaseValue name (Some (PointerType typ 0))) init false
             ExternalLinkage 0 in
  exists s',
    CreateGlobalVariable name typ init s = Ok (g, s') /\
    bld s' = bld s /\
    GetGlobal m q (mem s')
    = Ok (match old with
          | Some g0 => Some g0
          | None => if String.eqb name q then Some g else None
          end).
Proof.
  intros Hmod Hget g. unfold GetGlobal, load_module in Hget.
  destruct (modules (mem s) !! m) as [md|] eqn:Hmd; [|discriminate].
  cbn in Hget.
  unfold CreateGlobalVariable. run_M. rewrite Hmod. unfold AddGlobal. run_M.
  rewrite Hmd. cbn beta iota.
  eexists. split; [reflexivity|]. split; [reflexivity|]. cbn [mem].
  unfold GetGlobal, load_module, store_module. cbn [modules].
  rewrite lookup_insert_eq. cbn [mbind outcome_bind set_Globals Globals].
  exact (GetGlobal_loop_snoc q (Globals md) g name old eq_refl Hget).
Qed.

(** X13. [CreateGlobalConstant] reads the type off the initializer: with a
    nil initializer it panics with a nil dereference, in every state
    (where [CreateGlobalVariable] accepts nil); with an initializer of
    type [t] it returns a constant global whose type is the pointer to
    [t], appended to the globals of the builder's module. *)
Theorem CreateGlobalConstant_typed (name : string) (s : State) :
  CreateGlobalConstant name None s = Panic NilDereference /\
  forall (v : Value) (t : option Ty) (m : module_ref) (md : Module),
    Value_Type (mem s) (Some v) = Ok t ->
    module (bld s) = Some m ->
    modules (mem s) !! m = Some md ->
    let g := Global (mkBaseValue name (Some (PointerType t 0))) (Some v) true
               ExternalLinkage 0 in
    CreateGlobalConstant name (Some v) s
    = Ok (g, mkState (bld s)
               (store_module m (set_Globals (Globals md ++ [g]) md) (mem s))).
Proof.
  split; [reflexivity|].
  intros v t m md Hty Hmod Hmd g.
  unfold CreateGlobalConstant. run_M. rewrite Hty. cbn beta iota. run_M.
  rewrite Hmod. unfold AddGlobal. run_M. rewrite Hmd. reflexivity.
Qed.

End globals.

(** X7 at work: the function of the factorial example, on a builder with
    a module. *)
Lemma CreateFunction_binds_example :
  let s := state_of (CreateModule "factorial_example") fresh in
  exists f s' fn,
    CreateFunction "factorial" (Some I32) [Some I32] false s = Ok (f, s') /\
    funcs (mem s') !! f = Some fn /\
    currentFunc (bld s') = Some f /\
    Func_Parent fn = Some 0%nat /\
    Arguments fn = [mkArgument (mkBaseValue "" (Some I32)) 0 (Some f)].
Proof.
  intros s.
  assert (Hm : module_ok s).
  { vm_compute. eexists. reflexivity. }
  destruct (CreateFunction_binds "factorial" (Some I32) [Some I32] false s Hm)
    as (f & s' & fn & Hrun & _ & Hfn & Hb & _ & _ & _ & Hpar & Hlen & Hargs).
  exists f, s', fn. split; [exact Hrun|]. split; [exact Hfn|].
  split; [rewrite Hb; reflexivity|]. split; [rewrite Hpar; reflexivity|].
  specialize (Hargs 0%nat (Some I32) eq_refl).
  destruct (Arguments fn) as [|a [|a' l]]; try discriminate Hlen.
  injection Hargs as ->. reflexivity.
Defined.

(** X8 at work: the lookup of the factorial example. *)
Lemma GetFunction_after_CreateFunction_example :
  let s := state_of (CreateModule "factorial_example") fresh in
  exists f s',
    CreateFunction "factorial" (Some I32) [Some I32] false s = Ok (f, s') /\
    GetFunction 0 "factorial" (mem s') = Ok (Some f) /\
    GetFunction 0 "main" (mem s') = Ok None.
Proof.
  intros s.
  destruct (GetFunction_after_CreateFunction "factorial" "factorial"
              (Some I32) [Some I32] false s 0%nat None eq_refl eq_refl)
    as (f & s' & Hrun & _ & Hget).
  destruct (GetFunction_after_CreateFunction "factorial" "main"
              (Some I32) [Some I32] false s 0%nat None eq_refl eq_refl)
    as (f2 & s2 & Hrun2 & _ & Hget2).
  rewrite Hrun in Hrun2. injection Hrun2 as <- <-.
  exists f, s'. split; [exact Hrun|]. split; [exact Hget|exact Hget2].
Defined.

(** X9 at work: two blocks in a new function; the first one stays the
    entry block. *)
Lemma CreateBlock_attaches_example :
  let s := state_of (CreateFunction "f" (Some Void) [] false) fresh in
  exists a s1 b s2,
    CreateBlock "entry" s = Ok (a, s1) /\
    CreateBlock "exit" s1 = Ok (b, s2) /\
    EntryBlock 0 (mem s1) = Ok (Some a) /\
    EntryBlock 0 (mem s2) = Ok (Some a) /\
    bld s2 = bld s.
Proof.
  intros s.
  assert (Hfn : exists fn, funcs (mem s) !! 0%nat = Some fn /\ Blocks fn = []).
  { eexists. split; [vm_compute; reflexivity | reflexivity]. }
  destruct Hfn as (fn & Hfn & Hblocks).
  destruct (CreateBlock_attaches "entry" s 0%nat fn eq_refl Hfn)
    as (a & s1 & Hrun1 & _ & Hb1 & _ & Hf1 & _ & He1).
  assert (Hcur1 : currentFunc (bld s1) = Some 0%nat) by (rewrite Hb1; reflexivity).
  assert (Hfn1 : funcs (mem s1) !! 0%nat = Some (set_Blocks (Blocks fn ++ [a]) fn)).
  { rewrite Hf1. apply lookup_insert_eq. }
  destruct (CreateBlock_attaches "exit" s1 0%nat _ Hcur1 Hfn1)
    as (b & s2 & Hrun2 & _ & Hb2 & _ & _ & _ & He2).
  exists a, s1, b, s2. split; [exact Hrun1|]. split; [exact Hrun2|].
  rewrite Hblocks in He1, He2. split; [exact He1|]. split; [exact He2|].
  rewrite Hb2. exact Hb1.
Defined.

(** X10 at work: a block on a fresh builder. *)
Lemma CreateBlock_detached_example :
  exists b s' s'',
    CreateBlock "loose" fresh = Ok (b, s') /\
    SetInsertPoint (Some b) s' = Ok (tt, s'') /\
    currentFunc (bld s'') = None /\
    ready s''.
Proof.
  destruct (CreateBlock_detached "loose" fresh eq_refl)
    as (b & s' & s'' & Hrun & _ & _ & _ & Hset & Hf & _ & _ & Hready).
  exists b, s', s''. auto.
Defined.

(** X12 at work: a global variable without initializer. *)
Lemma GetGlobal_after_CreateGlobalVariable_example :
  let s := state_of (CreateModule "m") fresh in
  let g := Global (mkBaseValue "counter" (Some (PointerType (Some I64) 0)))
             None false ExternalLinkage 0 in
  exists s',
    CreateGlobalVariable "counter" (Some I64) None s = Ok (g, s') /\
    GetGlobal 0 "counter" (mem s') = Ok (Some g).
Proof.
  intros s g.
  destruct (GetGlobal_after_CreateGlobalVariable "counter" "counter"
              (Some I64) None s 0%nat None eq_refl eq_refl)
    as (s' & Hrun & _ & Hget).
  exists s'. split; [exact Hrun | exact Hget].
Defined.

(** X13 at work: the constant 42. *)
Lemma CreateGlobalConstant_typed_example :
  let s := state_of (CreateModule "m") fresh in
  exists s',
    CreateGlobalConstant "answer" (Some (ConstInt I32 42)) s
    = Ok (Global (mkBaseValue "answer" (Some (PointerType (Some I32) 0)))
            (Some (ConstInt I32 42)) true ExternalLinkage 0, s').
Proof.
  intros s.
  assert (Hmd : exists md, modules (mem s) !! 0%nat = Some md).
  { eexists. vm_compute. reflexivity. }
  destruct Hmd as (md & Hmd).
  eexists.
  exact (proj2 (CreateGlobalConstant_typed "answer" s) (ConstInt I32 42)
           (Some I32) 0%nat md eq_refl eq_refl Hmd).
Defined.

(** ** The builder: what a construction builds *)

Section production.

Lemma outside_kept_refl (s : State) : outside_kept s s.
Proof. repeat split. Qed.

Lemma outside_kept_trans (s1 s2 s3 : State) :
  outside_kept s1 s2 -> outside_kept s2 s3 -> outside_kept s1 s3.
Proof.
  intros (H1 & H2 & H3 & H4 & H5) (H1' & H2' & H3' & H4' & H5').
  repeat split; congruence.
Qed.

Lemma settled_refl (r : inst_ref) (s : State) : settled r s s.
Proof.
  split; [apply outside_kept_refl|]. split; [reflexivity|]. eauto.
Qed.

Lemma settled_trans (r : inst_ref) (s1 s2 s3 : State) :
  settled r s1 s2 -> settled r s2 s3 -> settled r s1 s3.
Proof.
  intros (Ho & Hx & Hr) (Ho' & Hx' & Hr').
  split; [exact (outside_kept_trans _ _ _ Ho Ho')|]. split.
  - intros x Hne. rewrite (Hx' x Hne). exact (Hx x Hne).
  - intros i Hi. destruct (Hr i Hi) as (i' & Hi' & Hb).
    destruct (Hr' i' Hi') as (i'' & Hi'' & Hb'). exists i''.
    split; [exact Hi''|congruence].
Qed.

Lemma produced_settled (op : Opcode) (nm : string) (r : inst_ref)
  (s1 s2 s3 : State) :
  produced op nm r s1 s2 -> settled r s2 s3 -> produced op nm r s1 s3.
Proof.
  intros (Ho & Hfresh & Hold & i & Hi & Hp & Hop & Hn) (Ho' & Hx & Hr).
  split; [exact (outside_kept_trans _ _ _ Ho Ho')|].
  split; [exact Hfresh|]. split.
  - intros x j Hj. assert (x <> r) as Hne by congruence.
    rewrite (Hx x Hne). exact (Hold x j Hj).
  - destruct (Hr i Hi) as (i' & Hi' & Hb). exists i'.
    rewrite Hb. auto.
Qed.

(** *** Steps that leave the state alone *)

Lemma pure_mret {A} (a : A) : pure (mret a).
Proof. intros s. reflexivity. Qed.

Lemma pure_lift {A} (o : outcome A) : pure (lift o).
Proof. intros s. unfold wp, lift. destruct o; auto. Qed.

Lemma pure_throw {A} (p : panic) : pure (@throw A p).
Proof. intros s. exact I. Qed.

Lemma pure_get_bld : pure get_bld.
Proof. intros s. reflexivity. Qed.

Lemma pure_read {A} (f : Heap -> outcome A) : pure (read f).
Proof. intros s. unfold wp, read. run_M. destruct (f (mem s)); auto. Qed.

Lemma pure_bind {A B} (m : M A) (k : A -> M B) :
  pure m -> (forall a, pure (k a)) -> pure (m ≫= k).
Proof.
  intros Hm Hk s. apply wp_bind.
  eapply wp_mono; [apply Hm| |auto].
  intros a s' ->. apply Hk.
Qed.

Lemma pure_current : pure current.
Proof.
  unfold current. apply pure_bind; [apply pure_get_bld|].
  intros b. apply pure_lift.
Qed.

Lemma pure_get_inst (r : inst_ref) : pure (get_inst r).
Proof. apply pure_read. Qed.

Lemma pure_ReturnType_of (fn : option func_ref) : pure (ReturnType_of fn).
Proof.
  unfold ReturnType_of.
  apply pure_bind; [apply pure_lift|]. intros f.
  apply pure_bind; [apply pure_read|]. intros fobj.
  apply pure_bind; [apply pure_lift|]. intros ft.
  apply pure_bind; [apply pure_lift|]. intros [[ret ?] ?]. apply pure_mret.
Qed.

(** *** Steps after the insertion *)

Lemma stepping_pure {A} (r : inst_ref) (m : M A) : pure m -> stepping r m.
Proof.
  intros Hm s. eapply wp_mono; [apply Hm| |auto].
  intros a s' ->. apply settled_refl.
Qed.

Lemma stepping_bind {A B} (r : inst_ref) (m : M A) (k : A -> M B) :
  stepping r m -> (forall a, stepping r (k a)) -> stepping r (m ≫= k).
Proof.
  intros Hm Hk s. apply wp_bind.
  eapply wp_mono; [apply Hm| |auto].
  intros a s' Hs.
  eapply wp_mono; [apply Hk| |auto].
  intros b s'' Hs'. exact (settled_trans _ _ _ _ Hs Hs').
Qed.

Lemma stepping_put_block (r : inst_ref) (x : block_ref) (b : BasicBlock) :
  stepping r (put_block x b).
Proof.
  intros s. unfold wp, put_block. run_M.
  split; [repeat split|]. split; [reflexivity|]. eauto.
Qed.

Lemma stepping_append_Successors (r : inst_ref) (x : block_ref)
  (ts : list block_ref) : stepping r (append_Successors x ts).
Proof.
  unfold append_Successors. apply stepping_bind.
  - apply stepping_pure, pure_read.
  - intros blk. apply stepping_put_block.
Qed.

Lemma stepping_append_Predecessors (r : inst_ref) (x src : block_ref) :
  stepping r (append_Predecessors x src).
Proof.
  unfold append_Predecessors. apply stepping_bind.
  - apply stepping_pure, pure_read.
  - intros blk. apply stepping_put_block.
Qed.

(** Replacing the struct part of [r], the base kept. *)
Lemma stepping_put_inst (r : inst_ref) (i : Instruction) (st : InstStruct)
  (s : State) :
  insts (mem s) !! r = Some i ->
  wp (put_inst r (mkInstruction (Base i) st)) s
     (fun _ s' => settled r s s') (fun _ => Logic.True).
Proof.
  intros Hi. unfold wp, put_inst. run_M.
  split; [repeat split|]. cbn [mem store_inst insts]. split.
  - intros x Hne. rewrite lookup_insert_ne by congruence. reflexivity.
  - intros j Hj. rewrite lookup_insert_eq. eexists. split; [reflexivity|].
    cbn. congruence.
Qed.

Lemma stepping_set_binary_flags (f : bool * bool * bool -> bool * bool * bool)
  (r : inst_ref) : stepping r (set_binary_flags f r).
Proof.
  intros s. unfold set_binary_flags. apply wp_bind.
  unfold wp at 1. unfold get_inst. run_M.
  destruct (insts (mem s) !! r) as [i|] eqn:Hi; [|exact I].
  destruct (Struct i); try exact I.
  destruct (f (NoSignedWrap, NoUnsignedWrap, Exact)) as [[? ?] ?].
  apply stepping_put_inst. exact Hi.
Qed.

Lemma stepping_set_Volatile (r : inst_ref) : stepping r (set_Volatile r).
Proof.
  intros s. unfold set_Volatile. apply wp_bind.
  unfold wp at 1. unfold get_inst. run_M.
  destruct (insts (mem s) !! r) as [i|] eqn:Hi; [|exact I].
  destruct (Struct i); try exact I; apply stepping_put_inst; exact Hi.
Qed.

Lemma stepping_set_Alignment (align : Z) (r : inst_ref) :
  stepping r (set_Alignment align r).
Proof.
  intros s. unfold set_Alignment. apply wp_bind.
  unfold wp at 1. unfold get_inst. run_M.
  destruct (insts (mem s) !! r) as [i|] eqn:Hi; [|exact I].
  destruct (Struct i); try exact I; apply stepping_put_inst; exact Hi.
Qed.

Lemma stepping_set_InBounds (r : inst_ref) : stepping r (set_InBounds r).
Proof.
  intros s. unfold set_InBounds. apply wp_bind.
  unfold wp at 1. unfold get_inst. run_M.
  destruct (insts (mem s) !! r) as [i|] eqn:Hi; [|exact I].
  destruct (Struct i); try exact I; apply stepping_put_inst; exact Hi.
Qed.

Lemma settling_mret (r : inst_ref) : settling r (mret r).
Proof. intros s. split; [reflexivity|apply settled_refl]. Qed.

Lemma settling_bind {A} (r : inst_ref) (m : M A) (k : A -> M inst_ref) :
  stepping r m -> (forall a, settling r (k a)) -> settling r (m ≫= k).
Proof.
  intros Hm Hk s. apply wp_bind.
  eapply wp_mono; [apply Hm| |auto].
  intros a s' Hs.
  eapply wp_mono; [apply Hk| |auto].
  intros b s'' [Hb Hs']. split; [exact Hb|].
  exact (settled_trans _ _ _ _ Hs Hs').
Qed.

(** *** Allocation and insertion *)

(** [insert] gives [r] its parent and changes no other instruction. *)
Lemma insert_parent (r : inst_ref) (s : State) :
  wp (insert r) s
     (fun _ s' =>
        outside_kept s s' /\
        (forall x, x <> r -> insts (mem s') !! x = insts (mem s) !! x) /\
        (forall i, insts (mem s) !! r = Some i ->
           insts (mem s') !! r
           = Some (mkInstruction (SetParent (currentBlock (bld s)) (Base i))
                     (Struct i))))
     (fun _ => Logic.True).
Proof.
  unfold wp, insert. run_M.
  destruct (currentBlock (bld s)) as [cb|] eqn:Hcb; [|exact I].
  destruct (Z_lt_dec (insertPoint (bld s)) 0) as [Hneg|Hpos].
  - unfold AddInstruction, Inst_SetParent. run_M.
    destruct (insts (mem s) !! r) as [i|] eqn:Hi; [|exact I]. run_M.
    cbn [store_inst blocks].
    destruct (blocks (mem s) !! cb) as [blk|]; [|exact I]. run_M.
    split; [repeat split|]. cbn [mem store_block store_inst insts]. split.
    + intros x Hne. rewrite lookup_insert_ne by congruence. reflexivity.
    + intros j Hj. rewrite lookup_insert_eq. congruence.
  - destruct (blocks (mem s) !! cb) as [blk|]; [|exact I]. run_M.
    destruct (Nat.ltb (length (Instructions blk))
                (Z.to_nat (insertPoint (bld s)))); [exact I|].
    unfold Inst_SetParent. run_M. cbn [store_block insts].
    destruct (insts (mem s) !! r) as [i|] eqn:Hi; [|exact I]. run_M.
    split; [repeat split|]. cbn [mem store_block store_inst insts]. split.
    + intros x Hne. rewrite lookup_insert_ne by congruence. reflexivity.
    + intros j Hj. rewrite lookup_insert_eq. congruence.
Qed.

(** The common core of the construction methods: allocate, insert, then
    steps that keep the base of the new instruction. *)
Lemma producing_core (op : Opcode) (nm : string) (i : Instruction)
  (post : inst_ref -> M inst_ref) :
  Op (Base i) = op ->
  ValName (Inst_Base (Base i)) = nm ->
  (forall r, settling r (post r)) ->
  producing op nm (r ← new_inst i; _ ← insert r; post r).
Proof.
  intros Hop Hnm Hpost s. apply wp_bind. unfold wp at 1.
  rewrite new_inst_run. set (r := new_ref (insts (mem s))).
  assert (Hfresh : insts (mem s) !! r = None) by apply new_ref_fresh.
  apply wp_bind.
  eapply wp_mono; [apply insert_parent| |auto].
  cbn [bld mem store_inst insts].
  intros u s1 (Ho & Hx & Hr).
  eapply wp_mono; [apply Hpost| |auto].
  intros a s2 [-> Hs]. fold r. apply (produced_settled op nm r s s1 s2); [|exact Hs].
  split.
  { destruct Ho as (H1 & H2 & H3 & H4 & H5). repeat split; assumption. }
  split; [exact Hfresh|]. split.
  - intros x j Hj. assert (x <> r) as Hne by congruence.
    rewrite (Hx x Hne). rewrite lookup_insert_ne by congruence. exact Hj.
  - eexists. split; [apply Hr, lookup_insert_eq|]. cbn. auto.
Qed.

Lemma producing_pure_bind {A} (op : Opcode) (nm : string) (m : M A)
  (k : A -> M inst_ref) :
  pure m -> (forall a, producing op nm (k a)) -> producing op nm (m ≫= k).
Proof.
  intros Hm Hk s. apply wp_bind.
  eapply wp_mono; [apply Hm| |auto].
  intros a s' ->. apply Hk.
Qed.

(** A step on the object under construction: what it returns is known in
    the rest of the method. *)
Lemma producing_lift_bind {A} (op : Opcode) (nm : string) (o : outcome A)
  (k : A -> M inst_ref) :
  (forall a, o = Ok a -> producing op nm (k a)) ->
  producing op nm (lift o ≫= k).
Proof.
  intros Hk s. apply wp_bind. unfold wp at 1, lift.
  destruct o as [a| |]; [|exact I|exact I]. apply Hk. reflexivity.
Qed.

(** Setting an operand keeps opcode and name. *)
Lemma setOperand_keeps (k : Z) (v : option Value) (i i' : Instruction) :
  setOperand k v i = Ok i' ->
  Op (Base i') = Op (Base i) /\
  Inst_Base (Base i') = Inst_Base (Base i) /\
  Struct i' = Struct i.
Proof.
  unfold setOperand, SetOperand. cbn.
  destruct (Z_lt_dec k 0); [discriminate|]. cbn.
  intros H. injection H as <-. auto.
Qed.

Lemma setOperands_keeps (vs : list (option Value)) :
  forall (k : Z) (i i' : Instruction),
    setOperands k vs i = Ok i' ->
    Op (Base i') = Op (Base i) /\
    Inst_Base (Base i') = Inst_Base (Base i) /\
    Struct i' = Struct i.
Proof.
  induction vs as [|v vs IH]; intros k i i' H; simpl in H.
  - injection H as <-. auto.
  - destruct (setOperand k v i) as [i1| |] eqn:E; try discriminate.
    cbn in H. destruct (setOperand_keeps _ _ _ _ E) as (H1 & H2 & H3).
    destruct (IH _ _ _ H) as (H1' & H2' & H3').
    repeat split; congruence.
Qed.

End production.

Ltac pure_tac :=
  repeat lazymatch goal with
    | |- pure (mbind _ _) => apply pure_bind; [|intros]
    | |- pure (mret _) => apply pure_mret
    | |- pure (lift _) => apply pure_lift
    | |- pure (read _) => apply pure_read
    | |- pure (throw _) => apply pure_throw
    | |- pure get_bld => apply pure_get_bld
    | |- pure current => apply pure_current
    | |- pure (get_inst _) => apply pure_get_inst
    | |- pure (ReturnType_of _) => apply pure_ReturnType_of
    | |- pure (match ?x with _ => _ end) => destruct x
    end.

Ltac stepping_tac :=
  lazymatch goal with
  | |- stepping _ (append_Successors _ _) => apply stepping_append_Successors
  | |- stepping _ (append_Predecessors _ _) => apply stepping_append_Predecessors
  | |- stepping _ (set_binary_flags _ _) => apply stepping_set_binary_flags
  | |- stepping _ (set_NoSignedWrap _) => apply stepping_set_binary_flags
  | |- stepping _ (set_NoUnsignedWrap _) => apply stepping_set_binary_flags
  | |- stepping _ (set_Exact _) => apply stepping_set_binary_flags
  | |- stepping _ (set_Volatile _) => apply stepping_set_Volatile
  | |- stepping _ (set_Alignment _ _) => apply stepping_set_Alignment
  | |- stepping _ (set_InBounds _) => apply stepping_set_InBounds
  | |- stepping _ _ => apply stepping_pure; pure_tac
  end.

Ltac settling_tac :=
  repeat lazymatch goal with
    | |- settling _ (mret _) => apply settling_mret
    | |- settling _ (mbind _ _) => apply settling_bind; [stepping_tac|intros]
    end.

(** Opcode and name of the object under construction, through the
    operand assignments. *)
Ltac keeps_tac :=
  repeat match goal with
    | H : match ?v with _ => _ end = Ok _ |- _ => destruct v
    | H : Ok _ = Ok _ |- _ => injection H as <-
    | H : setOperand _ _ _ = Ok _ |- _ =>
        destruct (setOperand_keeps _ _ _ _ H) as (? & ? & ?); clear H
    | H : setOperands _ _ _ = Ok _ |- _ =>
        destruct (setOperands_keeps _ _ _ _ H) as (? & ? & ?); clear H
    end;
  cbn;
  repeat match goal with
    | H : Op (Base ?i) = _ |- context [Op (Base ?i)] => rewrite H; cbn
    | H : Inst_Base (Base ?i) = _ |- context [Inst_Base (Base ?i)] =>
        rewrite H; cbn
    end;
  reflexivity.

Ltac producing_tac :=
  repeat lazymatch goal with
    | |- producing _ _ (mbind _ (new_inst _)) =>
        apply producing_core; [keeps_tac | keeps_tac | intros; settling_tac]
    | |- producing _ _ (mbind _ (lift _)) => apply producing_lift_bind; intros
    | |- producing _ _ (mbind _ _) =>
        apply producing_pure_bind; [pure_tac|intros]
    | |- producing _ _ (match ?x with _ => _ end) => destruct x
    end.

Section naming.

Lemma built_settled (op : Opcode) (req : option string) (callish : bool)
  (r : inst_ref) (s1 s2 s3 : State) :
  built op req callish r s1 s2 -> settled r s2 s3 ->
  built op req callish r s1 s3.
Proof.
  intros (H1 & H2 & H3 & H4 & Hfresh & Hold & i & Hi & Hp & Hop & Hn)
         ((H1' & H2' & H3' & H4' & H5') & Hx & Hr).
  unfold built. rewrite H1', H2', H3', H4', H5'.
  do 4 (split; [assumption|]). split; [exact Hfresh|]. split.
  - intros x j Hj. assert (x <> r) as Hne by congruence.
    rewrite (Hx x Hne). exact (Hold x j Hj).
  - destruct (Hr i Hi) as (i' & Hi' & Hb). exists i'.
    rewrite Hb. auto.
Qed.

Lemma building_post (op : Opcode) (req : option string) (callish : bool)
  (m : M inst_ref) (k : inst_ref -> M inst_ref) :
  building op req callish m -> (forall r, settling r (k r)) ->
  building op req callish (m ≫= k).
Proof.
  intros Hm Hk s. apply wp_bind.
  eapply wp_mono; [apply Hm| |auto].
  intros r s' Hp.
  eapply wp_mono; [apply Hk| |auto].
  intros a s'' [-> Hs]. exact (built_settled _ _ _ _ _ _ _ Hp Hs).
Qed.

(** A method without name parameter. *)
Lemma building_unnamed (op : Opcode) (callish : bool) (m : M inst_ref) :
  producing op "" m -> building op None callish m.
Proof.
  intros Hm s. eapply wp_mono; [apply Hm| |auto].
  intros r s'
    ((H1 & H2 & H3 & H4 & H5) & Hfresh & Hold & i & Hi & Hp & Hop & Hn).
  unfold built. do 6 (split; [assumption|]). exists i. auto.
Qed.

(** A method that starts with
    [if name == "" { name = b.generateName() }]. *)
Lemma building_named (op : Opcode) (n : string) (callish : bool)
  (k : string -> M inst_ref) :
  (forall nm, producing op nm (k nm)) ->
  building op (Some n) callish (name_or_generate n ≫= k).
Proof.
  intros Hk s. apply wp_bind. unfold wp at 1, name_or_generate.
  destruct (String.eqb n "") eqn:Hn.
  - unfold generateName. run_M.
    eapply wp_mono; [apply Hk| |auto].
    intros r s'
      ((H1 & H2 & H3 & H4 & H5) & Hfresh & Hold & i & Hi & Hp & Hop & Hnm).
    cbn [bld mem] in *.
    unfold built. do 6 (split; [assumption|]). exists i.
    split; [exact Hi|]. split; [exact Hp|]. split; [exact Hop|].
    cbv zeta. rewrite Hn. left. split; [exact Hnm | exact H5].
  - run_M.
    eapply wp_mono; [apply Hk| |auto].
    intros r s'
      ((H1 & H2 & H3 & H4 & H5) & Hfresh & Hold & i & Hi & Hp & Hop & Hnm).
    unfold built. do 6 (split; [assumption|]). exists i.
    split; [exact Hi|]. split; [exact Hp|]. split; [exact Hop|].
    cbv zeta. rewrite Hn. split; [exact Hnm | exact H5].
Qed.

(** The two call methods: a name is generated only for a result that is
    not void. *)
Lemma building_call_named (op : Opcode) (n : string) (mn : M string)
  (k : string -> M inst_ref) :
  naming n mn ->
  (forall nm, producing op nm (k nm)) ->
  building op (Some n) true (mn ≫= k).
Proof.
  intros Hmn Hk s. apply wp_bind.
  eapply wp_mono; [apply Hmn| |auto].
  intros nm s0 Hcase.
  eapply wp_mono; [apply Hk| |auto].
  intros r s'
    ((H1 & H2 & H3 & H4 & H5) & Hfresh & Hold & i & Hi & Hp & Hop & Hnm).
  destruct Hcase as [[-> ->] | (-> & -> & ->)].
  - unfold built. do 6 (split; [assumption|]). exists i.
    split; [exact Hi|]. split; [exact Hp|]. split; [exact Hop|].
    cbv zeta. destruct (String.eqb n "") eqn:Hn.
    + right. apply String.eqb_eq in Hn. rewrite Hn in Hnm.
      split; [reflexivity|]. split; [exact Hnm | exact H5].
    + split; [exact Hnm | exact H5].
  - cbn [bld mem] in *.
    unfold built. do 6 (split; [assumption|]). exists i.
    split; [exact Hi|]. split; [exact Hp|]. split; [exact Hop|].
    cbv zeta. cbn. left. split; [exact Hnm | exact H5].
Qed.

Lemma naming_mret (n : string) : naming n (mret n).
Proof. intros s. left. split; reflexivity. Qed.

Lemma naming_generateName : naming "" generateName.
Proof. intros s. unfold wp, generateName. run_M. right. auto. Qed.

Lemma naming_pure_bind {A} (n : string) (m : M A) (k : A -> M string) :
  pure m -> (forall a, naming n (k a)) -> naming n (m ≫= k).
Proof.
  intros Hm Hk s. apply wp_bind.
  eapply wp_mono; [apply Hm| |auto].
  intros a s' ->. apply Hk.
Qed.

End naming.

Section built_objects.

Lemma building_CreateRet v : building OpRet None false (CreateRet v).
Proof. apply building_unnamed. unfold CreateRet. producing_tac. Qed.

Lemma building_CreateRetVoid : building OpRet None false CreateRetVoid.
Proof. apply building_unnamed. unfold CreateRetVoid. producing_tac. Qed.

Lemma building_CreateBr t : building OpBr None false (CreateBr t).
Proof. apply building_unnamed. unfold CreateBr. producing_tac. Qed.

Lemma building_CreateCondBr c t f :
  building OpCondBr None false (CreateCondBr c t f).
Proof. apply building_unnamed. unfold CreateCondBr. producing_tac. Qed.

Lemma building_CreateSwitch c d n :
  building OpSwitch None false (CreateSwitch c d n).
Proof. apply building_unnamed. unfold CreateSwitch. producing_tac. Qed.

Lemma building_CreateUnreachable :
  building OpUnreachable None false CreateUnreachable.
Proof. apply building_unnamed. unfold CreateUnreachable. producing_tac. Qed.

Lemma building_createBinaryOp op l r n :
  building op (Some n) false (createBinaryOp op l r n).
Proof. unfold createBinaryOp. apply building_named. intros nm. producing_tac. Qed.

Lemma naming_CreateCall fn n :
  naming n (if String.eqb n "" then
              ret ← ReturnType_of fn;
              k ← lift (Kind_of ret);
              if negb (bool_decide (k = VoidKind)) then generateName
              else mret n
            else mret n).
Proof.
  destruct (String.eqb n "") eqn:Hn; [|apply naming_mret].
  apply String.eqb_eq in Hn. subst n.
  apply naming_pure_bind; [apply pure_ReturnType_of|]. intros ret.
  apply naming_pure_bind; [apply pure_lift|]. intros k.
  destruct (negb (bool_decide (k = VoidKind)));
    [apply naming_generateName | apply naming_mret].
Qed.

Lemma naming_CreateCallByName (t : option Ty) n :
  naming n (if String.eqb n "" then
              k ← lift (Kind_of t);
              if negb (bool_decide (k = VoidKind)) then generateName
              else mret n
            else mret n).
Proof.
  destruct (String.eqb n "") eqn:Hn; [|apply naming_mret].
  apply String.eqb_eq in Hn. subst n.
  apply naming_pure_bind; [apply pure_lift|]. intros k.
  destruct (negb (bool_decide (k = VoidKind)));
    [apply naming_generateName | apply naming_mret].
Qed.

Lemma building_CreateAlloca t n :
  building OpAlloca (Some n) false (CreateAlloca t n).
Proof. unfold CreateAlloca. apply building_named. intros nm. producing_tac. Qed.

Lemma building_CreateAllocaWithCount t c n :
  building OpAlloca (Some n) false (CreateAllocaWithCount t c n).
Proof.
  unfold CreateAllocaWithCount. apply building_named. intros nm. producing_tac.
Qed.

Lemma building_CreateLoad t p n :
  building OpLoad (Some n) false (CreateLoad t p n).
Proof. unfold CreateLoad. apply building_named. intros nm. producing_tac. Qed.

Lemma building_CreateStore v p :
  building OpStore None false (CreateStore v p).
Proof. apply building_unnamed. unfold CreateStore. producing_tac. Qed.

Lemma building_CreateGEP t p ix n :
  building OpGetElementPtr (Some n) false (CreateGEP t p ix n).
Proof. unfold CreateGEP. apply building_named. intros nm. producing_tac. Qed.

Lemma building_createCast op v t n :
  building op (Some n) false (createCast op v t n).
Proof. unfold createCast. apply building_named. intros nm. producing_tac. Qed.

Lemma building_CreateICmp p l r n :
  building OpICmp (Some n) false (CreateICmp p l r n).
Proof. unfold CreateICmp. apply building_named. intros nm. producing_tac. Qed.

Lemma building_CreateFCmp p l r n :
  building OpFCmp (Some n) false (CreateFCmp p l r n).
Proof. unfold CreateFCmp. apply building_named. intros nm. producing_tac. Qed.

Lemma building_CreatePhi t n :
  building OpPhi (Some n) false (CreatePhi t n).
Proof. unfold CreatePhi. apply building_named. intros nm. producing_tac. Qed.

Lemma building_CreateSelect c t f n :
  building OpSelect (Some n) false (CreateSelect c t f n).
Proof. unfold CreateSelect. apply building_named. intros nm. producing_tac. Qed.

Lemma building_CreateCall f a n :
  building OpCall (Some n) true (CreateCall f a n).
Proof.
  unfold CreateCall. apply building_call_named; [apply naming_CreateCall|].
  intros nm. producing_tac.
Qed.

Lemma building_CreateCallByName c t a n :
  building OpCall (Some n) true (CreateCallByName c t a n).
Proof.
  unfold CreateCallByName.
  apply building_call_named; [apply naming_CreateCallByName|].
  intros nm. producing_tac.
Qed.

Lemma building_CreateExtractValue a ix n :
  building OpExtractValue (Some n) false (CreateExtractValue a ix n).
Proof.
  unfold CreateExtractValue. apply building_named. intros nm. producing_tac.
Qed.

Lemma building_CreateInsertValue a v ix n :
  building OpInsertValue (Some n) false (CreateInsertValue a v ix n).
Proof.
  unfold CreateInsertValue. apply building_named. intros nm. producing_tac.
Qed.

(** Every construction method builds a new instruction with the opcode
    of the method, owned by the current block and named as requested. *)
Lemma building_call (c : Create) :
  building (opcode_of c) (requested_name c) (is_call c) (call c).
Proof.
  destruct c; cbn [call opcode_of requested_name is_call].
  - apply building_CreateRet.
  - apply building_CreateRetVoid.
  - apply building_CreateBr.
  - apply building_CreateCondBr.
  - apply building_CreateSwitch.
  - apply building_CreateUnreachable.
  - destruct m; cbn [binary_call opcode_of_binary];
      first [ apply building_createBinaryOp
            | apply building_post;
              [apply building_createBinaryOp|intros; settling_tac] ].
  - apply building_CreateAlloca.
  - apply building_CreateAllocaWithCount.
  - apply building_CreateLoad.
  - apply building_post; [apply building_CreateLoad|intros; settling_tac].
  - apply building_post; [apply building_CreateLoad|intros; settling_tac].
  - apply building_CreateStore.
  - apply building_post; [apply building_CreateStore|intros; settling_tac].
  - apply building_post; [apply building_CreateStore|intros; settling_tac].
  - apply building_CreateGEP.
  - apply building_post; [apply building_CreateGEP|intros; settling_tac].
  - apply building_CreateGEP.
  - destruct m; apply building_createCast.
  - apply building_CreateICmp.
  - apply building_CreateFCmp.
  - destruct m; apply building_CreateICmp.
  - apply building_CreatePhi.
  - apply building_CreateSelect.
  - apply building_CreateCall.
  - apply building_CreateCallByName.
  - apply building_CreateExtractValue.
  - apply building_CreateInsertValue.
Qed.

End built_objects.

Section construction_results.

(** X14. Every instruction-construction method of the builder that
    returns has put the instruction it returns at the cursor of the
    builder: in append mode at the end of the current block, in positional
    mode at the cursor index, after which the cursor has moved on by one;
    the current block stays current and no other block's instruction
    sequence has changed. *)
Theorem Create_inserts_at_cursor (c : Create) (s s' : State) (r : inst_ref) :
  call c s = Ok (r, s') -> inserted r s s'.
Proof.
  intros Hrun. pose proof (inserting_call c s) as H.
  unfold wp in H. rewrite Hrun in H. exact H.
Qed.

(** X15. After [SetInsertPoint(b)], whatever the cursor was before, the
    next construction appends: the instruction sequence of [b] is the old
    one followed by the new instruction, all other sequences are
    unchanged, and the builder is still in append mode on [b]. *)
Theorem SetInsertPoint_then_appends (c : Create) (b : block_ref)
  (s s1 s2 : State) (r : inst_ref) :
  SetInsertPoint (Some b) s = Ok (tt, s1) ->
  call c s1 = Ok (r, s2) ->
  Instructions_of (mem s2) b = Instructions_of (mem s) b ++ [r] /\
  (forall b', b' <> b ->
     Instructions_of (mem s2) b' = Instructions_of (mem s) b') /\
  currentBlock (bld s2) = Some b /\
  insertPoint (bld s2) = -1.
Proof.
  intros Hset Hrun.
  assert (Hs1 : mem s1 = mem s /\ currentBlock (bld s1) = Some b /\
                insertPoint (bld s1) = -1).
  { revert Hset. unfold SetInsertPoint. run_M.
    destruct (blocks (mem s) !! b); [|discriminate]. run_M.
    intros H. injection H as <-. auto. }
  destruct Hs1 as (Hmem & Hcb & Hip).
  pose proof (inserting_call c s1) as H. unfold wp in H. rewrite Hrun in H.
  destruct H as (cb & Hcb1 & Hcb2 & Hoth & Hcase).
  assert (cb = b) as -> by congruence.
  cbv zeta in Hcase. rewrite Hip, Hmem in Hcase. rewrite Hmem in Hoth.
  destruct Hcase as [(_ & Hip2 & Hl) | (Hneg & _)]; [|lia].
  split; [exact Hl|]. split; [exact Hoth|]. split; [exact Hcb2|exact Hip2].
Qed.

(** X16. A construction never reuses or overwrites an instruction: the
    instruction it returns was not in the store before, every instruction
    that was in the store is there unchanged afterwards, and functions,
    modules, the builder's module and its current function are
    untouched. *)
Theorem Create_allocates_fresh (c : Create) (s s' : State) (r : inst_ref) :
  call c s = Ok (r, s') ->
  insts (mem s) !! r = None /\
  (forall x i, insts (mem s) !! x = Some i -> insts (mem s') !! x = Some i) /\
  funcs (mem s') = funcs (mem s) /\
  modules (mem s') = modules (mem s) /\
  module (bld s') = module (bld s) /\
  currentFunc (bld s') = currentFunc (bld s).
Proof.
  intros Hrun. pose proof (building_call c s) as H.
  unfold wp in H. rewrite Hrun in H.
  destruct H as (H1 & H2 & H3 & H4 & Hfresh & Hold & _).
  split; [exact Hfresh|]. split; [exact Hold|]. auto.
Qed.

(** X17. The instruction that a construction returns carries the opcode
    of the method, its parent is the block that was current at the call,
    and it occurs in the instruction sequence of that block: ownership and
    membership agree. *)
Theorem Create_owner_and_opcode (c : Create) (s s' : State) (r : inst_ref) :
  call c s = Ok (r, s') ->
  exists cb i,
    currentBlock (bld s) = Some cb /\
    insts (mem s') !! r = Some i /\
    Parent_ (Base i) = Some cb /\
    Op (Base i) = opcode_of c /\
    r ∈ Instructions_of (mem s') cb.
Proof.
  intros Hrun.
  pose proof (building_call c s) as H. unfold wp in H. rewrite Hrun in H.
  destruct H as (_ & _ & _ & _ & _ & _ & i & Hi & Hp & Hop & _).
  pose proof (inserting_call c s) as H. unfold wp in H. rewrite Hrun in H.
  destruct H as (cb & Hcb & _ & _ & Hcase).
  exists cb, i. split; [exact Hcb|]. split; [exact Hi|].
  split; [congruence|]. split; [exact Hop|]. cbv zeta in Hcase.
  destruct Hcase as [(_ & _ & ->) | (_ & _ & ->)]; set_solver.
Qed.

(** X18. Naming.  A method without name parameter builds an unnamed
    instruction and leaves the name counter alone.  A method called with a
    non-empty name uses it as it is and leaves the counter alone.  A
    method called with the empty name names the instruction with the
    decimal numeral of the counter and advances the counter by one; only
    the two call methods may instead leave the instruction unnamed and the
    counter alone. *)
Theorem Create_names (c : Create) (s s' : State) (r : inst_ref) :
  call c s = Ok (r, s') ->
  exists i,
    insts (mem s') !! r = Some i /\
    let n := ValName (Inst_Base (Base i)) in
    let k := nameCounter (bld s) in
    let k' := nameCounter (bld s') in
    match requested_name c with
    | None => n = "" /\ k' = k
    | Some m =>
        if String.eqb m "" then
          (n = pretty k /\ k' = wrap_int (k + 1)) \/
          (is_call c = true /\ n = "" /\ k' = k)
        else n = m /\ k' = k
    end.
Proof.
  intros Hrun. pose proof (building_call c s) as H.
  unfold wp in H. rewrite Hrun in H.
  destruct H as (_ & _ & _ & _ & _ & _ & i & Hi & _ & _ & Hn).
  exists i. split; [exact Hi | exact Hn].
Qed.

Lemma IsTerminator_terminates (c : Create) (b : BaseInstruction) :
  Op b = opcode_of c -> IsTerminator b = terminates c.
Proof.
  unfold IsTerminator. intros ->.
  destruct c; try reflexivity; destruct m; reflexivity.
Qed.

(** X19. In append mode, after a construction has returned, [Terminator]
    of the current block is the new instruction when the method is one of
    the six terminator constructions and nil otherwise, whatever the block
    held before: the builder does not refuse an instruction after a
    terminator, and then the block has no terminator any more. *)
Theorem Terminator_after_Create (c : Create) (s s' : State) (r : inst_ref) :
  call c s = Ok (r, s') ->
  insertPoint (bld s) < 0 ->
  exists cb,
    currentBlock (bld s) = Some cb /\
    Terminator cb (mem s') = Ok (if terminates c then Some r else None).
Proof.
  intros Hrun Happ.
  pose proof (building_call c s) as H. unfold wp in H. rewrite Hrun in H.
  destruct H as (_ & _ & _ & _ & _ & _ & i & Hi & _ & Hop & _).
  pose proof (inserting_call c s) as H. unfold wp in H. rewrite Hrun in H.
  destruct H as (cb & Hcb & _ & _ & Hcase). cbv zeta in Hcase.
  destruct Hcase as [(_ & _ & Hl) | (Hneg & _)]; [|lia].
  exists cb. split; [exact Hcb|].
  unfold Instructions_of in Hl at 1.
  destruct (blocks (mem s') !! cb) as [blk|] eqn:Hb;
    [|destruct (Instructions_of (mem s) cb); discriminate].
  unfold Terminator, load_block. rewrite Hb. cbn [mbind outcome_bind].
  rewrite Hl, length_app. cbn [length].
  replace (length (Instructions_of (mem s) cb) + 1)%nat
    with (S (length (Instructions_of (mem s) cb))) by lia.
  cbn [Nat.eqb].
  replace (S (length (Instructions_of (mem s) cb)) - 1)%nat
    with (length (Instructions_of (mem s) cb) + 0)%nat by lia.
  rewrite lookup_app_r by lia.
  replace (length (Instructions_of (mem s) cb) + 0
           - length (Instructions_of (mem s) cb))%nat with 0%nat by lia.
  cbn [lookup list_lookup]. unfold load_inst. rewrite Hi.
  cbn [mbind outcome_bind].
  rewrite (IsTerminator_terminates c (Base i) Hop).
  destruct (terminates c); reflexivity.
Qed.

End construction_results.

(** X14 at work: an addition appended to the empty block [entry]. *)
Lemma Create_inserts_at_cursor_example :
  let s := state_of empty_entry fresh in
  let c := Binary MAdd (Some (ConstInt I32 2)) (Some (ConstInt I32 3)) "" in
  exists r s', call c s = Ok (r, s') /\ inserted r s s'.
Proof.
  intros s c.
  assert (H : exists r s', call c s = Ok (r, s')).
  { vm_compute. do 2 eexists. reflexivity. }
  destruct H as (r & s' & H). exists r, s'. split; [exact H|].
  exact (Create_inserts_at_cursor c s s' r H).
Defined.

(** X15 at work: back to a block that already holds a return. *)
Lemma SetInsertPoint_then_appends_example :
  let s := state_of entry_with_ret fresh in
  let s1 := state_of (SetInsertPoint (Some 0%nat)) s in
  exists r s2,
    SetInsertPoint (Some 0%nat) s = Ok (tt, s1) /\
    call Unreachable s1 = Ok (r, s2) /\
    Instructions_of (mem s2) 0 = Instructions_of (mem s) 0 ++ [r].
Proof.
  intros s s1.
  assert (H1 : SetInsertPoint (Some 0%nat) s = Ok (tt, s1)).
  { vm_compute. reflexivity. }
  assert (H2 : exists r s2, call Unreachable s1 = Ok (r, s2)).
  { vm_compute. do 2 eexists. reflexivity. }
  destruct H2 as (r & s2 & H2). exists r, s2.
  split; [exact H1|]. split; [exact H2|].
  exact (proj1 (SetInsertPoint_then_appends Unreachable 0%nat s s1 s2 r H1 H2)).
Defined.

(** X16 at work: a store behind the return of [entry]. *)
Lemma Create_allocates_fresh_example :
  let s := state_of entry_with_ret fresh in
  let c := Store (Some (ConstInt I32 1)) (Some (ConstNull (NewPointer (Some I32)))) in
  exists r s',
    call c s = Ok (r, s') /\
    insts (mem s) !! r = None /\
    funcs (mem s') = funcs (mem s).
Proof.
  intros s c.
  assert (H : exists r s', call c s = Ok (r, s')).
  { vm_compute. do 2 eexists. reflexivity. }
  destruct H as (r & s' & H). exists r, s'. split; [exact H|].
  destruct (Create_allocates_fresh c s s' r H) as (Hf & _ & Hfn & _).
  split; [exact Hf | exact Hfn].
Defined.

(** X17 at work: a comparison in [entry]. *)
Lemma Create_owner_and_opcode_example :
  let s := state_of empty_entry fresh in
  let c := ICmpBy MICmpSLE (Some (ConstInt I32 1)) (Some (ConstInt I32 2)) "cmp" in
  exists r s' i,
    call c s = Ok (r, s') /\
    insts (mem s') !! r = Some i /\
    Parent_ (Base i) = currentBlock (bld s) /\
    Op (Base i) = OpICmp.
Proof.
  intros s c.
  assert (H : exists r s', call c s = Ok (r, s')).
  { vm_compute. do 2 eexists. reflexivity. }
  destruct H as (r & s' & H).
  destruct (Create_owner_and_opcode c s s' r H)
    as (cb & i & Hcb & Hi & Hp & Hop & _).
  exists r, s', i. split; [exact H|]. split; [exact Hi|].
  split; [congruence | exact Hop].
Defined.

(** X18 at work: an unnamed stack slot on a fresh counter is named "0". *)
Lemma Create_names_example :
  let s := state_of empty_entry fresh in
  exists r s' i,
    call (Alloca (Some I32) "") s = Ok (r, s') /\
    insts (mem s') !! r = Some i /\
    ValName (Inst_Base (Base i)) = "0" /\
    nameCounter (bld s') = 1.
Proof.
  intros s.
  assert (H : exists r s', call (Alloca (Some I32) "") s = Ok (r, s')).
  { vm_compute. do 2 eexists. reflexivity. }
  destruct H as (r & s' & H).
  destruct (Create_names (Alloca (Some I32) "") s s' r H) as (i & Hi & Hn).
  exists r, s', i. split; [exact H|]. split; [exact Hi|].
  cbv zeta in Hn. cbn [requested_name String.eqb is_call] in Hn.
  destruct Hn as [[Hn Hk] | (Hc & _)]; [|discriminate Hc].
  split; [exact Hn | exact Hk].
Defined.

(** X19 at work: an addition appended behind the return of [entry]
    leaves the block without terminator. *)
Lemma Terminator_after_Create_example :
  let s := state_of entry_with_ret fresh in
  let c := Binary MAdd (Some (ConstInt I32 2)) (Some (ConstInt I32 3)) "" in
  Terminator 0 (mem s) = Ok (Some 0%nat) /\
  exists r s', call c s = Ok (r, s') /\ Terminator 0 (mem s') = Ok None.
Proof.
  intros s c. split; [vm_compute; reflexivity|].
  assert (H : exists r s', call c s = Ok (r, s')).
  { vm_compute. do 2 eexists. reflexivity. }
  destruct H as (r & s' & H). exists r, s'. split; [exact H|].
  assert (Happ : insertPoint (bld s) < 0) by (vm_compute; reflexivity).
  destruct (Terminator_after_Create c s s' r H Happ) as (cb & Hcb & Ht).
  assert (cb = 0%nat) as ->.
  { revert Hcb. vm_compute. intros Hcb. injection Hcb as <-. reflexivity. }
  exact Ht.
Defined.

(** ** More on the cursor and the control-flow graph *)

Section cursor_and_edges.

(** X20. Edge constructions (branch, conditional branch, switch, switch
    case) issued from the current block [src] on a usable cursor all
    return, and they change the adjacency lists of every block [b] in the
    same way: the predecessors of [b] grow by one entry [src] for each
    time [b] is named as a target (a conditional branch with both targets
    [b] counts twice, a block that is not named keeps its list), and the
    successors grow only for [src], by all the named targets in the order
    of the calls.  A branch to [src] itself puts [src] in both of its own
    lists. *)
Theorem edges_by_slot (src : block_ref) (es : list Edge) (s : State) :
  currentBlock (bld s) = Some src ->
  ready s ->
  Forall (well_formed (mem s) src) es ->
  exists s',
    issue_all es s = Ok (tt, s') /\
    forall b,
      Predecessors_of (mem s') b
      = Predecessors_of (mem s) b
        ++ replicate (occurrences b (concat (map targets es))) src /\
      Successors_of (mem s') b
      = Successors_of (mem s) b
        ++ (if decide (b = src) then concat (map targets es) else []).
Proof.
  intros Hcur Hready Hwf.
  destruct (issue_all_run src es s Hready Hcur Hwf)
    as (s' & Hrun & _ & _ & _ & Hs & Hp).
  exists s'. split; [exact Hrun|]. intros b. split; [apply Hp | apply Hs].
Qed.

(** X21. A construction returns only when the cursor is within the
    current block (in positional mode the insertion point is at most the
    length of the block), and it leaves a usable cursor: the current block
    exists and the insertion point is still within it.  So the slice
    operations of [insert] never fault in a sequence of constructions. *)
Theorem Create_keeps_cursor_usable (c : Create) (s s' : State)
  (r : inst_ref) :
  call c s = Ok (r, s') ->
  (exists cb, currentBlock (bld s) = Some cb /\
     insertPoint (bld s) <= Z.of_nat (length (Instructions_of (mem s) cb))) /\
  ready s'.
Proof.
  intros Hrun. pose proof (inserting_call c s) as H.
  unfold wp in H. rewrite Hrun in H.
  destruct H as (cb & Hcb & Hcb' & _ & Hcase). cbv zeta in Hcase.
  assert (Hne : forall l : list inst_ref,
            Instructions_of (mem s') cb = l -> (0 < length l)%nat ->
            is_Some (blocks (mem s') !! cb)).
  { intros l Hl Hlen. unfold Instructions_of in Hl.
    destruct (blocks (mem s') !! cb); [eauto|]. subst l. simpl in Hlen. lia. }
  split.
  - exists cb. split; [exact Hcb|].
    destruct Hcase as [(Hneg & _) | (Hk & _)]; lia.
  - exists cb. split; [exact Hcb'|].
    destruct Hcase as [(Hneg & Hip & Hl) | (Hk & Hip & Hl)].
    + split; [apply (Hne _ Hl); rewrite length_app; simpl; lia|].
      rewrite Hip. lia.
    + split.
      { apply (Hne _ Hl). rewrite !length_app. simpl. lia. }
      rewrite Hip, Hl, !length_app, length_take, length_drop. cbn [length].
      pose proof (wrap_int_le (insertPoint (bld s) + 1)). lia.
Qed.

(** The loop of [SetInsertPointBefore] finds the first occurrence. *)
Lemma find_inst_spec (x : inst_ref) (l : list inst_ref) (k0 : Z) :
  match find_inst x l k0 with
  | Some k =>
      k0 <= k < k0 + Z.of_nat (length l) /\
      l !! Z.to_nat (k - k0) = Some x /\
      forall j, (j < Z.to_nat (k - k0))%nat -> l !! j <> Some x
  | None => x ∉ l
  end.
Proof.
  revert k0. induction l as [|y l IH]; intros k0; simpl.
  - apply not_elem_of_nil.
  - destruct (decide (y = x)) as [->|Hne].
    + split; [lia|]. rewrite Z.sub_diag. split; [reflexivity|].
      intros j Hj. simpl in Hj. lia.
    + specialize (IH (k0 + 1)).
      destruct (find_inst x l (k0 + 1)) as [k|].
      * destruct IH as (Hk & Hx & Hfirst).
        replace (Z.to_nat (k - k0)) with (S (Z.to_nat (k - (k0 + 1)))) by lia.
        split; [lia|]. split; [exact Hx|].
        intros [|j] Hj; simpl; [congruence|]. apply Hfirst. lia.
      * intros Hin. apply elem_of_cons in Hin as [->|Hin]; [congruence|].
        exact (IH Hin).
Qed.

(** X22. [SetInsertPointBefore].  On nil, and on an instruction that has
    no parent block (one that was never inserted), it panics with a nil
    dereference.  On an instruction with parent block [cb] it returns,
    makes [cb] the current block and leaves store, current function, module
    and name counter alone (the current function is not updated, unlike
    [SetInsertPoint]); the insertion point becomes the index of the first
    occurrence of the instruction in [cb], and if the instruction does not
    occur in [cb] the insertion point keeps its former value. *)
Theorem SetInsertPointBefore_cases (s : State) :
  SetInsertPointBefore None s = Panic NilDereference /\
  (forall x ix, insts (mem s) !! x = Some ix -> Parent_ (Base ix) = None ->
     SetInsertPointBefore (Some x) s = Panic NilDereference) /\
  (forall x ix cb blk,
     insts (mem s) !! x = Some ix -> Parent_ (Base ix) = Some cb ->
     blocks (mem s) !! cb = Some blk ->
     exists s',
       SetInsertPointBefore (Some x) s = Ok (tt, s') /\
       mem s' = mem s /\
       currentBlock (bld s') = Some cb /\
       currentFunc (bld s') = currentFunc (bld s) /\
       module (bld s') = module (bld s) /\
       nameCounter (bld s') = nameCounter (bld s) /\
       let k := insertPoint (bld s') in
       (x ∈ Instructions blk ->
          0 <= k < Z.of_nat (length (Instructions blk)) /\
          Instructions blk !! Z.to_nat k = Some x /\
          forall j, (j < Z.to_nat k)%nat -> Instructions blk !! j <> Some x) /\
       (x ∉ Instructions blk -> k = insertPoint (bld s))).
Proof.
  split; [reflexivity|]. split.
  - intros x ix Hx Hpar. unfold SetInsertPointBefore. run_M.
    rewrite Hx. run_M. rewrite Hpar. reflexivity.
  - intros x ix cb blk Hx Hpar Hb. unfold SetInsertPointBefore. run_M.
    rewrite Hx. run_M. rewrite Hpar. run_M. rewrite Hb. run_M.
    pose proof (find_inst_spec x (Instructions blk) 0) as Hfind.
    destruct (find_inst x (Instructions blk) 0) as [k|]; run_M.
    + eexists. split; [reflexivity|]. cbn.
      do 5 (split; [reflexivity|]).
      destruct Hfind as (Hk & Hat & Hfirst). rewrite Z.sub_0_r in Hat, Hfirst.
      split; [|intros Hnin; exfalso; apply Hnin;
               exact (list_elem_of_lookup_2 _ _ _ Hat)].
      intros _. split; [lia|]. split; [exact Hat | exact Hfirst].
    + eexists. split; [reflexivity|]. cbn.
      do 5 (split; [reflexivity|]).
      split; [intros Hin; contradiction | reflexivity].
Qed.

End cursor_and_edges.

Section operand_lists.

(** Assigning the operand just past the end appends it. *)
Lemma setOperand_append (v : option Value) (i : Instruction) :
  setOperand (Z.of_nat (length (Ops (Base i)))) v i
  = Ok (on_base (set_Ops (Ops (Base i) ++ [v])) i).
Proof.
  unfold setOperand, SetOperand. rewrite grow_Ops_spec.
  destruct (Z_lt_dec (Z.of_nat (length (Ops (Base i)))) 0) as [Hneg|_]; [lia|].
  replace (Z.to_nat (Z.of_nat (length (Ops (Base i))) + 1
                     - Z.of_nat (length (Ops (Base i))))) with 1%nat by lia.
  rewrite Nat2Z.id. cbn [replicate mbind outcome_bind].
  rewrite (insert_app_r_alt (Ops (Base i)) [None] _ v) by lia.
  rewrite Nat.sub_diag. reflexivity.
Qed.

(** The loop [for i, op := range operands { inst.SetOperand(i, op) }] on
    an instruction whose operand list ends where the loop starts: the
    operands are appended in order, nil entries included. *)
Lemma setOperands_append (vs : list (option Value)) :
  forall (k : Z) (i : Instruction),
    k = Z.of_nat (length (Ops (Base i))) ->
    setOperands k vs i = Ok (on_base (set_Ops (Ops (Base i) ++ vs)) i).
Proof.
  induction vs as [|v vs IH]; intros k i ->; cbn [setOperands].
  - rewrite app_nil_r. destruct i as [[? ? ? ?] ?]. reflexivity.
  - rewrite setOperand_append. cbn [mbind outcome_bind].
    rewrite IH.
    + cbn. rewrite <- app_assoc. reflexivity.
    + cbn. rewrite length_app. cbn. lia.
Qed.

(** The common tail of the construction methods on a usable cursor: the
    object enters the store with the current block as parent. *)
Lemma emit_object (i : Instruction) (s : State) :
  ready s ->
  exists r s',
    (r ← new_inst i; _ ← insert r; mret r) s = Ok (r, s') /\
    insts (mem s) !! r = None /\
    insts (mem s') !! r
    = Some (mkInstruction (SetParent (currentBlock (bld s)) (Base i))
              (Struct i)).
Proof.
  intros Hready.
  set (r := new_ref (insts (mem s))).
  set (s1 := mkState (bld s) (store_inst r i (mem s))).
  assert (Hready1 : ready s1).
  { destruct Hready as (cb & Hcb & Hex & Hip). exists cb. auto. }
  assert (Hi1 : insts (mem s1) !! r = Some i).
  { cbn [s1 mem store_inst insts]. apply lookup_insert_eq. }
  destruct (insert_total r s1 Hready1) as (s2 & Hins); [eauto|].
  exists r, s2. split.
  - unfold mbind at 1, M_bind at 1. rewrite new_inst_run. fold r s1.
    cbn beta iota. unfold mbind, M_bind. rewrite Hins. reflexivity.
  - split; [apply new_ref_fresh|].
    pose proof (insert_parent r s1) as Hw. unfold wp in Hw.
    rewrite Hins in Hw. destruct Hw as (_ & _ & Hr). exact (Hr i Hi1).
Qed.

(** X23. [CreateGEP] on a usable cursor always returns, whatever the
    pointer and the indices are (nil included: no operand is
    dereferenced).  The operand list of the new instruction is the pointer
    followed by the indices in order, its source element type is the
    pointee type, the in-bounds flag is off, and its result type is the
    pointer (address space 0) to the pointee type, independent of the
    indices. *)
Theorem CreateGEP_object (pointeeType : option Ty) (ptr : option Value)
  (indices : list (option Value)) (name : string) (s : State) :
  ready s ->
  exists r s' i,
    CreateGEP pointeeType ptr indices name s = Ok (r, s') /\
    insts (mem s') !! r = Some i /\
    Ops (Base i) = ptr :: indices /\
    ValType (Inst_Base (Base i)) = Some (PointerType pointeeType 0) /\
    Struct i = GetElementPtrInst pointeeType false.
Proof.
  intros Hready.
  assert (Htail : forall (nm : string) (s0 : State), ready s0 ->
            exists r s' i,
              (inst ← lift (setOperands 0 (ptr :: indices)
                 (on_base (SetType (Some (NewPointer pointeeType)))
                    (on_base (SetName nm)
                       (on_base (set_Op OpGetElementPtr)
                          (zero (GetElementPtrInst pointeeType false))))));
               r ← new_inst inst; _ ← insert r; mret r) s0 = Ok (r, s') /\
              insts (mem s') !! r = Some i /\
              Ops (Base i) = ptr :: indices /\
              ValType (Inst_Base (Base i)) = Some (PointerType pointeeType 0) /\
              Struct i = GetElementPtrInst pointeeType false).
  { intros nm s0 Hready0. rewrite setOperands_append by reflexivity.
    unfold mbind at 1, M_bind at 1, lift at 1. cbn beta iota.
    match goal with
    | |- context [new_inst ?obj] =>
        destruct (emit_object obj s0 Hready0) as (r & s' & Hrun & _ & Hobj)
    end.
    exists r, s'. eexists. split; [exact Hrun|]. split; [exact Hobj|].
    cbn. auto. }
  unfold CreateGEP, name_or_generate.
  destruct (String.eqb name "").
  - unfold generateName. run_M. apply Htail.
    destruct Hready as (cb & Hcb & Hex & Hip). exists cb. auto.
  - run_M. apply Htail. exact Hready.
Qed.

End operand_lists.

(** X20 at work: in the block [entry] (handle 0) of the switch scenario, a
    conditional branch with both targets [merge] (handle 1) and a branch
    back to [entry] itself. *)
Lemma edges_by_slot_example :
  let s := state_of switch_in_entry fresh in
  let es := [CondBrTo (Some True_) 1 1; BrTo 0] in
  exists s', issue_all es s = Ok (tt, s') /\
    Predecessors_of (mem s') 1 = [0%nat; 0%nat] /\
    Predecessors_of (mem s') 0 = [0%nat] /\
    Successors_of (mem s') 0 = [2%nat; 1%nat; 1%nat; 0%nat].
Proof.
  intros s es.
  assert (Hcur : currentBlock (bld s) = Some 0%nat) by (vm_compute; reflexivity).
  assert (Hready : ready s).
  { exists 0%nat. split; [exact Hcur|]. split.
    - vm_compute. eexists. reflexivity.
    - vm_compute. discriminate. }
  assert (Hwf : Forall (well_formed (mem s) 0%nat) es).
  { repeat constructor; vm_compute; eexists; reflexivity. }
  destruct (edges_by_slot 0%nat es s Hcur Hready Hwf) as (s' & Hrun & Hall).
  exists s'. split; [exact Hrun|]. split; [|split].
  - rewrite (proj1 (Hall 1%nat)). vm_compute. reflexivity.
  - rewrite (proj1 (Hall 0%nat)). vm_compute. reflexivity.
  - rewrite (proj2 (Hall 0%nat)). vm_compute. reflexivity.
Defined.

(** X21 at work: a return in the empty block [entry]. *)
Lemma Create_keeps_cursor_usable_example :
  let s := state_of empty_entry fresh in
  exists r s', call RetVoid s = Ok (r, s') /\ ready s'.
Proof.
  intros s.
  assert (H : exists r s', call RetVoid s = Ok (r, s')).
  { vm_compute. do 2 eexists. reflexivity. }
  destruct H as (r & s' & H). exists r, s'. split; [exact H|].
  exact (proj2 (Create_keeps_cursor_usable RetVoid s s' r H)).
Defined.

(** X22 at work: the cursor before the return of [entry]. *)
Lemma SetInsertPointBefore_cases_example :
  let s := state_of entry_with_ret fresh in
  exists s',
    SetInsertPointBefore (Some 0%nat) s = Ok (tt, s') /\
    currentBlock (bld s') = Some 0%nat /\
    insertPoint (bld s') = 0.
Proof.
  intros s.
  assert (H : exists ix blk,
            insts (mem s) !! 0%nat = Some ix /\
            Parent_ (Base ix) = Some 0%nat /\
            blocks (mem s) !! 0%nat = Some blk /\
            Instructions blk = [0%nat]).
  { do 2 eexists. split; [vm_compute; reflexivity|]. split; [reflexivity|].
    split; [vm_compute; reflexivity | reflexivity]. }
  destruct H as (ix & blk & Hx & Hpar & Hb & Hl).
  destruct (proj2 (proj2 (SetInsertPointBefore_cases s)) 0%nat ix 0%nat blk
              Hx Hpar Hb)
    as (s' & Hrun & _ & Hcb & _ & _ & _ & Hin & _).
  exists s'. split; [exact Hrun|]. split; [exact Hcb|].
  rewrite Hl in Hin. destruct Hin as (Hk & _); [constructor|].
  cbn in Hk. lia.
Defined.

(** X23 at work: a GEP without pointer and without indices. *)
Lemma CreateGEP_object_example :
  let s := state_of empty_entry fresh in
  exists r s' i,
    CreateGEP (Some I32) None [] "p" s = Ok (r, s') /\
    insts (mem s') !! r = Some i /\
    Ops (Base i) = [None] /\
    ValType (Inst_Base (Base i)) = Some (PointerType (Some I32) 0).
Proof.
  intros s.
  assert (Hready : ready s).
  { exists 0%nat. split; [vm_compute; reflexivity|]. split.
    - vm_compute. eexists. reflexivity.
    - vm_compute. discriminate. }
  destruct (CreateGEP_object (Some I32) None [] "p" s Hready)
    as (r & s' & i & Hrun & Hi & Hops & Hty & _).
  exists r, s', i. auto.
Defined.

(** ** Names *)

Section names.

Lemma pretty_N_go_nonempty (x : N) (s : string) :
  s <> "" -> pretty_N_go x s <> "".
Proof.
  revert s. induction (N.lt_wf_0 x) as [x _ IH]; intros s Hs.
  destruct (decide (x = 0%N)) as [->|Hx].
  - rewrite pretty_N_go_0. exact Hs.
  - rewrite pretty_N_go_step by lia. apply IH.
    + apply N.div_lt; lia.
    + discriminate.
Qed.

(** The decimal numeral of an integer is not the empty string. *)
Lemma pretty_Z_nonempty (z : Z) : pretty z <> "".
Proof.
  destruct z as [|p|p]; [discriminate| |discriminate].
  unfold pretty, pretty_Z, pretty, pretty_positive, pretty, pretty_N.
  destruct (decide (N.pos p = 0%N)); [discriminate|].
  rewrite pretty_N_go_step by lia. apply pretty_N_go_nonempty. discriminate.
Qed.

(** The counter never stays where it is. *)
Lemma wrap_int_succ_ne (k : Z) : wrap_int (k + 1) <> k.
Proof.
  unfold wrap_int. change (2 ^ 63) with 9223372036854775808.
  change (2 ^ 64) with 18446744073709551616. intros H.
  pose proof (Z.div_mod (k + 1 + 9223372036854775808) 18446744073709551616).
  lia.
Qed.

(** X24. Two constructions in a row that both ask for a generated name
    (empty name, not one of the call methods) return two different
    instructions whose names are the numerals of two consecutive counter
    values, and these names differ, also when the counter wraps around. *)
Theorem auto_names_distinct (c1 c2 : Create) (s s1 s2 : State)
  (r1 r2 : inst_ref) :
  requested_name c1 = Some "" -> is_call c1 = false ->
  requested_name c2 = Some "" -> is_call c2 = false ->
  call c1 s = Ok (r1, s1) ->
  call c2 s1 = Ok (r2, s2) ->
  r1 <> r2 /\
  exists i1 i2,
    insts (mem s2) !! r1 = Some i1 /\
    insts (mem s2) !! r2 = Some i2 /\
    ValName (Inst_Base (Base i1)) = pretty (nameCounter (bld s)) /\
    ValName (Inst_Base (Base i2))
    = pretty (wrap_int (nameCounter (bld s) + 1)) /\
    ValName (Inst_Base (Base i1)) <> ValName (Inst_Base (Base i2)).
Proof.
  intros Hq1 Hc1 Hq2 Hc2 Hrun1 Hrun2.
  pose proof (building_call c1 s) as H1. unfold wp in H1. rewrite Hrun1 in H1.
  pose proof (building_call c2 s1) as H2. unfold wp in H2. rewrite Hrun2 in H2.
  destruct H1 as (_ & _ & _ & _ & _ & _ & i1 & Hi1 & _ & _ & Hn1).
  destruct H2 as (_ & _ & _ & _ & Hfresh2 & Hold2 & i2 & Hi2 & _ & _ & Hn2).
  cbv zeta in Hn1, Hn2. rewrite Hq1 in Hn1. rewrite Hq2 in Hn2.
  cbn [String.eqb] in Hn1, Hn2.
  destruct Hn1 as [[Hn1 Hk1] | (Hc & _)]; [|congruence].
  destruct Hn2 as [[Hn2 Hk2] | (Hc & _)]; [|congruence].
  split; [congruence|].
  exists i1, i2. split; [exact (Hold2 r1 i1 Hi1)|]. split; [exact Hi2|].
  split; [exact Hn1|]. rewrite Hk1 in Hn2. split; [exact Hn2|].
  rewrite Hn1, Hn2. intros Heq. apply (inj pretty) in Heq.
  exact (wrap_int_succ_ne _ (eq_sym Heq)).
Qed.

(** X25. A requested name is not checked against the names in use: after
    a construction with a generated name, a construction that asks for
    that very numeral as its name returns a second, different instruction
    with the same name, and the counter does not move. *)
Theorem explicit_name_may_collide (c1 c2 : Create) (s s1 s2 : State)
  (r1 r2 : inst_ref) :
  requested_name c1 = Some "" -> is_call c1 = false ->
  requested_name c2 = Some (pretty (nameCounter (bld s))) ->
  call c1 s = Ok (r1, s1) ->
  call c2 s1 = Ok (r2, s2) ->
  r1 <> r2 /\
  nameCounter (bld s2) = nameCounter (bld s1) /\
  exists i1 i2,
    insts (mem s2) !! r1 = Some i1 /\
    insts (mem s2) !! r2 = Some i2 /\
    ValName (Inst_Base (Base i1)) = pretty (nameCounter (bld s)) /\
    ValName (Inst_Base (Base i2)) = pretty (nameCounter (bld s)).
Proof.
  intros Hq1 Hc1 Hq2 Hrun1 Hrun2.
  pose proof (building_call c1 s) as H1. unfold wp in H1. rewrite Hrun1 in H1.
  pose proof (building_call c2 s1) as H2. unfold wp in H2. rewrite Hrun2 in H2.
  destruct H1 as (_ & _ & _ & _ & _ & _ & i1 & Hi1 & _ & _ & Hn1).
  destruct H2 as (_ & _ & _ & _ & Hfresh2 & Hold2 & i2 & Hi2 & _ & _ & Hn2).
  cbv zeta in Hn1, Hn2. rewrite Hq1 in Hn1. rewrite Hq2 in Hn2.
  cbn [String.eqb] in Hn1.
  destruct Hn1 as [[Hn1 Hk1] | (Hc & _)]; [|congruence].
  assert (String.eqb (pretty (nameCounter (bld s))) "" = false) as Hne.
  { apply String.eqb_neq. apply pretty_Z_nonempty. }
  rewrite Hne in Hn2. destruct Hn2 as [Hn2 Hk2].
  split; [congruence|]. split; [exact Hk2|].
  exists i1, i2. split; [exact (Hold2 r1 i1 Hi1)|]. split; [exact Hi2|].
  split; [exact Hn1 | exact Hn2].
Qed.

End names.

Section blocks_in_functions.

(** X26. [CreateBlockInFunction] ignores and keeps the builder's current
    function: on nil it panics with a nil dereference; on a function [f]
    it does to the store what [CreateBlock] does when [f] is the current
    function, and leaves the builder as it is.  When [f] is the current
    function the two calls coincide. *)
Theorem CreateBlockInFunction_vs_CreateBlock (name : string) (s : State) :
  CreateBlockInFunction name None s = Panic NilDereference /\
  forall f,
    (currentFunc (bld s) = Some f ->
       CreateBlockInFunction name (Some f) s = CreateBlock name s) /\
    match CreateBlock name
            (mkState (set_currentFunc (Some f) (bld s)) (mem s)) with
    | Ok (b, s1) =>
        CreateBlockInFunction name (Some f) s
        = Ok (b, mkState (bld s) (mem s1))
    | Panic p => CreateBlockInFunction name (Some f) s = Panic p
    | Invalid => CreateBlockInFunction name (Some f) s = Invalid
    end.
Proof.
  split; [reflexivity|]. intros f. split.
  - intros Hcur. unfold CreateBlockInFunction, CreateBlock, NewBasicBlock.
    run_M. rewrite Hcur. reflexivity.
  - unfold CreateBlockInFunction, CreateBlock, NewBasicBlock. run_M.
    cbn [currentFunc set_currentFunc]. run_M.
    destruct (AddBlock f _ _) as [h| |]; reflexivity.
Qed.

End blocks_in_functions.

(** X24 at work: two unnamed stack slots are "0" and "1". *)
Lemma auto_names_distinct_example :
  let s := state_of empty_entry fresh in
  exists r1 s1 r2 s2 i1 i2,
    call (Alloca (Some I32) "") s = Ok (r1, s1) /\
    call (Alloca (Some I64) "") s1 = Ok (r2, s2) /\
    insts (mem s2) !! r1 = Some i1 /\
    insts (mem s2) !! r2 = Some i2 /\
    ValName (Inst_Base (Base i1)) = "0" /\
    ValName (Inst_Base (Base i2)) = "1".
Proof.
  intros s.
  set (s1 := state_of (call (Alloca (Some I32) "")) s).
  assert (H1 : exists r1, call (Alloca (Some I32) "") s = Ok (r1, s1)).
  { vm_compute. eexists. reflexivity. }
  destruct H1 as (r1 & H1).
  assert (H2 : exists r2 s2, call (Alloca (Some I64) "") s1 = Ok (r2, s2)).
  { vm_compute. do 2 eexists. reflexivity. }
  destruct H2 as (r2 & s2 & H2).
  destruct (auto_names_distinct (Alloca (Some I32) "") (Alloca (Some I64) "")
              s s1 s2 r1 r2 eq_refl eq_refl eq_refl eq_refl H1 H2)
    as (_ & i1 & i2 & Hi1 & Hi2 & Hn1 & Hn2 & _).
  exists r1, s1, r2, s2, i1, i2. split; [exact H1|]. split; [exact H2|].
  split; [exact Hi1|]. split; [exact Hi2|].
  split; [rewrite Hn1 | rewrite Hn2]; vm_compute; reflexivity.
Defined.

(** X25 at work: a stack slot named "0" by the caller after one named "0"
    by the builder. *)
Lemma explicit_name_may_collide_example :
  let s := state_of empty_entry fresh in
  exists r1 s1 r2 s2 i1 i2,
    call (Alloca (Some I32) "") s = Ok (r1, s1) /\
    call (Alloca (Some I64) "0") s1 = Ok (r2, s2) /\
    r1 <> r2 /\
    insts (mem s2) !! r1 = Some i1 /\
    insts (mem s2) !! r2 = Some i2 /\
    ValName (Inst_Base (Base i1)) = ValName (Inst_Base (Base i2)).
Proof.
  intros s.
  set (s1 := state_of (call (Alloca (Some I32) "")) s).
  assert (H1 : exists r1, call (Alloca (Some I32) "") s = Ok (r1, s1)).
  { vm_compute. eexists. reflexivity. }
  destruct H1 as (r1 & H1).
  assert (H2 : exists r2 s2, call (Alloca (Some I64) "0") s1 = Ok (r2, s2)).
  { vm_compute. do 2 eexists. reflexivity. }
  destruct H2 as (r2 & s2 & H2).
  destruct (explicit_name_may_collide (Alloca (Some I32) "")
              (Alloca (Some I64) "0") s s1 s2 r1 r2 eq_refl eq_refl eq_refl
              H1 H2)
    as (Hne & _ & i1 & i2 & Hi1 & Hi2 & Hn1 & Hn2).
  exists r1, s1, r2, s2, i1, i2. split; [exact H1|]. split; [exact H2|].
  split; [exact Hne|]. split; [exact Hi1|]. split; [exact Hi2|].
  congruence.
Defined.

(** ** More of the printer *)

Section printing_more.
Variable fmt_g : Z -> string.

(** The name step on any state: it returns, and touches only the counter. *)
Lemma name_or_generate_run (n : string) (s : State) :
  exists nm s0,
    name_or_generate n s = Ok (nm, s0) /\
    mem s0 = mem s /\
    currentBlock (bld s0) = currentBlock (bld s) /\
    insertPoint (bld s0) = insertPoint (bld s).
Proof.
  unfold name_or_generate. destruct (String.eqb n "").
  - unfold generateName. run_M. do 2 eexists. split; [reflexivity|]. auto.
  - run_M. do 2 eexists. split; [reflexivity|]. auto.
Qed.

Lemma ready_moved (s s0 : State) :
  ready s -> mem s0 = mem s ->
  currentBlock (bld s0) = currentBlock (bld s) ->
  insertPoint (bld s0) = insertPoint (bld s) -> ready s0.
Proof.
  intros (cb & Hcb & Hex & Hip) Hm Hc Hp. exists cb.
  rewrite Hm, Hc, Hp. auto.
Qed.

Lemma setOperand_end (k : Z) (v : option Value) (i : Instruction) :
  k = Z.of_nat (length (Ops (Base i))) ->
  setOperand k v i = Ok (on_base (set_Ops (Ops (Base i) ++ [v])) i).
Proof. intros ->. apply setOperand_append. Qed.

(** X27. [CreateRet(nil)] is [CreateRetVoid]: the two calls do the same
    in every state, and on a usable cursor the instruction they insert has
    opcode ret, no operand, and prints as "ret void". *)
Theorem CreateRet_nil_is_CreateRetVoid (s : State) :
  CreateRet None s = CreateRetVoid s /\
  (ready s ->
   exists r s' i,
     CreateRetVoid s = Ok (r, s') /\
     insts (mem s') !! r = Some i /\
     Op (Base i) = OpRet /\
     Ops (Base i) = [] /\
     RetInst_String fmt_g (mem s') i = Ok "ret void").
Proof.
  split; [reflexivity|]. intros Hready. unfold CreateRetVoid.
  destruct (emit_object (on_base (set_Op OpRet) (zero RetInst)) s Hready)
    as (r & s' & Hrun & _ & Hobj).
  exists r, s'. eexists. split; [exact Hrun|]. split; [exact Hobj|].
  split; [reflexivity|]. split; reflexivity.
Qed.

(** X28. Nil operands.  The binary constructions read the type of the
    left operand and panic on nil at construction, in every state.
    [CreateLoad], [CreateStore] and the cast constructions do not look at
    their operands: on a usable cursor they return also for a nil
    operand, and printing the instruction then panics with a nil
    dereference. *)
Theorem nil_operands (typ destTy : option Ty) (ptr rhs : option Value)
  (op : Opcode) (name : string) (s : State) :
  createBinaryOp op None rhs name s = Panic NilDereference /\
  (ready s ->
   (exists r s' i,
      CreateLoad typ None name s = Ok (r, s') /\
      insts (mem s') !! r = Some i /\
      LoadInst_String fmt_g (mem s') i = Panic NilDereference) /\
   (exists r s' i,
      CreateStore None ptr s = Ok (r, s') /\
      insts (mem s') !! r = Some i /\
      StoreInst_String fmt_g (mem s') i = Panic NilDereference) /\
   (exists r s' i,
      createCast op None destTy name s = Ok (r, s') /\
      insts (mem s') !! r = Some i /\
      CastInst_String fmt_g (mem s') i = Panic NilDereference)).
Proof.
  destruct (name_or_generate_run name s) as (nm & s0 & Hname & Hm & Hc & Hp).
  split.
  { unfold createBinaryOp. unfold mbind at 1, M_bind at 1. rewrite Hname.
    cbn beta iota zeta.
    rewrite (setOperand_end 0 None) by reflexivity.
    unfold mbind at 1, M_bind at 1, lift at 1.
    cbn beta iota.
    rewrite (setOperand_end 1 rhs) by reflexivity. reflexivity. }
  intros Hready.
  pose proof (ready_moved s s0 Hready Hm Hc Hp) as Hready0.
  split; [|split].
  - unfold CreateLoad. unfold mbind at 1, M_bind at 1. rewrite Hname.
    cbn beta iota zeta.
    rewrite (setOperand_end 0 None) by reflexivity.
    unfold mbind at 1, M_bind at 1, lift at 1.
    cbn beta iota.
    match goal with
    | |- context [new_inst ?obj] =>
        destruct (emit_object obj s0 Hready0) as (r & s' & Hrun & _ & Hobj)
    end.
    exists r, s'. eexists. split; [exact Hrun|]. split; [exact Hobj|].
    reflexivity.
  - unfold CreateStore.
    rewrite (setOperand_end 0 None) by reflexivity.
    unfold mbind at 1, M_bind at 1, lift at 1.
    cbn beta iota.
    rewrite (setOperand_end 1 ptr) by reflexivity.
    unfold mbind at 1, M_bind at 1, lift at 1.
    cbn beta iota.
    match goal with
    | |- context [new_inst ?obj] =>
        destruct (emit_object obj s Hready) as (r & s' & Hrun & _ & Hobj)
    end.
    exists r, s'. eexists. split; [exact Hrun|]. split; [exact Hobj|].
    reflexivity.
  - unfold createCast. unfold mbind at 1, M_bind at 1. rewrite Hname.
    cbn beta iota zeta.
    rewrite (setOperand_end 0 None) by reflexivity.
    unfold mbind at 1, M_bind at 1, lift at 1.
    cbn beta iota.
    match goal with
    | |- context [new_inst ?obj] =>
        destruct (emit_object obj s0 Hready0) as (r & s' & Hrun & _ & Hobj)
    end.
    exists r, s'. eexists. split; [exact Hrun|]. split; [exact Hobj|].
    reflexivity.
Qed.

End printing_more.

(** ** The printer on constructed calls *)

Section values_kept.
Variable fmt_g : Z -> string.

(** [insert] keeps the name and the type of every block. *)
Lemma insert_bases (r : inst_ref) (s s' : State) (u : unit) :
  insert r s = Ok (u, s') ->
  forall b blk, blocks (mem s) !! b = Some blk ->
    exists blk', blocks (mem s') !! b = Some blk' /\
                 Block_Base blk' = Block_Base blk.
Proof.
  unfold insert. run_M.
  destruct (currentBlock (bld s)) as [cb|] eqn:Hcb; [|discriminate].
  destruct (Z_lt_dec (insertPoint (bld s)) 0) as [Hneg|Hpos].
  - unfold AddInstruction, Inst_SetParent. run_M.
    destruct (insts (mem s) !! r) as [i|]; [|discriminate]. run_M.
    cbn [store_inst blocks].
    destruct (blocks (mem s) !! cb) as [blk0|] eqn:Hb; [|discriminate]. run_M.
    intros H. injection H as _ <-. cbn [bld mem store_block store_inst blocks].
    intros b blk Hblk. destruct (decide (cb = b)) as [<-|Hne].
    + rewrite lookup_insert_eq. eexists. split; [reflexivity|].
      rewrite Hb in Hblk. injection Hblk as <-. reflexivity.
    + rewrite lookup_insert_ne by exact Hne. eauto.
  - destruct (blocks (mem s) !! cb) as [blk0|] eqn:Hb; [|discriminate]. run_M.
    destruct (Nat.ltb (length (Instructions blk0))
                (Z.to_nat (insertPoint (bld s)))); [discriminate|].
    unfold Inst_SetParent. run_M. cbn [store_block insts].
    destruct (insts (mem s) !! r) as [i|]; [|discriminate]. run_M.
    intros H. injection H as _ <-. cbn [bld mem store_block store_inst blocks].
    intros b blk Hblk. destruct (decide (cb = b)) as [<-|Hne].
    + rewrite lookup_insert_eq. eexists. split; [reflexivity|].
      rewrite Hb in Hblk. injection Hblk as <-. reflexivity.
    + rewrite lookup_insert_ne by exact Hne. eauto.
Qed.

(** The common tail of the construction methods on a usable cursor, and
    what the values of the former store are afterwards. *)
Lemma emit_values (i : Instruction) (s : State) :
  ready s ->
  exists r s',
    (r ← new_inst i; _ ← insert r; mret r) s = Ok (r, s') /\
    insts (mem s') !! r
    = Some (mkInstruction (SetParent (currentBlock (bld s)) (Base i))
              (Struct i)) /\
    funcs (mem s') = funcs (mem s) /\
    nameCounter (bld s') = nameCounter (bld s) /\
    forall v b, Value_Base (mem s) v = Ok b -> Value_Base (mem s') v = Ok b.
Proof.
  intros Hready.
  set (r := new_ref (insts (mem s))).
  set (s1 := mkState (bld s) (store_inst r i (mem s))).
  assert (Hready1 : ready s1).
  { destruct Hready as (cb & Hcb & Hex & Hip). exists cb. auto. }
  assert (Hi1 : insts (mem s1) !! r = Some i).
  { cbn [s1 mem store_inst insts]. apply lookup_insert_eq. }
  destruct (insert_total r s1 Hready1) as (s2 & Hins); [eauto|].
  exists r, s2. split.
  { unfold mbind at 1, M_bind at 1. rewrite new_inst_run. fold r s1.
    cbn beta iota. unfold mbind, M_bind. rewrite Hins. reflexivity. }
  destruct (insert_object r s1 s2 tt i Hins Hi1) as (Hobj & Hfuncs & Hcnt).
  split; [exact Hobj|]. split; [exact Hfuncs|]. split; [exact Hcnt|].
  destruct (insert_keeps r s1 s2 tt Hins) as (_ & _ & Hx & _).
  intros v b. destruct v; cbn [Value_Base]; try (intros H; exact H).
  - unfold load_inst.
    destruct (insts (mem s) !! r0) as [ix|] eqn:Hix; [|discriminate].
    assert (r0 <> r) as Hne.
    { intros ->. unfold r in Hix. rewrite new_ref_fresh in Hix. discriminate. }
    rewrite (Hx r0 Hne). cbn [s1 mem store_inst insts].
    rewrite lookup_insert_ne by congruence. rewrite Hix. intros H. exact H.
  - unfold load_block.
    destruct (blocks (mem s) !! r0) as [blk|] eqn:Hblk; [|discriminate].
    destruct (insert_bases r s1 s2 tt Hins r0 blk Hblk) as (blk' & -> & Hbb).
    cbn [mbind outcome_bind]. rewrite Hbb. intros H. exact H.
  - unfold load_func. rewrite Hfuncs. intros H. exact H.
Qed.

(** What a value renders as depends on the store only through the name
    and type of the object behind it. *)
Lemma Value_Type_kept (h h' : Heap) (v : option Value) (ty : option Ty) :
  (forall v b, Value_Base h v = Ok b -> Value_Base h' v = Ok b) ->
  Value_Type h v = Ok ty -> Value_Type h' v = Ok ty.
Proof.
  intros Hkept. unfold Value_Type. destruct v as [v|]; [|discriminate].
  cbn [deref mbind outcome_bind].
  destruct (Value_Base h v) as [b| |] eqn:Hb; try discriminate.
  rewrite (Hkept v b Hb). intros H. exact H.
Qed.

Lemma Value_Name_kept (h h' : Heap) (v : option Value) (n : string) :
  (forall v b, Value_Base h v = Ok b -> Value_Base h' v = Ok b) ->
  Value_Name h v = Ok n -> Value_Name h' v = Ok n.
Proof.
  intros Hkept. unfold Value_Name. destruct v as [v|]; [|discriminate].
  cbn [deref mbind outcome_bind].
  destruct (Value_Base h v) as [b| |] eqn:Hb; try discriminate.
  rewrite (Hkept v b Hb). intros H. exact H.
Qed.

Lemma formatOp_kept (h h' : Heap) (v : option Value) (a : string) :
  (forall v b, Value_Base h v = Ok b -> Value_Base h' v = Ok b) ->
  formatOp fmt_g h v = Ok a -> formatOp fmt_g h' v = Ok a.
Proof.
  intros Hkept. destruct v as [v|]; [|intros H; exact H].
  destruct v; cbn [formatOp]; try (intros H; exact H);
    (destruct (Value_Name h _) as [n| |] eqn:Hn; try discriminate;
     rewrite (Value_Name_kept h h' _ n Hkept Hn); intros H; exact H).
Qed.


End values_kept.

Section call_printing.
Variable fmt_g : Z -> string.

Lemma is_void_or_nil_spec (t : option Ty) :
  is_void_or_nil t = true <-> t = None \/ t = Some VoidType.
Proof.
  destruct t as [t|]; simpl.
  - destruct t; simpl; split; intros H; try discriminate;
      try (right; reflexivity); try reflexivity;
      destruct H as [H|H]; discriminate.
  - split; auto.
Qed.

(** The loop over the operands of a call renders the operands that are
    not nil, in order. *)
Lemma call_args_texts (h : Heap) (ops : list (option Value))
  (strs : list string) :
  Forall2 (arg_text fmt_g h) (omap id ops) strs ->
  call_args fmt_g h ops = Ok strs.
Proof.
  revert strs. induction ops as [|[v|] ops IH]; intros strs H.
  - inversion H. reflexivity.
  - change (omap id (Some v :: ops)) with (v :: omap id ops) in H.
    inversion H as [|? str ? strs' (ty & a & Hty & Ha & ->) Hrest]; subst.
    cbn [call_args]. rewrite Hty, Ha. cbn [mbind outcome_bind].
    rewrite (IH _ Hrest). reflexivity.
  - apply IH, H.
Qed.

(** An argument that renders in a store renders alike in a store that
    keeps the values. *)
Lemma arg_text_kept (h h' : Heap) :
  (forall v b, Value_Base h v = Ok b -> Value_Base h' v = Ok b) ->
  forall v str, arg_text fmt_g h v str -> arg_text fmt_g h' v str.
Proof.
  intros Hkept v str (ty & a & Hty & Ha & ->).
  exists ty, a. split; [|split; [|reflexivity]].
  - apply (Value_Type_kept h h' _ ty Hkept Hty).
  - apply (formatOp_kept fmt_g h h' _ a Hkept Ha).
Qed.

Lemma ReturnType_of_run (s : State) (f : func_ref) (fn : Function)
  (ret : option Ty) (params : list (option Ty)) (variadic : bool) :
  funcs (mem s) !! f = Some fn ->
  FuncType fn = Some (FunctionType ret params variadic) ->
  ReturnType_of (Some f) s = Ok (ret, s).
Proof.
  intros Hfn Hty. unfold ReturnType_of. run_M. rewrite Hfn. run_M.
  rewrite Hty. reflexivity.
Qed.

(** The two forms of [CallInst.String]. *)
Lemma CallInst_String_forms (h : Heap) (i : Instruction)
  (callee : option func_ref) (cname calleeName : string) (tail : bool)
  (strs : list string) :
  Struct i = CallInst callee cname tail ->
  Forall2 (arg_text fmt_g h) (omap id (Ops (Base i))) strs ->
  callee_is h callee cname calleeName ->
  let ty := ValType (Inst_Base (Base i)) in
  let t := if tail then "tail " else "" in
  ((ty = None \/ ty = Some VoidType) ->
   CallInst_String fmt_g h i
   = Ok (t +:+ "call void @" +:+ calleeName +:+ "("
         +:+ Join strs ", " +:+ ")")) /\
  (ty <> None -> ty <> Some VoidType ->
   CallInst_String fmt_g h i
   = Ok ("%" +:+ ValName (Inst_Base (Base i)) +:+ " = " +:+ t
         +:+ "call " +:+ Sprint ty +:+ " @" +:+ calleeName +:+ "("
         +:+ Join strs ", " +:+ ")")).
Proof.
  intros Hst Hargs Hcallee ty t. apply call_args_texts in Hargs.
  assert (Hname : match callee with
                  | Some f => fn ← load_func h f; Ok (ValName (Func_Base fn))
                  | None => Ok cname
                  end = Ok calleeName).
  { destruct callee as [f|]; cbn [callee_is] in Hcallee.
    - destruct Hcallee as (fn & Hfn & <-). unfold load_func. rewrite Hfn.
      reflexivity.
    - rewrite Hcallee. reflexivity. }
  split.
  - intros Hvoid. apply is_void_or_nil_spec in Hvoid.
    unfold CallInst_String. rewrite Hst, Hargs. cbn [mbind outcome_bind].
    rewrite Hname. fold ty. rewrite Hvoid. reflexivity.
  - intros Hnn Hnv.
    assert (is_void_or_nil ty = false) as Hf.
    { destruct (is_void_or_nil ty) eqn:E; [|reflexivity].
      apply is_void_or_nil_spec in E as [E|E]; contradiction. }
    unfold CallInst_String. rewrite Hst, Hargs. cbn [mbind outcome_bind].
    rewrite Hname. fold ty. rewrite Hf. reflexivity.
Qed.

(** The object that [CreateCall] hands to [insert]. *)
Lemma CreateCall_unfold (s : State) (f : func_ref) (fn : Function)
  (ret : option Ty) (params : list (option Ty)) (variadic : bool)
  (args : list (option Value)) (name : string) :
  funcs (mem s) !! f = Some fn ->
  FuncType fn = Some (FunctionType ret params variadic) ->
  (name = "" -> ret <> None) ->
  let auto := String.eqb name "" && negb (is_void_or_nil ret) in
  let nm := if auto then pretty (nameCounter (bld s)) else name in
  let s0 := if auto
            then mkState (set_nameCounter (wrap_int (nameCounter (bld s) + 1))
                            (bld s)) (mem s)
            else s in
  CreateCall (Some f) args name s
  = (r ← new_inst
           (on_base (set_Ops args)
              (on_base (SetType ret)
                 (on_base (SetName nm)
                    (on_base (set_Op OpCall)
                       (zero (CallInst (Some f) "" false))))));
     _ ← insert r; mret r) s0.
Proof.
  intros Hfn Hty Hnil auto nm s0. unfold CreateCall.
  assert (Hname :
    (if String.eqb name "" then
       ret ← ReturnType_of (Some f);
       k ← lift (Kind_of ret);
       if negb (bool_decide (k = VoidKind)) then generateName else mret name
     else mret name) s = Ok (nm, s0)).
  { unfold nm, s0, auto. destruct (String.eqb name "") eqn:Hn.
    - apply String.eqb_eq in Hn. specialize (Hnil Hn).
      destruct ret as [rt|]; [|congruence].
      unfold mbind at 1, M_bind at 1.
      rewrite (ReturnType_of_run s f fn _ params variadic Hfn Hty).
      unfold Kind_of. cbn [is_void_or_nil andb]. run_M.
      destruct (bool_decide (Kind rt = VoidKind)); cbn [negb].
      + subst name. reflexivity.
      + unfold generateName. run_M. reflexivity.
    - reflexivity. }
  unfold mbind at 1, M_bind at 1. rewrite Hname.
  assert (Hfn0 : funcs (mem s0) !! f = Some fn).
  { unfold s0. destruct auto; exact Hfn. }
  unfold mbind at 1, M_bind at 1.
  rewrite (ReturnType_of_run s0 f fn ret params variadic Hfn0 Hty).
  unfold mbind at 1, M_bind at 1.
  rewrite (setOperands_append args 0) by reflexivity.
  reflexivity.
Qed.

(** C7. A call instruction whose type is nil or the void type prints
    without a result name, as [[tail ]call void @callee(args)]; with any
    other type it prints as [%name = [tail ]call type @callee(args)].
    Here [args] are the texts of the operands that are not nil, in order,
    joined by ", "; each text is the type of the operand, a blank, and the
    operand as [formatOp] renders it (for an integer constant, its
    literal).  [CreateCall] on a usable cursor, to a function of the
    store, returns a call whose operands are the arguments.  To a function
    that returns void no name is generated, and the call prints as
    [call void @f(args)], without arguments as [call void @f()]; to a
    function with another return type the call carries the requested name,
    or a generated one when none is requested, and prints as
    [%name = call type @f(args)]. *)
Theorem CallInst_String_void_safe :
  (forall (h : Heap) (i : Instruction) (callee : option func_ref)
     (cname calleeName : string) (tail : bool) (strs : list string),
     Struct i = CallInst callee cname tail ->
     Forall2 (arg_text fmt_g h) (omap id (Ops (Base i))) strs ->
     callee_is h callee cname calleeName ->
     let ty := ValType (Inst_Base (Base i)) in
     let t := if tail then "tail " else "" in
     ((ty = None \/ ty = Some VoidType) ->
      CallInst_String fmt_g h i
      = Ok (t +:+ "call void @" +:+ calleeName +:+ "("
            +:+ Join strs ", " +:+ ")")) /\
     (ty <> None -> ty <> Some VoidType ->
      CallInst_String fmt_g h i
      = Ok ("%" +:+ ValName (Inst_Base (Base i)) +:+ " = " +:+ t
            +:+ "call " +:+ Sprint ty +:+ " @" +:+ calleeName +:+ "("
            +:+ Join strs ", " +:+ ")"))) /\
  (forall (s : State) (f : func_ref) (fn : Function) (ret : option Ty)
     (params : list (option Ty)) (variadic : bool)
     (args : list (option Value)) (name : string) (strs : list string),
     ready s ->
     funcs (mem s) !! f = Some fn ->
     FuncType fn = Some (FunctionType ret params variadic) ->
     (name = "" -> ret <> None) ->
     Forall2 (arg_text fmt_g (mem s)) (omap id args) strs ->
     exists r s' i,
       CreateCall (Some f) args name s = Ok (r, s') /\
       insts (mem s') !! r = Some i /\
       Ops (Base i) = args /\
       ((ret = None \/ ret = Some VoidType) ->
        ValName (Inst_Base (Base i)) = name /\
        nameCounter (bld s') = nameCounter (bld s) /\
        CallInst_String fmt_g (mem s') i
        = Ok ("call void @" +:+ ValName (Func_Base fn) +:+ "("
              +:+ Join strs ", " +:+ ")")) /\
       (ret <> None -> ret <> Some VoidType ->
        let nm := if String.eqb name ""
                  then pretty (nameCounter (bld s)) else name in
        ValName (Inst_Base (Base i)) = nm /\
        nameCounter (bld s')
        = (if String.eqb name "" then wrap_int (nameCounter (bld s) + 1)
           else nameCounter (bld s)) /\
        CallInst_String fmt_g (mem s') i
        = Ok ("%" +:+ nm +:+ " = call " +:+ Sprint ret +:+ " @"
              +:+ ValName (Func_Base fn) +:+ "(" +:+ Join strs ", " +:+ ")"))) /\
  (forall (h : Heap) (ty : Ty) (c : Z),
     arg_text fmt_g h (ConstInt ty c) (Sprint (Some ty) +:+ " " +:+ pretty c)).
Proof.
  split; [exact CallInst_String_forms|].
  split; [|intros h ty c; exists (Some ty), (pretty c); repeat split].
  intros s f fn ret params variadic args name strs Hready Hfn Hty Hnil Hargs.
  rewrite (CreateCall_unfold s f fn ret params variadic args name Hfn Hty Hnil).
  set (auto := String.eqb name "" && negb (is_void_or_nil ret)).
  set (nm := if auto then pretty (nameCounter (bld s)) else name).
  set (s0 := if auto
             then mkState (set_nameCounter (wrap_int (nameCounter (bld s) + 1))
                             (bld s)) (mem s)
             else s).
  assert (Hmem : mem s0 = mem s) by (unfold s0; destruct auto; reflexivity).
  assert (Hready0 : ready s0).
  { apply (ready_moved s); [exact Hready|exact Hmem| |];
      unfold s0; destruct auto; reflexivity. }
  match goal with |- context [new_inst ?o] => set (obj := o) end.
  destruct (emit_values obj s0 Hready0)
    as (r & s' & Hrun & Hobj & Hfuncs & Hcnt & Hkept).
  exists r, s'. eexists. split; [exact Hrun|]. split; [exact Hobj|].
  split; [reflexivity|].
  rewrite Hmem in Hkept, Hfuncs.
  pose proof (Forall2_impl _ _ _ _ Hargs
                (arg_text_kept (mem s) (mem s') Hkept)) as Hargs'.
  assert (Hcallee : callee_is (mem s') (Some f) "" (ValName (Func_Base fn))).
  { exists fn. rewrite Hfuncs. auto. }
  match type of Hobj with _ = Some ?o => set (i := o) in * end.
  destruct (CallInst_String_forms (mem s') i (Some f) "" _ false strs
              eq_refl Hargs' Hcallee) as (Hvoid & Hval).
  split.
  - intros Hret.
    assert (auto = false) as Ha.
    { unfold auto. apply is_void_or_nil_spec in Hret. rewrite Hret.
      apply andb_false_r. }
    split; [unfold i, obj, nm; rewrite Ha; reflexivity|]. split.
    + rewrite Hcnt. unfold s0. rewrite Ha. reflexivity.
    + apply Hvoid. exact Hret.
  - intros Hnn Hnv.
    assert (is_void_or_nil ret = false) as Hf.
    { destruct (is_void_or_nil ret) eqn:E; [|reflexivity].
      apply is_void_or_nil_spec in E as [E|E]; contradiction. }
    assert (auto = String.eqb name "") as Ha.
    { unfold auto. rewrite Hf. apply andb_true_r. }
    cbv zeta. rewrite <- Ha. fold nm. split; [reflexivity|]. split.
    + rewrite Hcnt. unfold s0. destruct auto; reflexivity.
    + apply (Hval Hnn Hnv).
Qed.

End call_printing.

(** C7 at work: scenario 2, a call to the void function [f] (handle 0) on
    a fresh builder; then calls with arguments, one of them nil, to a void
    function and to a function that returns [i32]. *)
Lemma CallInst_String_void_example :
  let s := state_of void_f_and_entry fresh in
  let t := state_of callees_and_entry fresh in
  (exists r s' i,
     CreateCall (Some 0%nat) [] "" s = Ok (r, s') /\
     nameCounter (bld s') = 0 /\
     insts (mem s') !! r = Some i /\
     CallInst_String (fun _ => "") (mem s') i = Ok "call void @f()") /\
  (exists r s' i,
     CreateCall (Some 0%nat) [Some (ConstInt I32 5); None; Some True_] "" t
     = Ok (r, s') /\
     nameCounter (bld s') = 0 /\
     insts (mem s') !! r = Some i /\
     CallInst_String (fun _ => "") (mem s') i
     = Ok "call void @log(i32 5, i1 1)") /\
  (exists r s' i,
     CreateCall (Some 1%nat) [Some (ConstInt I32 5)] "" t = Ok (r, s') /\
     nameCounter (bld s') = 1 /\
     insts (mem s') !! r = Some i /\
     CallInst_String (fun _ => "") (mem s') i
     = Ok "%0 = call i32 @next(i32 5)").
Proof.
  intros s t.
  assert (Hready : forall u, u = s \/ u = t -> ready u).
  { intros u [->| ->]; exists 0%nat;
      (split; [vm_compute; reflexivity|]); split;
      try (vm_compute; eexists; reflexivity); vm_compute; discriminate. }
  destruct (CallInst_String_void_safe (fun _ => "")) as (_ & Hcall & Hconst).
  split; [|split].
  - assert (Hfn : exists fn, funcs (mem s) !! 0%nat = Some fn /\
              FuncType fn = Some (FunctionType (Some VoidType) [] false) /\
              ValName (Func_Base fn) = "f").
    { eexists. split; [vm_compute; reflexivity|]. split; reflexivity. }
    destruct Hfn as (fn & Hfn & Hty & Hname).
    destruct (Hcall s 0%nat fn
                (Some VoidType) [] false [] "" [] (Hready s (or_introl eq_refl))
                Hfn Hty ltac:(discriminate) (List.Forall2_nil _))
      as (r & s' & i & Hrun & Hi & _ & Hvoid & _).
    destruct (Hvoid (or_intror eq_refl)) as (_ & Hc & Hs).
    exists r, s', i. split; [exact Hrun|].
    split; [rewrite Hc; vm_compute; reflexivity|]. split; [exact Hi|].
    rewrite Hs, Hname. reflexivity.
  - assert (Hfn : exists fn, funcs (mem t) !! 0%nat = Some fn /\
              FuncType fn
              = Some (FunctionType (Some VoidType) [Some I32; Some I1] false) /\
              ValName (Func_Base fn) = "log").
    { eexists. split; [vm_compute; reflexivity|]. split; reflexivity. }
    destruct Hfn as (fn & Hfn & Hty & Hname).
    destruct (Hcall t 0%nat fn
                (Some VoidType) [Some I32; Some I1] false
                [Some (ConstInt I32 5); None; Some True_] ""
                ["i32 5"; "i1 1"] (Hready t (or_intror eq_refl))
                Hfn Hty ltac:(discriminate)
                (List.Forall2_cons _ _ (Hconst _ I32 5)
                   (List.Forall2_cons _ _ (Hconst _ I1 1)
                      (List.Forall2_nil _))))
      as (r & s' & i & Hrun & Hi & _ & Hvoid & _).
    destruct (Hvoid (or_intror eq_refl)) as (_ & Hc & Hs).
    exists r, s', i. split; [exact Hrun|].
    split; [rewrite Hc; vm_compute; reflexivity|]. split; [exact Hi|].
    rewrite Hs, Hname. reflexivity.
  - assert (Hfn : exists fn, funcs (mem t) !! 1%nat = Some fn /\
              FuncType fn
              = Some (FunctionType (Some I32) [Some I32] false) /\
              ValName (Func_Base fn) = "next").
    { eexists. split; [vm_compute; reflexivity|]. split; reflexivity. }
    destruct Hfn as (fn & Hfn & Hty & Hname).
    destruct (Hcall t 1%nat fn
                (Some I32) [Some I32] false [Some (ConstInt I32 5)] ""
                ["i32 5"] (Hready t (or_intror eq_refl))
                Hfn Hty ltac:(discriminate)
                (List.Forall2_cons _ _ (Hconst _ I32 5) (List.Forall2_nil _)))
      as (r & s' & i & Hrun & Hi & _ & _ & Hval).
    destruct (Hval ltac:(discriminate) ltac:(discriminate)) as (_ & Hc & Hs).
    exists r, s', i. split; [exact Hrun|].
    split; [rewrite Hc; vm_compute; reflexivity|]. split; [exact Hi|].
    rewrite Hs, Hname. vm_compute. reflexivity.
Defined.

Section phi_nodes.
Variable fmt_g : Z -> string.






End phi_nodes.

Section two_printers.
Variable fmt_g : Z -> string.

Lemma formatOp_by_name (h : Heap) (v : option Value) :
  rendered_by_name h v ->
  exists n, Value_Name h v = Ok n /\ formatOp fmt_g h v = Ok ("%" +:+ n).
Proof.
  destruct v as [[ | | | | | | | |a| | | ]|]; cbn [rendered_by_name];
    try contradiction; intros (n & Hn & Hne); exists n;
    (split; [exact Hn|]).
  1-4,6-8: unfold formatOp; rewrite Hn; cbn [mbind outcome_bind];
    rewrite (proj2 (String.eqb_neq n "") Hne); reflexivity.
  unfold formatOp. cbn in Hn. injection Hn as Hn. rewrite Hn.
  rewrite (proj2 (String.eqb_neq n "") Hne). reflexivity.
Qed.

(** X30. The two copies of [BinaryInst.String] (with and without
    [formatOp]) print the same text for a binary instruction whose two
    operands are rendered by name: not nil, not an integer, float, null or
    undef constant, and with a non-empty name. *)
Theorem BinaryInst_String_copies_agree (h : Heap) (i : Instruction)
  (lhs rhs : option Value) :
  Ops (Base i) !! 0%nat = Some lhs ->
  Ops (Base i) !! 1%nat = Some rhs ->
  rendered_by_name h lhs -> rendered_by_name h rhs ->
  BinaryInst_String fmt_g h i = BinaryInst_String_by_name h i.
Proof.
  intros Hl Hr Hnl Hnr.
  destruct (formatOp_by_name h lhs Hnl) as (nl & Hl1 & Hl2).
  destruct (formatOp_by_name h rhs Hnr) as (nr & Hr1 & Hr2).
  unfold BinaryInst_String, BinaryInst_String_by_name, index_Ops.
  destruct (Struct i); try reflexivity.
  rewrite Hl, Hr. cbn [mbind outcome_bind].
  destruct (Value_Type h lhs) as [ty| |]; cbn [mbind outcome_bind];
    try reflexivity.
  rewrite Hl1, Hl2, Hr1, Hr2. cbn [mbind outcome_bind].
  reflexivity.
Qed.

End two_printers.

(** X27 at work: the return of an empty block. *)
Lemma CreateRet_nil_is_CreateRetVoid_example :
  let s := state_of empty_entry fresh in
  exists r s' i,
    CreateRet None s = Ok (r, s') /\
    insts (mem s') !! r = Some i /\
    RetInst_String (fun _ => "") (mem s') i = Ok "ret void".
Proof.
  intros s.
  assert (Hready : ready s).
  { exists 0%nat. split; [vm_compute; reflexivity|]. split.
    - vm_compute. eexists. reflexivity.
    - vm_compute. discriminate. }
  destruct (CreateRet_nil_is_CreateRetVoid (fun _ => "") s) as [Heq Hvoid].
  destruct (Hvoid Hready) as (r & s' & i & Hrun & Hi & _ & _ & Hstr).
  exists r, s', i. split; [rewrite Heq; exact Hrun|].
  split; [exact Hi | exact Hstr].
Defined.

(** X28 at work: an addition with a nil left operand on a builder fresh
    from [New], which has no insertion block, and a load through nil on a
    builder that appends to a block. *)
Lemma nil_operands_example :
  let s := state_of empty_entry fresh in
  CreateAdd None (Some (ConstInt I32 1)) "x" fresh = Panic NilDereference /\
  exists r s' i,
    CreateLoad (Some I32) None "x" s = Ok (r, s') /\
    insts (mem s') !! r = Some i /\
    LoadInst_String (fun _ => "") (mem s') i = Panic NilDereference.
Proof.
  intros s.
  assert (Hready : ready s).
  { exists 0%nat. split; [vm_compute; reflexivity|]. split.
    - vm_compute. eexists. reflexivity.
    - vm_compute. discriminate. }
  split.
  - exact (proj1 (nil_operands (fun _ => "") None None None
                    (Some (ConstInt I32 1)) OpAdd "x" fresh)).
  - exact (proj1 (proj2 (nil_operands (fun _ => "") (Some I32) None None None
                           OpTrunc "x" s) Hready)).
Defined.


(** X30 at work: the sum of two named arguments. *)
Lemma BinaryInst_String_copies_agree_example :
  let x := Some (ArgumentV (mkArgument (mkBaseValue "x" (Some I32)) 0 None)) in
  let y := Some (ArgumentV (mkArgument (mkBaseValue "y" (Some I32)) 1 None)) in
  let i := mkInstruction
             (mkBaseInstruction (mkBaseValue "sum" (Some I32)) [x; y] None OpAdd)
             (BinaryInst false false false) in
  BinaryInst_String (fun _ => "") empty_heap i = Ok "%sum = add i32 %x, %y" /\
  BinaryInst_String_by_name empty_heap i = Ok "%sum = add i32 %x, %y".
Proof.
  intros x y i.
  assert (H : BinaryInst_String (fun _ => "") empty_heap i
              = BinaryInst_String_by_name empty_heap i).
  { apply (BinaryInst_String_copies_agree (fun _ => "") empty_heap i x y).
    - reflexivity.
    - reflexivity.
    - exists "x". split; [reflexivity | discriminate].
    - exists "y". split; [reflexivity | discriminate]. }
  split; [rewrite H|]; vm_compute; reflexivity.
Defined.
